(** * A* solver for the Farmer, Wolf, Duck and Corn river problem

    A shallow embedding of [fwdc.cpp]: the puzzle state [FWDCstate], the
    problem-space graph node [PSNode] with its cost revision
    [updateCostCond], and the search driver of [main].

    Conventions of the embedding:
    - a C++ [int] is a [Z]: signed overflow is undefined in C++, and the
      costs of a search stay far from it (sixteen states, unit steps);
      [updateCostCond_int] wraps the sums of a cost revision to 32 bits,
      and agrees with [updateCostCond] wherever the nodes fit;
    - a [PSNode *] is an index into the list of allocated nodes, in
      allocation order; [NULL] is [None];
    - [std::map<FWDCstate, PSNode *>] is a [gmap];
    - [std::multimap<int, PSNode *>] is the list of its entries in
      iteration order: sorted by key, equal keys in insertion order;
    - [cout] is a list of output events. *)

From Stdlib Require Import ZArith Lia String.
From stdpp Require Import base option list gmap strings.

Local Open Scope Z_scope.

(** ** The puzzle state *)

Record FWDCstate : Type := mkState {
  FL : bool;  (* is farmer on left bank of the river *)
  WL : bool;  (* is wolf on left bank of the river *)
  DL : bool;  (* is duck on left bank of the river *)
  CL : bool   (* is corn on left bank of the river *)
}.

(** [FWDCstate()] : all items on the right bank. *)
Definition start_state : FWDCstate := mkState false false false false.

#[global] Instance FWDCstate_eq_dec : EqDecision FWDCstate.
Proof. solve_decision. Defined.

Definition state_to_tuple (s : FWDCstate) : bool * bool * bool * bool :=
  (FL s, WL s, DL s, CL s).

Definition state_of_tuple (t : bool * bool * bool * bool) : FWDCstate :=
  let '(f, w, d, c) := t in mkState f w d c.

#[global] Instance FWDCstate_countable : Countable FWDCstate.
Proof.
  apply (inj_countable' state_to_tuple state_of_tuple).
  intros [? ? ? ?]; reflexivity.
Defined.

(** C++ [a != b] and [a == b] on [bool]. *)
Definition bneq (a b : bool) : bool := xorb a b.
Definition beq (a b : bool) : bool := negb (xorb a b).

(** [operator<] *)
Definition state_lt (a b : FWDCstate) : bool :=
  if bneq (FL a) (FL b) then FL b
  else if bneq (WL a) (WL b) then WL b
  else if bneq (DL a) (DL b) then DL b
  else if bneq (CL a) (CL b) then CL b
  else false.

(** [operator==] *)
Definition state_eq (a b : FWDCstate) : bool :=
  beq (FL a) (FL b) && beq (WL a) (WL b) && beq (DL a) (DL b) && beq (CL a) (CL b).

(** [operator!=] *)
Definition state_neq (a b : FWDCstate) : bool :=
  bneq (FL a) (FL b) || bneq (WL a) (WL b) || bneq (DL a) (DL b) || bneq (CL a) (CL b).

Definition isWinning (s : FWDCstate) : bool :=
  FL s && WL s && DL s && CL s.

(** [(int)b] *)
Definition int_of_bool (b : bool) : Z := if b then 1 else 0.

(** [h()] : the farmer's term is commented out in the source. *)
Definition h (s : FWDCstate) : Z :=
  int_of_bool (negb (WL s)) + int_of_bool (negb (DL s)) + int_of_bool (negb (CL s)).

Definition canMoveFW (s : FWDCstate) : bool := beq (FL s) (WL s) && bneq (DL s) (CL s).
Definition canMoveFC (s : FWDCstate) : bool := beq (FL s) (CL s) && bneq (WL s) (DL s).
Definition canMoveF (s : FWDCstate) : bool := bneq (DL s) (CL s) && bneq (WL s) (DL s).
Definition canMoveFD (s : FWDCstate) : bool := beq (FL s) (DL s).

(** [nextStates()] : the successive [push_back]s, in source order. *)
Definition nextStates (s : FWDCstate) : list FWDCstate :=
  let rvec := [] in
  let rvec := if canMoveFW s
              then rvec ++ [mkState (negb (FL s)) (negb (WL s)) (DL s) (CL s)] else rvec in
  let rvec := if canMoveFD s
              then rvec ++ [mkState (negb (FL s)) (WL s) (negb (DL s)) (CL s)] else rvec in
  let rvec := if canMoveFC s
              then rvec ++ [mkState (negb (FL s)) (WL s) (DL s) (negb (CL s))] else rvec in
  let rvec := if canMoveF s
              then rvec ++ [mkState (negb (FL s)) (WL s) (DL s) (CL s)] else rvec in
  rvec.

Local Open Scope string_scope.

(** [toString()] *)
Definition toString (s : FWDCstate) : string :=
  let rval := "[" in
  let rval := if FL s then rval +:+ "F" else rval in
  let rval := if WL s then rval +:+ "W" else rval in
  let rval := if DL s then rval +:+ "D" else rval in
  let rval := if CL s then rval +:+ "C" else rval in
  let rval := rval +:+ "||" in
  let rval := if negb (FL s) then rval +:+ "F" else rval in
  let rval := if negb (WL s) then rval +:+ "W" else rval in
  let rval := if negb (DL s) then rval +:+ "D" else rval in
  let rval := if negb (CL s) then rval +:+ "C" else rval in
  rval +:+ "]".

Local Close Scope string_scope.

(** ** Problem-space graph nodes and the store they live in *)

(** A [PSNode *]. *)
Abbreviation ptr := nat (only parsing).

Record PSNode : Type := mkNode {
  state : FWDCstate;          (* problem state itself *)
  parent : option ptr;        (* parent node in the problem space graph if any *)
  cost2reach : Z;             (* g() *)
  projectedCost : Z;          (* h() *)
  children : list ptr         (* the child nodes in the problem space graph *)
}.

Abbreviation Heap := (list PSNode) (only parsing).

(** The frontier: entries of the multimap in iteration order. *)
Abbreviation Frontier := (list (Z * ptr)) (only parsing).

(** What running a piece of the program gives: a result, a dereference of
    a pointer that was never allocated, or a loop cut short by the fuel of
    the embedding. *)
Inductive outcome (A : Type) : Type :=
| Done (a : A)
| Fault
| OutOfFuel.
Arguments Done {A} a.
Arguments Fault {A}.
Arguments OutOfFuel {A}.

#[global] Instance outcome_ret : MRet outcome := fun A a => Done a.
#[global] Instance outcome_bind : MBind outcome := fun A B f m =>
  match m with
  | Done a => f a
  | Fault => Fault
  | OutOfFuel => OutOfFuel
  end.

(** [p->...] *)
Definition deref (hp : Heap) (p : ptr) : outcome PSNode :=
  match hp !! p with
  | Some nd => Done nd
  | None => Fault
  end.

(** [multimap::insert] : after the last entry whose key is not greater. *)
Fixpoint frontier_insert (k : Z) (p : ptr) (fr : Frontier) : Frontier :=
  match fr with
  | [] => [(k, p)]
  | (k', q) :: rest =>
      if k <? k' then (k, p) :: fr else (k', q) :: frontier_insert k p rest
  end.

(** The scan of [updateCostCond] from [lower_bound(key)] up to
    [upper_bound(key)]: the first entry of that range holding [p] is
    erased; [None] when the range does not hold [p]. *)
Fixpoint frontier_erase_in_range (key : Z) (p : ptr) (fr : Frontier) : option Frontier :=
  match fr with
  | [] => None
  | (k', q) :: rest =>
      if k' <? key then cons (k', q) <$> frontier_erase_in_range key p rest
      else if k' =? key then
        if Nat.eqb q p then Some rest
        else cons (k', q) <$> frontier_erase_in_range key p rest
      else None
  end.

(** PSNode constructor *)
Definition new_PSNode (hp : Heap) (newstate : FWDCstate) (from : option ptr) : outcome PSNode :=
  match from with
  | None => Done (mkNode newstate None 0 (h newstate) [])
  | Some f =>
      fnode ← deref hp f;
      Done (mkNode newstate (Some f) (cost2reach fnode + 1) (h newstate) [])
  end.

(** What [updateCostCond] reads and writes. *)
Abbreviation Store := (Heap * Frontier)%type (only parsing).

(** The loop over [children] of [updateCostCond], given the recursive call. *)
Fixpoint offer_to_children (rec : ptr → Store → outcome (Store * bool))
    (cs : list ptr) (st : Store) : outcome Store :=
  match cs with
  | [] => Done st
  | c :: cs' =>
      '(st', _) ← rec c st;
      offer_to_children rec cs' st'
  end.

(** [this->updateCostCond(newcost, newparent, frontier)].  [fuel] bounds
    the depth of the recursion.  The list of children is read once: no
    call writes a [children] field (lemma [updateCostCond_refines]). *)
Fixpoint updateCostCond (fuel : nat) (this : ptr) (newcost : Z) (newparent : option ptr)
    (st : Store) : outcome (Store * bool) :=
  match fuel with
  | O => OutOfFuel
  | S fuel' =>
      let '(hp, fr) := st in
      nd ← deref hp this;
      if newcost <? cost2reach nd then
        let fr1 :=
          match frontier_erase_in_range (cost2reach nd) this fr with
          | Some fr' => frontier_insert (newcost + projectedCost nd) this fr'
          | None => fr
          end in
        let hp1 :=
          <[this := mkNode (state nd) newparent newcost (projectedCost nd) (children nd)]> hp in
        st' ← offer_to_children
                (fun c s => updateCostCond fuel' c (newcost + 1) (Some this) s)
                (children nd) (hp1, fr1);
        Done (st', true)
      else Done (st, false)
  end.

(** The values of a 32-bit [int]. *)
Definition int_min : Z := -2147483648.
Definition int_max : Z := 2147483647.
Definition is_int (z : Z) : Prop := int_min ≤ z ≤ int_max.

(** What a sum is stored as in an [int] that wraps around. *)
Definition wrap_int (z : Z) : Z := (z + 2147483648) mod 4294967296 - 2147483648.

(** [updateCostCond] with the two sums it computes, [newcost +
    projectedCost] on line 169 and [newcost + 1] on line 179, wrapped
    to 32 bits. *)
Fixpoint updateCostCond_int (fuel : nat) (this : ptr) (newcost : Z) (newparent : option ptr)
    (st : Store) : outcome (Store * bool) :=
  match fuel with
  | O => OutOfFuel
  | S fuel' =>
      let '(hp, fr) := st in
      nd ← deref hp this;
      if newcost <? cost2reach nd then
        let fr1 :=
          match frontier_erase_in_range (cost2reach nd) this fr with
          | Some fr' => frontier_insert (wrap_int (newcost + projectedCost nd)) this fr'
          | None => fr
          end in
        let hp1 :=
          <[this := mkNode (state nd) newparent newcost (projectedCost nd) (children nd)]> hp in
        st' ← offer_to_children
                (fun c s => updateCostCond_int fuel' c (wrap_int (newcost + 1)) (Some this) s)
                (children nd) (hp1, fr1);
        Done (st', true)
      else Done (st, false)
  end.

(** ** The search driver *)

(** What the program writes to [cout], one event per group of [<<]. *)
Inductive event : Type :=
| OutFrontierHeader
| OutFrontierEntry (s : FWDCstate) (hval gval fval : Z)
| OutExpand (s : FWDCstate)
| OutGenerated (s : FWDCstate)
| OutRegenerated
| OutUpdatedF
| OutNoUpdate
| OutNewNode
| OutCosts (gval hval fval : Z)
| OutWinning
| OutPath (outpath : string)
| OutNoPath.

(** The variables of [main] that outlive one statement. *)
Record World : Type := mkWorld {
  heap : Heap;
  generated : gmap FWDCstate ptr;
  frontier : Frontier;
  winningNode : option ptr;
  output : list event
}.

Definition emit (e : event) (w : World) : World :=
  mkWorld (heap w) (generated w) (frontier w) (winningNode w) (output w ++ [e]).

(** [std::map::insert] : keeps the old binding when the key is present. *)
Definition map_insert (k : FWDCstate) (v : ptr) (m : gmap FWDCstate ptr) : gmap FWDCstate ptr :=
  match m !! k with
  | Some _ => m
  | None => <[k := v]> m
  end.

(** [generated[k]] where the value is then dereferenced: an absent key
    would give a null pointer. *)
Definition map_at (m : gmap FWDCstate ptr) (k : FWDCstate) : outcome ptr :=
  match m !! k with
  | Some p => Done p
  | None => Fault
  end.

(** [children.push_back(q)] *)
Definition push_child (nd : PSNode) (q : ptr) : PSNode :=
  mkNode (state nd) (parent nd) (cost2reach nd) (projectedCost nd) (children nd ++ [q]).

(** The body of the loop over [tempChildren], for one generated state. *)
Definition process_successor (fuel : nat) (tempNode : ptr) (s : FWDCstate) (w : World)
    : outcome World :=
  tn ← deref (heap w) tempNode;
  if state_neq s (state tn) then
    let w := emit (OutGenerated s) w in
    w ← match generated w !! s with
        | Some q =>
            let w := emit OutRegenerated w in
            '(hp, fr, updated) ←
              updateCostCond fuel q (cost2reach tn + 1) (Some tempNode) (heap w, frontier w);
            let w := mkWorld hp (generated w) fr (winningNode w) (output w) in
            Done (emit (if updated : bool then OutUpdatedF else OutNoUpdate) w)
        | None =>
            let w := emit OutNewNode w in
            nd ← new_PSNode (heap w) s (Some tempNode);
            let workNode := length (heap w) in
            let w := mkWorld (heap w ++ [nd]) (map_insert (state nd) workNode (generated w))
                       (frontier_insert (cost2reach nd + projectedCost nd) workNode (frontier w))
                       (winningNode w) (output w) in
            Done (if isWinning (state nd)
                  then mkWorld (heap w) (generated w) (frontier w) (Some workNode) (output w)
                  else w)
        end;
    q ← map_at (generated w) s;
    tn' ← deref (heap w) tempNode;
    let w := mkWorld
               (<[tempNode := push_child tn' q]> (heap w))
               (generated w) (frontier w) (winningNode w) (output w) in
    qn ← deref (heap w) q;
    Done (emit (OutCosts (cost2reach qn) (projectedCost qn)
                  (cost2reach qn + projectedCost qn)) w)
  else Done w.

(** [for (i = 0; winningNode == NULL and i < tempChildren.size(); ++i)] *)
Fixpoint expand_loop (fuel : nat) (tempNode : ptr) (tempChildren : list FWDCstate)
    (w : World) : outcome World :=
  match tempChildren with
  | [] => Done w
  | s :: rest =>
      match winningNode w with
      | None =>
          w' ← process_successor fuel tempNode s w;
          expand_loop fuel tempNode rest w'
      | Some _ => Done w
      end
  end.

(** The dump of the frontier at the top of the [while] body. *)
Fixpoint dump_frontier (hp : Heap) (fr : Frontier) (w : World) : outcome World :=
  match fr with
  | [] => Done w
  | (f, p) :: rest =>
      nd ← deref hp p;
      dump_frontier hp rest
        (emit (OutFrontierEntry (state nd) (projectedCost nd) (cost2reach nd) f) w)
  end.

(** The head of the [while] body: dump the frontier, take its first
    node, erase that entry, ask the node's state for its successors. *)
Definition pop_front (w : World) : outcome (ptr * list FWDCstate * World) :=
  w1 ← dump_frontier (heap w) (frontier w) (emit OutFrontierHeader w);
  match frontier w1 with
  | [] => Fault
  | (_, tempNode) :: fr' =>
      tn ← deref (heap w1) tempNode;
      let w2 := emit (OutExpand (state tn)) w1 in
      let w3 := mkWorld (heap w2) (generated w2) fr' (winningNode w2) (output w2) in
      Done (tempNode, nextStates (state tn), w3)
  end.

(** One pass through the body of the [while] loop. *)
Definition expand_front (fuel : nat) (w : World) : outcome World :=
  '(tempNode, tempChildren, w') ← pop_front w;
  expand_loop fuel tempNode tempChildren w'.

(** [while (winningNode == NULL and !frontier.empty())] *)
Definition searching (w : World) : bool :=
  match winningNode w, frontier w with
  | None, _ :: _ => true
  | _, _ => false
  end.

(** The first [iters] passes through the [while] loop, or all of them
    when the loop ends sooner. *)
Fixpoint run_iters (iters : nat) (fuel : nat) (w : World) : outcome World :=
  match iters with
  | O => Done w
  | S iters' =>
      if searching w then
        w' ← expand_front fuel w;
        run_iters iters' fuel w'
      else Done w
  end.

(** The whole [while] loop: [iters] passes must be enough to leave it. *)
Definition search_loop (iters : nat) (fuel : nat) (w : World) : outcome World :=
  w' ← run_iters iters fuel w;
  if searching w' then OutOfFuel else Done w'.

(** The loop that prints the winning path, from [workNode] upwards. *)
Fixpoint build_outpath (fuel : nat) (hp : Heap) (workNode : option ptr) (outpath : string)
    : outcome string :=
  match workNode with
  | None => Done outpath
  | Some p =>
      match fuel with
      | O => OutOfFuel
      | S fuel' =>
          nd ← deref hp p;
          let outpath := toString (state nd) +:+ outpath in
          let outpath := match parent nd with
                         | Some _ => " -> " +:+ outpath
                         | None => outpath
                         end in
          build_outpath fuel' hp (parent nd) outpath
      end
  end.

(** The world once the start node sits in [generated] and [frontier]. *)
Definition initial_world : outcome World :=
  tempNode ← new_PSNode [] start_state None;
  Done (mkWorld [tempNode] (map_insert (state tempNode) 0%nat ∅)
          (frontier_insert 1 0%nat []) None []).

(** [main], up to the release of the nodes.  [fuel] bounds the passes of
    the [while] loop, the depth of a cost revision and the length of the
    path printed. *)
Definition main (fuel : nat) : outcome World :=
  w0 ← initial_world;
  w ← search_loop fuel fuel w0;
  match winningNode w with
  | Some _ =>
      let w := emit OutWinning w in
      outpath ← build_outpath fuel (heap w) (winningNode w) "";
      Done (emit (OutPath outpath) w)
  | None => Done (emit OutNoPath w)
  end.


(** ** Notions the properties are stated with *)

Definition goal_state : FWDCstate := mkState true true true true.

(** [reach n s t] : [n] moves, each one an element of [nextStates], lead
    from [s] to [t]. *)
Inductive reach : nat → FWDCstate → FWDCstate → Prop :=
| reach_here s : reach 0 s s
| reach_move n s t u : t ∈ nextStates s → reach n t u → reach (S n) s u.

(** The same, as a test. *)
Fixpoint reachb (n : nat) (s t : FWDCstate) : bool :=
  match n with
  | O => bool_decide (s = t)
  | S n' => existsb (fun u => reachb n' u t) (nextStates s)
  end.

(** How many of the three items changed bank between [s] and [t]. *)
Definition items_moved (s t : FWDCstate) : nat :=
  ((if bneq (WL s) (WL t) then 1 else 0) +
   (if bneq (DL s) (DL t) then 1 else 0) +
   (if bneq (CL s) (CL t) then 1 else 0))%nat.

(** One crossing of the boat: the farmer changes bank, an item that
    changes bank was on the farmer's bank and lands on the farmer's new
    bank, and at most one item does. *)
Definition single_crossing (s t : FWDCstate) : Prop :=
  FL t = negb (FL s) ∧
  (∀ item, item ∈ [WL; DL; CL] → item t ≠ item s → item s = FL s ∧ item t = FL t) ∧
  (items_moved s t ≤ 1)%nat.

(** The duck shares a bank with the wolf or with the corn only under the
    farmer's eye. *)
Definition supervised (t : FWDCstate) : Prop :=
  (DL t = WL t → FL t = DL t) ∧ (DL t = CL t → FL t = DL t).

(** Every child pointer stored in the heap is allocated. *)
Definition heap_wf (hp : Heap) : Prop :=
  ∀ i nd c, hp !! i = Some nd → c ∈ children nd → (c < length hp)%nat.

(** What a call of [updateCostCond] with offer [c] may do to one node:
    nothing, or lower its cost to a value not below [c] (and move its
    parent); state, heuristic and children stay. *)
Definition node_refines (c : Z) (nd nd' : PSNode) : Prop :=
  state nd' = state nd ∧ projectedCost nd' = projectedCost nd ∧
  children nd' = children nd ∧
  (nd' = nd ∨ c ≤ cost2reach nd' < cost2reach nd).

(** The total amount by which costs in the heap exceed [c]: the variant of
    the recursion of [updateCostCond]. *)
Definition cost_slack (c : Z) (hp : Heap) : nat :=
  sum_list ((fun nd => Z.to_nat (cost2reach nd - c)) <$> hp).

(** The node a relaxation accepted by [nd] leaves at its address. *)
Definition relaxed (nd : PSNode) (newcost : Z) (newparent : option ptr) : PSNode :=
  mkNode (state nd) newparent newcost (projectedCost nd) (children nd).

(** The frontier after the re-keying attempt of an accepted relaxation. *)
Definition rekeyed (nd : PSNode) (this : ptr) (newcost : Z) (fr : Frontier) : Frontier :=
  match frontier_erase_in_range (cost2reach nd) this fr with
  | Some fr' => frontier_insert (newcost + projectedCost nd) this fr'
  | None => fr
  end.

(** The fields of the node hold [int]s, the heuristic is not negative,
    and the cost plus the heuristic is an [int] as well. *)
Definition node_fits (nd : PSNode) : Prop :=
  is_int (cost2reach nd) ∧ 0 ≤ projectedCost nd ≤ int_max ∧
  cost2reach nd + projectedCost nd ≤ int_max.

(** What a call of [updateCostCond] with the offer [c] and the parent
    [np] may do to one node, more closely than [node_refines]: a node
    whose cost the call lowers to [c] itself gets [np] as parent. *)
Definition node_lowered (c : Z) (np : option ptr) (nd nd' : PSNode) : Prop :=
  state nd' = state nd ∧ projectedCost nd' = projectedCost nd ∧
  children nd' = children nd ∧
  (nd' = nd ∨ (c ≤ cost2reach nd' < cost2reach nd ∧ (cost2reach nd' = c → parent nd' = np))).

(** Two nodes that list each other as child, as a node and its parent do
    after both were expanded. *)
Definition mutual_pair : Heap :=
  [mkNode start_state None 5 3 [1%nat];
   mkNode (mkState true false true false) (Some 0%nat) 9 2 [0%nat]].

(** The entries of a multimap come in the order of their keys. *)
Fixpoint frontier_sorted (fr : Frontier) : Prop :=
  match fr with
  | [] => True
  | e :: rest => Forall (fun e' => e.1 ≤ e'.1) rest ∧ frontier_sorted rest
  end.

(** The generated table and the heap hold the same nodes: a state is
    bound to an address exactly when the node at that address wraps it. *)
Definition table_inv (w : World) : Prop :=
  ∀ s p, generated w !! s = Some p ↔ ∃ nd, heap w !! p = Some nd ∧ state nd = s.

(** The table against the list of states in the heap. *)
Definition table_ok (g : gmap FWDCstate ptr) (sts : list FWDCstate) : Prop :=
  ∀ s p, g !! s = Some p ↔ sts !! p = Some s.

(** The points a search passes through: the initial world, the world
    after the head of a pass, the world after the body of the inner loop
    ran for one successor of an allocated node.  [search_point fuel k w]
    counts in [k] the passes begun on the way to [w]. *)
Inductive search_point (fuel : nat) : nat → World → Prop :=
| sp_init w :
    initial_world = Done w → search_point fuel 0 w
| sp_pop k w t cs w' :
    search_point fuel k w → searching w = true →
    pop_front w = Done (t, cs, w') → search_point fuel (S k) w'
| sp_successor k w t tn s w' :
    search_point fuel k w → heap w !! t = Some tn → s ∈ nextStates (state tn) →
    winningNode w = None →
    process_successor fuel t s w = Done w' → search_point fuel k w'.

(** The nodes the path-printing loop visits from [workNode] upwards. *)
Fixpoint parent_chain (fuel : nat) (hp : Heap) (workNode : option ptr) : outcome (list ptr) :=
  match workNode with
  | None => Done []
  | Some p =>
      match fuel with
      | O => OutOfFuel
      | S fuel' =>
          nd ← deref hp p;
          rest ← parent_chain fuel' hp (parent nd);
          Done (p :: rest)
      end
  end.

(** Each node of the chain wraps a successor of the state of the next. *)
Fixpoint chain_legal (hp : Heap) (chain : list ptr) : Prop :=
  match chain with
  | [] => True
  | c :: rest =>
      match rest with
      | [] => True
      | p :: _ =>
          ∃ cn pn, hp !! c = Some cn ∧ hp !! p = Some pn ∧
                   state cn ∈ nextStates (state pn)
      end ∧ chain_legal hp rest
  end.

#[global] Instance event_eq_dec : EqDecision event.
Proof. solve_decision. Defined.

(** [pat] occurs in [evs] as a run of consecutive events. *)
Fixpoint occurs (pat evs : list event) : bool :=
  bool_decide (pat `prefix_of` evs) ||
  match evs with
  | [] => false
  | _ :: rest => occurs pat rest
  end.

(** The output says that [s] was generated, found in the table and
    offered a relaxation. *)
Definition reports_regenerated (s : FWDCstate) (evs : list event) : bool :=
  occurs [OutGenerated s; OutRegenerated; OutUpdatedF] evs ||
  occurs [OutGenerated s; OutRegenerated; OutNoUpdate] evs.




(** The world [main] has reached after [iters] passes of its loop. *)
Definition world_after (iters : nat) (fuel : nat) : outcome World :=
  w0 ← initial_world;
  run_iters iters fuel w0.


(** The sixteen states. *)
Definition all_states : list FWDCstate :=
  f ← [false; true]; w ← [false; true]; d ← [false; true]; c ← [false; true];
  [mkState f w d c].

(** *** The graph of nodes

    What the parent and child links of the heap satisfy, between two runs
    of the inner loop body and in the middle of a cost revision. *)

(** The cost of node [i] is one more than the cost of its parent. *)
Definition tight (hp : Heap) (i : ptr) : Prop :=
  match hp !! i with
  | Some nd =>
      match parent nd with
      | Some p =>
          match hp !! p with
          | Some pn => cost2reach nd = cost2reach pn + 1
          | None => True
          end
      | None => True
      end
  | None => True
  end.

(** What holds of the parent link of a node at all times, also in the
    middle of a cost revision: the parent is allocated, the node's state
    is a successor of the parent's, and the node costs at least one more
    than the parent; a node without parent is the first one, at cost 0. *)
Definition edge_ok (hp : Heap) (i : ptr) (nd : PSNode) : Prop :=
  0 ≤ cost2reach nd ∧
  match parent nd with
  | None => i = 0%nat ∧ cost2reach nd = 0
  | Some p =>
      ∃ pn, hp !! p = Some pn ∧ state nd ∈ nextStates (state pn) ∧
            cost2reach pn + 1 ≤ cost2reach nd
  end.

(** A node is among the children of its parent; [x] is the one link the
    driver has set but not yet recorded in a [children] list. *)
Definition links_ok (x : option (ptr * ptr)) (hp : Heap) : Prop :=
  ∀ i nd p pn, hp !! i = Some nd → parent nd = Some p → hp !! p = Some pn →
    i ∈ children pn ∨ x = Some (i, p).

(** A child is allocated and wraps a successor of the node's state. *)
Definition children_ok (hp : Heap) : Prop :=
  ∀ i nd c, hp !! i = Some nd → c ∈ children nd →
    ∃ cn, hp !! c = Some cn ∧ state cn ∈ nextStates (state nd).

Record graph_ok (x : option (ptr * ptr)) (hp : Heap) : Prop := mkGraphOk {
  g_root : ∃ n0, hp !! 0%nat = Some n0 ∧ state n0 = start_state ∧ parent n0 = None;
  g_edges : ∀ i nd, hp !! i = Some nd → edge_ok hp i nd;
  g_links : links_ok x hp;
  g_children : children_ok hp
}.

(** The parent of the pending link is out of reach of offers from [c] on. *)
Definition frozen (x : option (ptr * ptr)) (c : Z) (hp : Heap) : Prop :=
  ∀ xc xp, x = Some (xc, xp) → ∃ xpn, hp !! xp = Some xpn ∧ cost2reach xpn < c.

(** The offer [c] to [this] comes from a node [n] of cost [c - 1] of which
    [this] wraps a successor. *)
Definition offer_ok (x : option (ptr * ptr)) (this : ptr) (c : Z) (n : ptr) (hp : Heap) : Prop :=
  ∃ nn thisn, hp !! n = Some nn ∧ cost2reach nn + 1 = c ∧
              hp !! this = Some thisn ∧ state thisn ∈ nextStates (state nn) ∧
              (this ∈ children nn ∨ x = Some (this, n)).

(** Node [i] and its parent are the same in both heaps. *)
Definition untouched (hp hp' : Heap) (i : ptr) : Prop :=
  hp' !! i = hp !! i ∧
  ∀ nd p, hp !! i = Some nd → parent nd = Some p → hp' !! p = hp !! p.

(** Every node is tight in [hp'], but those that were loose in [hp] and
    were not touched since. *)
Definition settled (hp hp' : Heap) : Prop :=
  ∀ i, tight hp' i ∨ (untouched hp hp' i ∧ ¬ tight hp i).

(** The heap between two runs of the inner loop body. *)
Definition heap_inv (hp : Heap) : Prop :=
  graph_ok None hp ∧ ∀ i, tight hp i.

(** *** Notions for the further properties *)

(** The state read as the four-bit number FWDC, farmer first. *)
Definition state_rank (s : FWDCstate) : nat :=
  ((if FL s then 8 else 0) + (if WL s then 4 else 0) +
   (if DL s then 2 else 0) + (if CL s then 1 else 0))%nat.

(** How a node may differ between an earlier and a later point of a
    search. *)
Definition node_grows (nd nd' : PSNode) : Prop :=
  state nd' = state nd ∧ projectedCost nd' = projectedCost nd ∧
  cost2reach nd' ≤ cost2reach nd ∧ children nd `prefix_of` children nd'.

(** Every node stays where it is and grows; every binding of the table
    stays. *)
Definition world_grows (w w' : World) : Prop :=
  (∀ i nd, heap w !! i = Some nd → ∃ nd', heap w' !! i = Some nd' ∧ node_grows nd nd') ∧
  generated w ⊆ generated w'.

(** The frontier holds each node at most once, and allocated nodes only. *)
Definition frontier_ok (hp : Heap) (fr : Frontier) : Prop :=
  NoDup fr.*2 ∧ ∀ p, p ∈ fr.*2 → (p < length hp)%nat.

(** Every entry of the frontier is keyed above the cost of its node. *)
Definition keys_above (hp : Heap) (fr : Frontier) : Prop :=
  ∀ k p, (k, p) ∈ fr → ∃ nd, hp !! p = Some nd ∧ cost2reach nd < k.

(** The states joined by arrows, as the program prints a path. *)
Fixpoint path_string (sts : list FWDCstate) : string :=
  match sts with
  | [] => EmptyString
  | s :: rest =>
      match rest with
      | [] => toString s
      | _ :: _ => toString s +:+ " -> " +:+ path_string rest
      end
  end.

(** The states that the nodes of a chain wrap. *)
Definition chain_states (hp : Heap) (chain : list ptr) : list FWDCstate :=
  omap (fun p => state <$> hp !! p) chain.

(** The pointers that the last loop of [main] deletes (lines 276-278), in
    the order in which the iteration over [generated] meets their keys. *)
Definition release_order (g : gmap FWDCstate ptr) : list ptr :=
  omap (fun s => g !! s) all_states.

(** ** The puzzle: successors and heuristic *)

Ltac each_state s := destruct s as [[] [] [] []].

Ltac each_successor H :=
  vm_compute in H; apply list_elem_of_In in H; simpl in H;
  repeat match type of H with
         | _ ∨ _ => destruct H as [H | H]
         | False => destruct H
         | _ = _ => subst
         end.

Ltac each_pair a b := destruct a as [[] [] [] []], b as [[] [] [] []].

(** [operator!=] and [operator==] decide equality of states. *)
Lemma state_neq_spec (a b : FWDCstate) : state_neq a b = true ↔ a ≠ b.
Proof. each_pair a b; vm_compute; split; congruence. Qed.

Lemma state_eq_spec (a b : FWDCstate) : state_eq a b = true ↔ a = b.
Proof. each_pair a b; vm_compute; split; congruence. Qed.

(** Two keys that [operator<] does not order are the same state, and
    [operator<] orders no state before itself: the keys of the
    [std::map] are the states themselves, as in a [gmap]. *)
Lemma state_lt_equiv (a b : FWDCstate) :
  state_lt a b = false ∧ state_lt b a = false ↔ a = b.
Proof.
  each_pair a b; vm_compute;
    (split; [intros [? ?]; first [reflexivity | discriminate]
            | intros ?; first [split; reflexivity | discriminate]]).
Qed.

Lemma isWinning_goal (s : FWDCstate) : isWinning s = true ↔ s = goal_state.
Proof. each_state s; vm_compute; split; intros; try reflexivity; congruence. Qed.

Lemma reachb_spec (n : nat) (s t : FWDCstate) : reachb n s t = true ↔ reach n s t.
Proof.
  revert s; induction n as [|n IH]; intros s; simpl.
  - rewrite bool_decide_eq_true. split.
    + intros ->. constructor.
    + inversion 1; reflexivity.
  - rewrite existsb_exists. split.
    + intros (u & Hu & Hr). apply list_elem_of_In in Hu. apply IH in Hr.
      econstructor; eassumption.
    + inversion 1; subst. exists t0. split.
      * apply list_elem_of_In; assumption.
      * apply IH; assumption.
Qed.

Lemma nextStates_flips_farmer (s t : FWDCstate) :
  t ∈ nextStates s → FL t = negb (FL s).
Proof. intros H. each_state s; each_successor H; reflexivity. Qed.

Lemma nextStates_reversible (s t : FWDCstate) :
  t ∈ nextStates s → s ∈ nextStates t.
Proof.
  intros H. each_state s; each_successor H; vm_compute;
    apply list_elem_of_In; simpl; tauto.
Qed.

(** A move changes the heuristic by at most one. *)
Lemma h_consistent (s t : FWDCstate) : t ∈ nextStates s → h s ≤ h t + 1.
Proof. intros H. each_state s; each_successor H; vm_compute; congruence. Qed.

(** C5: every successor is one crossing that leaves the duck supervised. *)
Theorem nextStates_legal (s t : FWDCstate) :
  t ∈ nextStates s → single_crossing s t ∧ supervised t.
Proof.
  intros H. each_state s; each_successor H.
  all: split; [split; [reflexivity | split] | split].
  all: try (intros item Hi Hne; apply list_elem_of_In in Hi; simpl in Hi;
            destruct Hi as [<- | [<- | [<- | []]]]; simpl in *; auto; congruence).
  all: try (vm_compute; lia).
  all: simpl; congruence.
Qed.

Lemma nextStates_legal_witness :
  mkState true false true false ∈ nextStates start_state ∧
  single_crossing start_state (mkState true false true false) ∧
  supervised (mkState true false true false).
Proof.
  assert (H : mkState true false true false ∈ nextStates start_state)
    by (vm_compute; apply list_elem_of_here).
  split; [exact H | exact (nextStates_legal _ _ H)].
Defined.

Lemma h_nonneg (s : FWDCstate) : 0 ≤ h s.
Proof. each_state s; vm_compute; congruence. Qed.

Lemma h_goal (s : FWDCstate) : isWinning s = true → h s = 0.
Proof. each_state s; vm_compute; congruence. Qed.

(** C6: [h] is never negative and never exceeds the number of moves of
    any sequence of legal moves that ends in the goal, so it is at most
    the minimum number of moves to the goal. *)
Theorem h_admissible (s : FWDCstate) :
  0 ≤ h s ∧
  ∀ n t, reach n s t → isWinning t = true → h s ≤ Z.of_nat n.
Proof.
  split; [apply h_nonneg|].
  intros n t Hr. induction Hr as [s | n s u t Hstep Hr IH]; intros Hwin.
  - rewrite (h_goal _ Hwin). lia.
  - specialize (IH Hwin). apply h_consistent in Hstep. lia.
Qed.

Lemma h_admissible_witness :
  reach 1 (mkState false true false true) goal_state ∧
  h (mkState false true false true) ≤ 1.
Proof.
  assert (Hr : reach 1 (mkState false true false true) goal_state)
    by (apply reachb_spec; vm_compute; reflexivity).
  split; [exact Hr|].
  exact (proj2 (h_admissible (mkState false true false true)) 1%nat goal_state Hr eq_refl).
Defined.

(** ** Cost revision: [updateCostCond] *)

Lemma node_refines_refl (c : Z) (nd : PSNode) : node_refines c nd nd.
Proof. unfold node_refines; auto. Qed.

Lemma node_refines_trans (c c' : Z) (a b d : PSNode) :
  c ≤ c' → node_refines c a b → node_refines c' b d → node_refines c a d.
Proof.
  intros Hc (Hs1 & Hp1 & Hc1 & H1) (Hs2 & Hp2 & Hc2 & H2).
  repeat split; try congruence.
  destruct H1 as [-> | H1], H2 as [-> | H2]; auto; right; lia.
Qed.

Lemma heap_refines_refl (c : Z) (hp : Heap) : Forall2 (node_refines c) hp hp.
Proof. apply Forall_Forall2_diag, Forall_forall. intros; apply node_refines_refl. Qed.

Lemma heap_refines_trans (c c' : Z) (hp1 hp2 hp3 : Heap) :
  c ≤ c' → Forall2 (node_refines c) hp1 hp2 → Forall2 (node_refines c') hp2 hp3 →
  Forall2 (node_refines c) hp1 hp3.
Proof.
  intros Hc H12. revert hp3. induction H12; inversion 1; subst; constructor; eauto.
  eapply node_refines_trans; eauto.
Qed.

Lemma heap_refines_relax (hp : Heap) (this : ptr) (nd : PSNode) (c : Z) (np : option ptr) :
  hp !! this = Some nd → c < cost2reach nd →
  Forall2 (node_refines c) hp (<[this := relaxed nd c np]> hp).
Proof.
  intros Hnd Hlt. rewrite <- (list_insert_id hp this nd Hnd) at 1.
  apply Forall2_insert; [apply heap_refines_refl|].
  unfold node_refines, relaxed; simpl. repeat split; auto. right; lia.
Qed.

(** The loop over the children inherits what holds of each call. *)
Lemma offer_to_children_refines (rec : ptr → Store → outcome (Store * bool)) (c : Z) :
  (∀ x st r, rec x st = Done r → Forall2 (node_refines c) st.1 r.1.1) →
  ∀ cs st st', offer_to_children rec cs st = Done st' →
    Forall2 (node_refines c) st.1 st'.1.
Proof.
  intros Hrec cs; induction cs as [|x cs IH]; intros st st' H; simpl in H.
  - inversion H; subst. apply heap_refines_refl.
  - destruct (rec x st) as [[st1 b]| |] eqn:E; simpl in H; try discriminate.
    apply Hrec in E; simpl in E. apply IH in H.
    eapply heap_refines_trans; [reflexivity | apply E | apply H].
Qed.

(** Whatever a call returns, it only lowered costs, to values not below
    its offer, and it left states, heuristics and children alone. *)
Lemma updateCostCond_refines (fuel : nat) :
  ∀ this c np st r, updateCostCond fuel this c np st = Done r →
    Forall2 (node_refines c) st.1 r.1.1.
Proof.
  induction fuel as [|fuel IH]; intros this c np [hp fr] r H; simpl in H; [discriminate|].
  unfold deref in H. destruct (hp !! this) as [nd|] eqn:Hnd; simpl in H; [|discriminate].
  destruct (c <? cost2reach nd) eqn:Hlt.
  - apply Z.ltb_lt in Hlt.
    match type of H with
    | context [offer_to_children ?f ?cs ?s] =>
        destruct (offer_to_children f cs s) as [st'| |] eqn:E
    end; simpl in H; try discriminate.
    inversion H; subst; simpl.
    apply offer_to_children_refines with (c := c + 1) in E; [|intros; eapply IH; eassumption].
    simpl in E.
    eapply heap_refines_trans; [| apply (heap_refines_relax hp this nd c np Hnd Hlt) | apply E].
    lia.
  - inversion H; subst; simpl. apply heap_refines_refl.
Qed.

(** More fuel does not change a result. *)
Lemma offer_to_children_mono (rec1 rec2 : ptr → Store → outcome (Store * bool)) :
  (∀ x st r, rec1 x st = Done r → rec2 x st = Done r) →
  ∀ cs st st', offer_to_children rec1 cs st = Done st' →
    offer_to_children rec2 cs st = Done st'.
Proof.
  intros Hrec cs; induction cs as [|x cs IH]; intros st st' H; simpl in *; [assumption|].
  destruct (rec1 x st) as [[st1 b]| |] eqn:E; simpl in H; try discriminate.
  rewrite (Hrec _ _ _ E); simpl. apply IH, H.
Qed.

Lemma updateCostCond_fuel_mono (fuel : nat) :
  ∀ fuel' this c np st r, (fuel ≤ fuel')%nat →
    updateCostCond fuel this c np st = Done r →
    updateCostCond fuel' this c np st = Done r.
Proof.
  induction fuel as [|fuel IH]; intros fuel' this c np [hp fr] r Hle H; simpl in H;
    [discriminate|].
  destruct fuel' as [|fuel']; [lia|]. simpl.
  destruct (deref hp this) as [nd| |]; simpl in *; try discriminate.
  destruct (c <? cost2reach nd); [|assumption].
  match type of H with
  | context [offer_to_children ?f ?cs ?s] =>
      destruct (offer_to_children f cs s) as [st'| |] eqn:E
  end; simpl in H; try discriminate.
  erewrite offer_to_children_mono; [exact H | | exact E].
  intros x st r0. apply IH. lia.
Qed.

Lemma slack_term_mono (a c c' : Z) :
  c ≤ c' → (Z.to_nat (a - c') ≤ Z.to_nat (a - c))%nat.
Proof. lia. Qed.

Lemma cost_slack_cons (c : Z) (x : PSNode) (hp : Heap) :
  cost_slack c (x :: hp) = (Z.to_nat (cost2reach x - c) + cost_slack c hp)%nat.
Proof. reflexivity. Qed.

Lemma cost_slack_level_mono (c c' : Z) (hp : Heap) :
  c ≤ c' → (cost_slack c' hp ≤ cost_slack c hp)%nat.
Proof.
  intros Hc. induction hp as [|x hp IH]; [reflexivity|].
  rewrite !cost_slack_cons. apply Nat.add_le_mono; [apply slack_term_mono|]; assumption.
Qed.

Lemma cost_slack_refines (c0 c : Z) (hp hp' : Heap) :
  Forall2 (node_refines c0) hp hp' → (cost_slack c hp' ≤ cost_slack c hp)%nat.
Proof.
  induction 1 as [|x y hp hp' Hxy _ IH]; [reflexivity|].
  rewrite !cost_slack_cons. apply Nat.add_le_mono; [|assumption].
  destruct Hxy as (_ & _ & _ & [-> | Hlt]); lia.
Qed.

(** An accepted offer pays for the deeper calls. *)
Lemma cost_slack_relax (c : Z) (np : option ptr) (hp : Heap) :
  ∀ this nd, hp !! this = Some nd → c < cost2reach nd →
    (cost_slack (c + 1) (<[this := relaxed nd c np]> hp) < cost_slack c hp)%nat.
Proof.
  induction hp as [|x hp IH]; intros this nd Hnd Hlt; [discriminate|].
  destruct this as [|this]; simpl in Hnd |- *; rewrite !cost_slack_cons.
  - inversion Hnd; subst. simpl.
    pose proof (cost_slack_level_mono c (c + 1) hp ltac:(lia)) as Hm.
    assert (Z.to_nat (c - (c + 1)) = 0%nat) as -> by lia.
    assert (1 ≤ Z.to_nat (cost2reach nd - c))%nat by lia.
    revert Hm. generalize (cost_slack (c + 1) hp) (cost_slack c hp). lia.
  - apply Nat.add_le_lt_mono; [apply slack_term_mono; lia | apply IH; assumption].
Qed.

Lemma heap_wf_refines (c : Z) (hp hp' : Heap) :
  Forall2 (node_refines c) hp hp' → heap_wf hp → heap_wf hp'.
Proof.
  intros Href Hwf i nd' x Hnd' Hx.
  destruct (Forall2_lookup_r _ _ _ _ _ Href Hnd') as (nd & Hnd & _ & _ & Hch & _).
  rewrite <- (Forall2_length _ _ _ Href). rewrite Hch in Hx. eauto.
Qed.

(** The recursion ends: fuel above the slack of the heap is enough. *)
Lemma updateCostCond_terminates (fuel : nat) :
  ∀ this c np hp fr,
    heap_wf hp → (this < length hp)%nat → (cost_slack c hp < fuel)%nat →
    ∃ r, updateCostCond fuel this c np (hp, fr) = Done r.
Proof.
  induction fuel as [|fuel IH]; intros this c np hp fr Hwf Hthis Hfuel; [lia|].
  simpl. unfold deref.
  destruct (lookup_lt_is_Some_2 hp this Hthis) as [nd Hnd]. rewrite Hnd; simpl.
  destruct (c <? cost2reach nd) eqn:Hlt; [|eauto].
  apply Z.ltb_lt in Hlt.
  pose proof (cost_slack_relax c np hp this nd Hnd Hlt) as Hslack.
  pose proof (heap_refines_relax hp this nd c np Hnd Hlt) as Href.
  fold (relaxed nd c np). fold (rekeyed nd this c fr).
  assert (Hloop : ∀ cs st,
            Forall (fun x => x < length st.1)%nat cs → heap_wf st.1 →
            (cost_slack (c + 1) st.1 < fuel)%nat →
            ∃ st', offer_to_children
                     (fun x s => updateCostCond fuel x (c + 1) (Some this) s) cs st
                   = Done st').
  { induction cs as [|x cs IHcs]; intros [hp0 fr0] Hcs Hwf0 Hs0; simpl in *; [eauto|].
    inversion Hcs; subst.
    destruct (IH x (c + 1) (Some this) hp0 fr0) as [r Hr]; auto.
    rewrite Hr; simpl. destruct r as [[hp1 fr1] b]; simpl.
    pose proof (updateCostCond_refines _ _ _ _ _ _ Hr) as Hr01; simpl in Hr01.
    apply IHcs; simpl.
    - rewrite <- (Forall2_length _ _ _ Hr01). assumption.
    - eapply heap_wf_refines; eassumption.
    - pose proof (cost_slack_refines (c + 1) (c + 1) _ _ Hr01). lia. }
  destruct (Hloop (children nd) (<[this := relaxed nd c np]> hp, rekeyed nd this c fr))
    as [st' Hst']; simpl.
  - apply Forall_forall. intros x Hx. rewrite length_insert. eapply Hwf; eassumption.
  - eapply heap_wf_refines; eassumption.
  - lia.
  - rewrite Hst'; simpl; eauto.
Qed.

(** A test for [heap_wf]. *)
Lemma heap_wf_check (hp : Heap) :
  forallb (fun nd => forallb (fun c => c <? length hp)%nat (children nd)) hp = true →
  heap_wf hp.
Proof.
  intros H i nd c Hnd Hc.
  rewrite forallb_forall in H.
  specialize (H nd ltac:(apply list_elem_of_In; eapply list_elem_of_lookup_2; eassumption)).
  rewrite forallb_forall in H.
  apply Nat.ltb_lt, H, list_elem_of_In, Hc.
Qed.

(** ** The driver: more fuel does not change a result *)

Lemma process_successor_fuel_mono (fuel fuel' : nat) (t : ptr) (s : FWDCstate) (w w' : World) :
  (fuel ≤ fuel')%nat →
  process_successor fuel t s w = Done w' → process_successor fuel' t s w = Done w'.
Proof.
  intros Hle H. unfold process_successor in *.
  destruct (deref (heap w) t) as [tn| |]; simpl in *; try discriminate.
  destruct (state_neq s (state tn)); [|assumption].
  destruct (generated w !! s) as [q|]; [|assumption].
  simpl in *.
  match type of H with
  | context [updateCostCond fuel ?a ?b ?c ?d] =>
      destruct (updateCostCond fuel a b c d) as [r| |] eqn:E; simpl in H; try discriminate;
      rewrite (updateCostCond_fuel_mono fuel fuel' a b c d r Hle E)
  end.
  exact H.
Qed.

Lemma expand_loop_fuel_mono (fuel fuel' : nat) (t : ptr) (cs : list FWDCstate) :
  (fuel ≤ fuel')%nat →
  ∀ w w', expand_loop fuel t cs w = Done w' → expand_loop fuel' t cs w = Done w'.
Proof.
  intros Hle. induction cs as [|s cs IH]; intros w w' H; simpl in *; [assumption|].
  destruct (winningNode w); [assumption|].
  destruct (process_successor fuel t s w) as [w1| |] eqn:E; simpl in H; try discriminate.
  rewrite (process_successor_fuel_mono _ _ _ _ _ _ Hle E); simpl. apply IH, H.
Qed.

Lemma expand_front_fuel_mono (fuel fuel' : nat) (w w' : World) :
  (fuel ≤ fuel')%nat →
  expand_front fuel w = Done w' → expand_front fuel' w = Done w'.
Proof.
  intros Hle H. unfold expand_front in *.
  destruct (pop_front w) as [[[t cs] w1]| |]; simpl in *; try discriminate.
  eapply expand_loop_fuel_mono; eassumption.
Qed.

Lemma run_iters_fuel_mono (fuel fuel' : nat) (iters : nat) :
  (fuel ≤ fuel')%nat →
  ∀ w w', run_iters iters fuel w = Done w' → run_iters iters fuel' w = Done w'.
Proof.
  intros Hle. induction iters as [|k IH]; intros w w' H; simpl in *; [assumption|].
  destruct (searching w); [|assumption].
  destruct (expand_front fuel w) as [w1| |] eqn:E; simpl in H; try discriminate.
  rewrite (expand_front_fuel_mono _ _ _ _ Hle E); simpl. apply IH, H.
Qed.

(** Once the loop has ended, further passes do nothing. *)
Lemma run_iters_ended (iters fuel : nat) (w : World) :
  searching w = false → run_iters iters fuel w = Done w.
Proof. intros H. destruct iters; simpl; [|rewrite H]; reflexivity. Qed.

Lemma run_iters_more (iters iters' fuel : nat) :
  (iters ≤ iters')%nat →
  ∀ w w', run_iters iters fuel w = Done w' → searching w' = false →
    run_iters iters' fuel w = Done w'.
Proof.
  revert iters'. induction iters as [|k IH]; intros iters' Hle w w' H Hend; simpl in H.
  - inversion H; subst. apply run_iters_ended, Hend.
  - destruct iters' as [|k']; [lia|]. simpl.
    destruct (searching w) eqn:Hs.
    + destruct (expand_front fuel w) as [w1| |]; simpl in *; try discriminate.
      apply IH; [lia | assumption | assumption].
    + assumption.
Qed.

Lemma search_loop_mono (iters iters' fuel fuel' : nat) (w w' : World) :
  (iters ≤ iters')%nat → (fuel ≤ fuel')%nat →
  search_loop iters fuel w = Done w' → search_loop iters' fuel' w = Done w'.
Proof.
  intros Hi Hf H. unfold search_loop in *.
  destruct (run_iters iters fuel w) as [w1| |] eqn:E; simpl in H; try discriminate.
  destruct (searching w1) eqn:Hs; [discriminate|]. inversion H; subst.
  erewrite run_iters_more; [| eassumption | eapply run_iters_fuel_mono; eassumption | assumption].
  simpl. rewrite Hs. reflexivity.
Qed.

Lemma build_outpath_fuel_mono (fuel : nat) :
  ∀ fuel' hp workNode outpath r, (fuel ≤ fuel')%nat →
    build_outpath fuel hp workNode outpath = Done r →
    build_outpath fuel' hp workNode outpath = Done r.
Proof.
  induction fuel as [|fuel IH]; intros fuel' hp [p|] outpath r Hle H; simpl in H;
    try discriminate.
  - destruct fuel'; assumption.
  - destruct fuel' as [|fuel']; [lia|]. simpl.
    destruct (deref hp p) as [nd| |]; simpl in *; try discriminate.
    apply IH; [lia | assumption].
  - destruct fuel'; assumption.
Qed.

Lemma main_fuel_mono (fuel fuel' : nat) (w : World) :
  (fuel ≤ fuel')%nat → main fuel = Done w → main fuel' = Done w.
Proof.
  intros Hle H. unfold main in *.
  destruct initial_world as [w0| |]; simpl in *; try discriminate.
  destruct (search_loop fuel fuel w0) as [w1| |] eqn:E; simpl in H; try discriminate.
  rewrite (search_loop_mono _ _ _ _ _ _ Hle Hle E); simpl.
  destruct (winningNode w1) as [g|] eqn:Hg; [|assumption].
  match type of H with
  | context [build_outpath fuel ?a ?b ?c] =>
      destruct (build_outpath fuel a b c) as [r| |] eqn:Ep; simpl in H; try discriminate;
      rewrite (build_outpath_fuel_mono fuel fuel' a b c r Hle Ep)
  end.
  exact H.
Qed.

(** ** The run of [main] *)


Lemma seven_moves_needed (n : nat) : reach n start_state goal_state → (7 ≤ n)%nat.
Proof.
  intros Hr. apply reachb_spec in Hr.
  do 7 (destruct n as [|n]; [vm_compute in Hr; discriminate|]). lia.
Qed.

(** What [main] computes with the least fuel that suffices. *)
Lemma main_solves_in_seven_run :
  ∃ w, main 9 = Done w ∧
    winningNode w = Some 9%nat ∧
    heap w !! 9%nat = Some (mkNode goal_state (Some 8%nat) 7 0 []) ∧
    parent_chain 9 (heap w) (Some 9%nat) = Done [9; 8; 7; 5; 3; 2; 1; 0]%nat ∧
    last (output w) = Some (OutPath
      "[||FWDC] -> [FD||WC] -> [D||FWC] -> [FWD||C] -> [W||FDC] -> [FWC||D] -> [WC||FD] -> [FWDC||]").
Proof.
  eexists. split; [vm_compute; reflexivity|]. repeat split; vm_compute; reflexivity.
Qed.

Lemma parent_chain_fuel_mono (fuel : nat) :
  ∀ fuel' hp workNode r, (fuel ≤ fuel')%nat →
    parent_chain fuel hp workNode = Done r → parent_chain fuel' hp workNode = Done r.
Proof.
  induction fuel as [|a IH]; intros b hp0 [p|] r Hle H; simpl in H; try discriminate.
  - destruct b; assumption.
  - destruct b as [|b]; [lia|]. simpl.
    destruct (deref hp0 p) as [nd| |]; simpl in *; try discriminate.
    destruct (parent_chain a hp0 (parent nd)) as [rest| |] eqn:E; simpl in H;
      try discriminate.
    rewrite (IH b hp0 (parent nd) rest ltac:(lia) E). exact H.
  - destruct b; assumption.
Qed.

(** C1: the run ends with a winning node that wraps the state with all
    four on the left bank, at cost 7; the path printed has seven moves,
    seven legal moves do lead from the start to the goal, and no shorter
    sequence of legal moves does. *)
Theorem main_solves_in_seven (fuel : nat) :
  (9 ≤ fuel)%nat →
  ∃ w g gn,
    main fuel = Done w ∧
    winningNode w = Some g ∧ heap w !! g = Some gn ∧
    state gn = goal_state ∧ cost2reach gn = 7 ∧
    parent_chain fuel (heap w) (Some g) = Done [9; 8; 7; 5; 3; 2; 1; 0]%nat ∧
    last (output w) = Some (OutPath
      "[||FWDC] -> [FD||WC] -> [D||FWC] -> [FWD||C] -> [W||FDC] -> [FWC||D] -> [WC||FD] -> [FWDC||]") ∧
    reach 7 start_state goal_state ∧
    ∀ n, reach n start_state goal_state → (7 ≤ n)%nat.
Proof.
  intros Hfuel.
  destruct main_solves_in_seven_run as (w & Hmain & Hwin & Hg & Hchain & Hout).
  exists w, 9%nat, (mkNode goal_state (Some 8%nat) 7 0 []).
  split; [eapply main_fuel_mono; eassumption|].
  repeat (split; [first [assumption | reflexivity]|]).
  split; [eapply parent_chain_fuel_mono; eassumption|].
  split; [assumption|]. split.
  - apply reachb_spec. vm_compute. reflexivity.
  - apply seven_moves_needed.
Qed.

Lemma main_solves_in_seven_witness :
  ∃ w g gn,
    main 12 = Done w ∧
    winningNode w = Some g ∧ heap w !! g = Some gn ∧
    state gn = goal_state ∧ cost2reach gn = 7 ∧
    parent_chain 12 (heap w) (Some g) = Done [9; 8; 7; 5; 3; 2; 1; 0]%nat ∧
    last (output w) = Some (OutPath
      "[||FWDC] -> [FD||WC] -> [D||FWC] -> [FWD||C] -> [W||FDC] -> [FWC||D] -> [WC||FD] -> [FWDC||]") ∧
    reach 7 start_state goal_state ∧
    ∀ n, reach n start_state goal_state → (7 ≤ n)%nat.
Proof. apply (main_solves_in_seven 12). lia. Defined.


(** The loop of [main] makes nine passes. *)
Lemma nine_passes :
  ∃ w, world_after 9 1 = Done w ∧ searching w = false ∧ winningNode w = Some 9%nat.
Proof. eexists. split; [vm_compute; reflexivity|]. split; reflexivity. Qed.






(** C2 (the code departs from it): the start node enters the frontier
    keyed at the constant 1 while its cost plus heuristic is 3, and the
    first dump of the frontier says so (h=3 g=0 f=1); and an accepted
    relaxation looks for the node's entry under the key [cost2reach], not
    [cost2reach + projectedCost], so an entry keyed at 7 for a node of
    cost 5 and heuristic 2 stays keyed at 7 when the cost drops to 3.
    The run of [main] never accepts a relaxation, so only the first slip
    shows in it. *)
Theorem frontier_keys_are_not_f :
  (∃ w nd, initial_world = Done w ∧ frontier w = [(1, 0%nat)] ∧
           heap w !! 0%nat = Some nd ∧ cost2reach nd + projectedCost nd = 3) ∧
  (∃ w, main 9 = Done w ∧
        take 2 (output w) = [OutFrontierHeader; OutFrontierEntry start_state 3 0 1] ∧
        OutUpdatedF ∉ output w) ∧
  updateCostCond 1 0 3 None
    ([mkNode (mkState true false true false) None 5 2 []], [(7, 0%nat)])
  = Done ([mkNode (mkState true false true false) None 3 2 []], [(7, 0%nat)], true).
Proof.
  split; [|split; [|reflexivity]].
  - eexists _, _. split; [vm_compute; reflexivity|]. repeat split; reflexivity.
  - eexists. split; [vm_compute; reflexivity|]. split; [reflexivity|].
    apply (bool_decide_unpack _). vm_compute. exact I.
Qed.

(** ** One node per state *)

Lemma deref_Done (hp : Heap) (p : ptr) (nd : PSNode) :
  deref hp p = Done nd ↔ hp !! p = Some nd.
Proof. unfold deref. destruct (hp !! p); split; congruence. Qed.

Lemma dump_frontier_frame (hp : Heap) (fr : Frontier) :
  ∀ w w', dump_frontier hp fr w = Done w' →
    heap w' = heap w ∧ generated w' = generated w ∧ frontier w' = frontier w ∧
    winningNode w' = winningNode w.
Proof.
  induction fr as [|[f p] fr IH]; intros w w' H; simpl in H.
  - inversion H; subst; auto.
  - destruct (deref hp p) as [nd| |]; simpl in H; try discriminate.
    apply IH in H. simpl in H. exact H.
Qed.

Lemma pop_front_frame (w w' : World) (t : ptr) (cs : list FWDCstate) :
  pop_front w = Done (t, cs, w') →
  heap w' = heap w ∧ generated w' = generated w ∧ winningNode w' = winningNode w ∧
  (∃ f, frontier w = (f, t) :: frontier w') ∧
  ∃ tn, heap w !! t = Some tn ∧ cs = nextStates (state tn).
Proof.
  unfold pop_front. intros H.
  destruct (dump_frontier (heap w) (frontier w) (emit OutFrontierHeader w)) as [w1| |] eqn:E;
    simpl in H; try discriminate.
  apply dump_frontier_frame in E. simpl in E. destruct E as (Hh & Hg & Hf & Hw).
  destruct (frontier w1) as [|[f t0] fr'] eqn:Hfr; [discriminate|].
  unfold deref in H. destruct (heap w1 !! t0) as [tn|] eqn:Ht; simpl in H; [|discriminate].
  inversion H; subst; simpl. rewrite <- Hh, <- Hf. eauto 10.
Qed.

Lemma heap_refines_states (c : Z) (hp hp' : Heap) :
  Forall2 (node_refines c) hp hp' → state <$> hp' = state <$> hp.
Proof.
  induction 1 as [|x y hp hp' Hxy _ IH]; [reflexivity|].
  simpl. f_equal; [apply Hxy | apply IH].
Qed.

Lemma states_insert_same (hp : Heap) (i : ptr) (nd nd' : PSNode) :
  hp !! i = Some nd → state nd' = state nd → state <$> <[i := nd']> hp = state <$> hp.
Proof.
  intros Hnd Hst. rewrite list_fmap_insert, Hst.
  apply list_insert_id. rewrite list_lookup_fmap, Hnd. reflexivity.
Qed.

(** The three ways through the body of the inner loop: the state is
    filtered out, or it is bound already and its node is offered a
    relaxation, or a node is allocated for it; either way but the first
    the node ends up among the children of the expanded node. *)
Lemma process_successor_cases (fuel : nat) (t : ptr) (s : FWDCstate) (w w' : World) :
  process_successor fuel t s w = Done w' →
  ∃ tn, heap w !! t = Some tn ∧
    ((state tn = s ∧ w' = w) ∨
     (s ≠ state tn ∧ ∃ q hp1 fr1 b tn1,
        generated w !! s = Some q ∧
        updateCostCond fuel q (cost2reach tn + 1) (Some t) (heap w, frontier w)
        = Done (hp1, fr1, b) ∧
        hp1 !! t = Some tn1 ∧
        heap w' = <[t := push_child tn1 q]> hp1 ∧
        generated w' = generated w ∧ frontier w' = fr1 ∧
        winningNode w' = winningNode w) ∨
     (s ≠ state tn ∧ generated w !! s = None ∧
        heap w' = <[t := push_child tn (length (heap w))]>
                    (heap w ++ [mkNode s (Some t) (cost2reach tn + 1) (h s) []]) ∧
        generated w' = <[s := length (heap w)]> (generated w) ∧
        frontier w' = frontier_insert (cost2reach tn + 1 + h s) (length (heap w)) (frontier w) ∧
        winningNode w' = if isWinning s then Some (length (heap w)) else winningNode w)).
Proof.
  unfold process_successor. intros H.
  destruct (deref (heap w) t) as [tn| |] eqn:Htn; simpl in H; try discriminate.
  apply deref_Done in Htn. exists tn. split; [assumption|].
  destruct (state_neq s (state tn)) eqn:Hneq.
  2:{ left. inversion H; subst. split; [|reflexivity].
      destruct (decide (state tn = s)) as [|Hne]; [assumption|].
      assert (s ≠ state tn) as Hne' by congruence.
      apply state_neq_spec in Hne'. congruence. }
  apply state_neq_spec in Hneq. right.
  destruct (generated w !! s) as [q|] eqn:Hq; simpl in H.
  - left. split; [assumption|].
    match type of H with
    | context [updateCostCond fuel ?a ?b ?c ?d] =>
        destruct (updateCostCond fuel a b c d) as [[[hp1 fr1] b1]| |] eqn:E
    end; simpl in H; try discriminate.
    unfold map_at in H. simpl in H. rewrite Hq in H. simpl in H.
    destruct (deref hp1 t) as [tn1| |] eqn:Ht1; simpl in H; try discriminate.
    apply deref_Done in Ht1.
    match type of H with
    | context [deref ?l q] => destruct (deref l q)
    end; simpl in H; try discriminate.
    inversion H; subst; simpl.
    exists q, hp1, fr1, b1, tn1. repeat split; assumption.
  - right. split; [assumption|]. split; [reflexivity|].
    unfold new_PSNode in H. simpl in H.
    assert (Hd : deref (heap w) t = Done tn) by (apply deref_Done; assumption).
    rewrite Hd in H. simpl in H.
    unfold map_insert, map_at in H. simpl in H. rewrite Hq in H.
    assert (Hd' : ∀ nd, deref (heap w ++ [nd]) t = Done tn)
      by (intros nd; apply deref_Done, lookup_app_l_Some; assumption).
    destruct (isWinning s); simpl in H.
    + rewrite lookup_insert_eq in H. simpl in H. rewrite Hd' in H. simpl in H.
      match type of H with
      | context [deref ?l (length (heap w))] => destruct (deref l (length (heap w)))
      end; simpl in H; try discriminate.
      inversion H; subst; simpl. repeat split; reflexivity.
    + rewrite lookup_insert_eq in H. simpl in H. rewrite Hd' in H. simpl in H.
      match type of H with
      | context [deref ?l (length (heap w))] => destruct (deref l (length (heap w)))
      end; simpl in H; try discriminate.
      inversion H; subst; simpl. repeat split; reflexivity.
Qed.

(** What the body of the inner loop does to the table and to the states
    in the heap: nothing when the state is bound already (or filtered),
    one new binding and one new node otherwise. *)
Lemma process_successor_table (fuel : nat) (t : ptr) (s : FWDCstate) (w w' : World) :
  process_successor fuel t s w = Done w' →
  (generated w' = generated w ∧ state <$> heap w' = state <$> heap w ∧
   (is_Some (generated w !! s) ∨
    w' = w ∧ ∃ tn, heap w !! t = Some tn ∧ state tn = s)) ∨
  (generated w !! s = None ∧
   generated w' = <[s := length (heap w)]> (generated w) ∧
   state <$> heap w' = (state <$> heap w) ++ [s]).
Proof.
  intros H. apply process_successor_cases in H. destruct H as (tn & Htn & Hcases).
  destruct Hcases as [[Hs ->] | [(_ & q & hp1 & fr1 & b & tn1 & Hq & Hupd & Ht1 & Hh & Hg & _)
                                 | (_ & Hnone & Hh & Hg & _)]].
  - left. eauto 10.
  - left. split; [assumption|]. split; [|eauto].
    apply updateCostCond_refines, heap_refines_states in Hupd. simpl in Hupd.
    rewrite Hh, <- Hupd. eapply states_insert_same; [eassumption | reflexivity].
  - right. split; [assumption|]. split; [assumption|].
    rewrite Hh. erewrite states_insert_same;
      [rewrite fmap_app; reflexivity | apply lookup_app_l_Some; eassumption | reflexivity].
Qed.

Lemma table_inv_states (w : World) :
  table_inv w ↔ table_ok (generated w) (state <$> heap w).
Proof.
  unfold table_inv, table_ok.
  split; intros H s p; specialize (H s p);
    rewrite list_lookup_fmap, fmap_Some in *; rewrite H;
    split; intros (nd & ? & ?); exists nd; auto.
Qed.

Lemma table_ok_extend (g : gmap FWDCstate ptr) (sts : list FWDCstate) (s : FWDCstate) :
  table_ok g sts → g !! s = None → table_ok (<[s := length sts]> g) (sts ++ [s]).
Proof.
  intros Hok Hnone s' p. destruct (decide (s = s')) as [<- | Hne].
  - rewrite lookup_insert_eq. split.
    + intros [= <-]. apply list_lookup_middle. reflexivity.
    + intros Hp. apply lookup_app_Some in Hp. destruct Hp as [Hp | [Hlen Hp]].
      * apply Hok in Hp. congruence.
      * destruct (p - length sts)%nat as [|k] eqn:Hk; simpl in Hp; [|discriminate].
        f_equal. lia.
  - rewrite lookup_insert_ne by assumption. rewrite (Hok s' p). split.
    + apply lookup_app_l_Some.
    + intros Hp. apply lookup_app_Some in Hp. destruct Hp as [Hp | [Hlen Hp]]; [assumption|].
      destruct (p - length sts)%nat as [|k]; simpl in Hp; [congruence | discriminate].
Qed.

Lemma table_ok_NoDup (g : gmap FWDCstate ptr) (sts : list FWDCstate) :
  table_ok g sts → NoDup sts.
Proof.
  intros Hok. apply NoDup_alt. intros i j s Hi Hj.
  apply Hok in Hi, Hj. congruence.
Qed.

Lemma search_point_table (fuel k : nat) (w : World) :
  search_point fuel k w →
  table_ok (generated w) (state <$> heap w) ∧ size (generated w) = length (heap w).
Proof.
  induction 1 as [w H | k w t cs w' _ IH _ Hpop | k w t tn s w' _ IH _ _ _ Hstep].
  - unfold initial_world in H. simpl in H. inversion H; subst; simpl.
    unfold map_insert. rewrite lookup_empty. split.
    + intros s p. rewrite lookup_insert. destruct (decide (start_state = s)) as [<-|Hne].
      * split; [intros [= <-]; reflexivity|]. destruct p as [|p]; [reflexivity | discriminate].
      * rewrite lookup_empty. split; [discriminate|].
        destruct p as [|p]; simpl; [congruence | discriminate].
    + rewrite map_size_insert_None by apply lookup_empty. reflexivity.
  - apply pop_front_frame in Hpop. destruct Hpop as (-> & -> & _). exact IH.
  - destruct IH as [Hok Hsize].
    apply process_successor_table in Hstep.
    destruct Hstep as [(-> & Hst & _) | (Hnone & -> & Hst)].
    + rewrite Hst. split; [assumption|].
      rewrite <- (length_fmap state (heap w')), Hst, length_fmap. assumption.
    + rewrite Hst. split.
      * rewrite <- (length_fmap state (heap w)). apply table_ok_extend; assumption.
      * rewrite map_size_insert_None by assumption.
        rewrite <- (length_fmap state (heap w')), Hst, length_app, length_fmap. simpl. lia.
Qed.

(** ** The loops of the driver pass through search points only *)

Lemma process_successor_keeps_state (fuel : nat) (t : ptr) (s : FWDCstate) (w w' : World)
    (p : ptr) (nd : PSNode) :
  process_successor fuel t s w = Done w' → heap w !! p = Some nd →
  ∃ nd', heap w' !! p = Some nd' ∧ state nd' = state nd.
Proof.
  intros Hstep Hnd.
  assert (Hp : (state <$> heap w) !! p = Some (state nd))
    by (rewrite list_lookup_fmap, Hnd; reflexivity).
  apply process_successor_table in Hstep.
  destruct Hstep as [(_ & Hst & _) | (_ & _ & Hst)]; rewrite <- Hst in Hp || idtac.
  - rewrite list_lookup_fmap, fmap_Some in Hp. destruct Hp as (nd' & ? & ?); eauto.
  - assert (Hp' : (state <$> heap w') !! p = Some (state nd))
      by (rewrite Hst; apply lookup_app_l_Some; assumption).
    rewrite list_lookup_fmap, fmap_Some in Hp'. destruct Hp' as (nd' & ? & ?); eauto.
Qed.

Lemma expand_loop_search_point (fuel k : nat) (t : ptr) (cs : list FWDCstate) :
  ∀ w w' tn,
    search_point fuel k w → heap w !! t = Some tn →
    (∀ s, s ∈ cs → s ∈ nextStates (state tn)) →
    expand_loop fuel t cs w = Done w' → search_point fuel k w'.
Proof.
  induction cs as [|s cs IH]; intros w w' tn Hsp Ht Hcs H; simpl in H.
  - inversion H; subst; assumption.
  - destruct (winningNode w) eqn:Hwin; [inversion H; subst; assumption|].
    destruct (process_successor fuel t s w) as [w1| |] eqn:E; simpl in H; try discriminate.
    destruct (process_successor_keeps_state _ _ _ _ _ _ _ E Ht) as (tn1 & Ht1 & Hst1).
    apply (IH w1 w' tn1); try assumption.
    + eapply sp_successor; try eassumption. apply Hcs. left.
    + intros s' Hs'. rewrite Hst1. apply Hcs. right. assumption.
Qed.

Lemma expand_front_search_point (fuel k : nat) (w w' : World) :
  search_point fuel k w → searching w = true →
  expand_front fuel w = Done w' → search_point fuel (S k) w'.
Proof.
  intros Hsp Hs H. unfold expand_front in H.
  destruct (pop_front w) as [[[t cs] w1]| |] eqn:Hpop; simpl in H; try discriminate.
  pose proof (pop_front_frame _ _ _ _ Hpop) as (Hh & _ & _ & _ & tn & Ht & ->).
  eapply expand_loop_search_point; [| | | exact H].
  - eapply sp_pop; eassumption.
  - rewrite Hh. exact Ht.
  - auto.
Qed.

Lemma run_iters_search_point (fuel : nat) (iters : nat) :
  ∀ k w w', search_point fuel k w → run_iters iters fuel w = Done w' →
    ∃ k', (k' ≤ k + iters)%nat ∧ search_point fuel k' w'.
Proof.
  induction iters as [|n IH]; intros k w w' Hsp H; simpl in H.
  - inversion H; subst. exists k. split; [lia | assumption].
  - destruct (searching w) eqn:Hs;
      [|inversion H; subst; exists k; split; [lia | assumption]].
    destruct (expand_front fuel w) as [w1| |] eqn:E; simpl in H; try discriminate.
    destruct (IH (S k) w1 w' (expand_front_search_point _ _ _ _ Hsp Hs E) H)
      as (k' & Hk' & Hsp').
    exists k'. split; [lia | assumption].
Qed.

Lemma world_after_search_point (iters fuel : nat) (w : World) :
  world_after iters fuel = Done w → ∃ k, (k ≤ iters)%nat ∧ search_point fuel k w.
Proof.
  unfold world_after. intros H.
  destruct initial_world as [w0| |] eqn:E; simpl in H; try discriminate.
  apply (run_iters_search_point fuel iters 0 w0 w (sp_init fuel w0 E) H).
Qed.

(** C8: at every point of a search the generated table binds a state to
    an address exactly when the node at that address wraps the state, so
    no two nodes wrap the same state and the table is as large as the
    heap; and the body of the inner loop allocates a node and inserts a
    binding exactly when the state is not bound yet. *)
Theorem one_node_per_state (fuel k : nat) (w : World) :
  search_point fuel k w →
  table_inv w ∧
  NoDup (state <$> heap w) ∧
  size (generated w) = length (heap w) ∧
  ∀ t s w', process_successor fuel t s w = Done w' →
    (is_Some (generated w !! s) →
       generated w' = generated w ∧ length (heap w') = length (heap w)) ∧
    (generated w !! s = None →
       generated w' = <[s := length (heap w)]> (generated w) ∧
       length (heap w') = S (length (heap w))).
Proof.
  intros Hsp. destruct (search_point_table fuel k w Hsp) as [Hok Hsize].
  split; [apply table_inv_states; assumption|].
  split; [eapply table_ok_NoDup; eassumption|].
  split; [assumption|].
  intros t s w' Hstep. apply process_successor_table in Hstep.
  destruct Hstep as [(Hg & Hst & Hcase) | (Hnone & Hg & Hst)].
  - assert (Hlen : length (heap w') = length (heap w))
      by (rewrite <- (length_fmap state (heap w')), Hst, length_fmap; reflexivity).
    split; [auto|]. intros Hnone.
    destruct Hcase as [[q Hq] | (_ & tn & Htn & <-)]; [congruence|].
    assert (Hs : (state <$> heap w) !! t = Some (state tn))
      by (rewrite list_lookup_fmap, Htn; reflexivity).
    apply Hok in Hs. congruence.
  - split.
    + intros [q Hq]. congruence.
    + intros _. split; [assumption|].
      rewrite <- (length_fmap state (heap w')), Hst, length_app, length_fmap. simpl. lia.
Qed.

Lemma one_node_per_state_witness :
  ∃ w, initial_world = Done w ∧
    table_inv w ∧
    NoDup (state <$> heap w) ∧
    size (generated w) = length (heap w) ∧
    ∀ t s w', process_successor 1 t s w = Done w' →
      (is_Some (generated w !! s) →
         generated w' = generated w ∧ length (heap w') = length (heap w)) ∧
      (generated w !! s = None →
         generated w' = <[s := length (heap w)]> (generated w) ∧
         length (heap w') = S (length (heap w))).
Proof.
  eexists. split; [reflexivity|].
  apply (one_node_per_state 1 0). apply sp_init. reflexivity.
Defined.

(** ** Parent links: the graph stays in order *)

Lemma tight_dec (hp : Heap) (i : ptr) : tight hp i ∨ ¬ tight hp i.
Proof.
  unfold tight. destruct (hp !! i) as [nd|]; [|auto].
  destruct (parent nd) as [p|]; [|auto].
  destruct (hp !! p) as [pn|]; [|auto].
  destruct (decide (cost2reach nd = cost2reach pn + 1)); auto.
Qed.

Lemma untouched_tight (hp hp' : Heap) (i : ptr) :
  untouched hp hp' i → tight hp' i ↔ tight hp i.
Proof.
  intros [Hi Hp]. unfold tight. rewrite Hi.
  destruct (hp !! i) as [nd|]; [|reflexivity].
  destruct (parent nd) as [p|] eqn:Hpar; [|reflexivity].
  rewrite (Hp nd p eq_refl Hpar). reflexivity.
Qed.

Lemma untouched_trans (a b c : Heap) (i : ptr) :
  untouched a b i → untouched b c i → untouched a c i.
Proof.
  intros [Hi1 Hp1] [Hi2 Hp2]. split; [congruence|].
  intros nd p Hnd Hpar. rewrite <- (Hp1 nd p Hnd Hpar).
  apply (Hp2 nd p); [congruence | assumption].
Qed.

Lemma settled_refl (hp : Heap) : settled hp hp.
Proof.
  intros i. destruct (tight_dec hp i); [left; assumption|].
  right. split; [split; auto | assumption].
Qed.

Lemma settled_trans (a b c : Heap) : settled a b → settled b c → settled a c.
Proof.
  intros Hab Hbc i. destruct (Hbc i) as [Ht | [Hu Hl]]; [left; assumption|].
  destruct (Hab i) as [Ht | [Hu' Hl']]; [contradiction|].
  right. split; [eapply untouched_trans; eassumption | assumption].
Qed.

(** A node that costs no more than the offer is out of reach. *)
Lemma heap_refines_frame (c : Z) (hp hp' : Heap) (i : ptr) (nd : PSNode) :
  Forall2 (node_refines c) hp hp' → hp !! i = Some nd → cost2reach nd ≤ c →
  hp' !! i = Some nd.
Proof.
  intros Href Hnd Hc.
  destruct (Forall2_lookup_l _ _ _ _ _ Href Hnd) as (nd' & Hnd' & _ & _ & _ & [-> | Hlt]);
    [assumption | lia].
Qed.

Lemma frozen_refines (x : option (ptr * ptr)) (c c0 c' : Z) (hp hp' : Heap) :
  c ≤ c0 → c ≤ c' → Forall2 (node_refines c0) hp hp' → frozen x c hp → frozen x c' hp'.
Proof.
  intros Hc0 Hc Href Hfr xc xp Hx. destruct (Hfr xc xp Hx) as (xpn & Hxp & Hlt).
  exists xpn. split; [|lia]. eapply heap_refines_frame; try eassumption. lia.
Qed.

Lemma heap_refines_cost (c : Z) (hp hp' : Heap) (i : ptr) (nd : PSNode) :
  Forall2 (node_refines c) hp hp' → hp !! i = Some nd →
  ∃ nd', hp' !! i = Some nd' ∧ cost2reach nd' ≤ cost2reach nd.
Proof.
  intros Href Hnd.
  destruct (Forall2_lookup_l _ _ _ _ _ Href Hnd) as (nd' & Hnd' & _ & _ & _ & Hor).
  exists nd'. split; [assumption|]. destruct Hor as [-> | Hlt]; lia.
Qed.

Lemma children_ok_refines (c : Z) (hp hp' : Heap) :
  Forall2 (node_refines c) hp hp' → children_ok hp → children_ok hp'.
Proof.
  intros Href Hch i nd' z Hnd' Hz.
  destruct (Forall2_lookup_r _ _ _ _ _ Href Hnd') as (nd & Hnd & Hst & _ & Hcs & _).
  rewrite Hcs in Hz. destruct (Hch i nd z Hnd Hz) as (zn & Hzn & Hstep).
  destruct (Forall2_lookup_l _ _ _ _ _ Href Hzn) as (zn' & Hzn' & Hst' & _).
  exists zn'. split; [assumption|]. rewrite Hst, Hst'. assumption.
Qed.

Lemma lookup_relaxed (hp : Heap) (this : ptr) (thisn r : PSNode) (i : ptr) :
  hp !! this = Some thisn →
  <[this := r]> hp !! i = if decide (i = this) then Some r else hp !! i.
Proof.
  intros Hthis. destruct (decide (i = this)) as [-> | Hne].
  - apply list_lookup_insert_eq. eapply lookup_lt_Some; eassumption.
  - apply list_lookup_insert_ne. congruence.
Qed.

(** Accepting an offer keeps the graph in order, up to the tightness of
    the children of the node that accepted. *)
Lemma graph_ok_relax (x : option (ptr * ptr)) (hp : Heap) (this : ptr) (thisn : PSNode)
    (c : Z) (n : ptr) :
  graph_ok x hp → hp !! this = Some thisn → c < cost2reach thisn →
  offer_ok x this c n hp →
  graph_ok x (<[this := relaxed thisn c (Some n)]> hp) ∧ n ≠ this ∧ 1 ≤ c.
Proof.
  intros [Hroot Hedges Hlinks Hchildren] Hthis Hlt
    (nn & thisn0 & Hn & Hc & Hthis0 & Hstep & Hmem).
  assert (thisn0 = thisn) as -> by congruence.
  assert (Hne : n ≠ this) by (intros ->; assert (nn = thisn) by congruence; subst; lia).
  assert (Hc1 : 1 ≤ c) by (destruct (Hedges n nn Hn) as [? _]; lia).
  split; [|auto].
  set (r := relaxed thisn c (Some n)).
  assert (Hlk : ∀ i, <[this := r]> hp !! i = if decide (i = this) then Some r else hp !! i)
    by (intros i; eapply lookup_relaxed; eassumption).
  split.
  - destruct Hroot as (n0 & H0 & Hs0 & Hp0). exists n0. rewrite Hlk.
    destruct (decide (0%nat = this)) as [<- | _]; [|auto].
    assert (n0 = thisn) as -> by congruence.
    destruct (Hedges 0%nat thisn Hthis) as [_ He]. rewrite Hp0 in He. lia.
  - intros i nd1 Hnd1. rewrite Hlk in Hnd1.
    destruct (decide (i = this)) as [-> | Hi].
    + inversion Hnd1; subst nd1. split; [simpl; lia|]. simpl.
      exists nn. rewrite Hlk. destruct (decide (n = this)); [contradiction|].
      split; [assumption|]. split; [assumption|]. lia.
    + destruct (Hedges i nd1 Hnd1) as [Hpos He]. split; [assumption|].
      destruct (parent nd1) as [p|]; [|assumption].
      destruct He as (pn & Hpn & Hst & Hcost). rewrite Hlk.
      destruct (decide (p = this)) as [-> | Hp]; [|eauto].
      assert (pn = thisn) as -> by congruence.
      exists r. split; [reflexivity|]. split; [assumption|]. simpl. lia.
  - intros i nd1 p pn1 Hnd1 Hpar Hpn1. rewrite Hlk in Hnd1, Hpn1.
    destruct (decide (i = this)) as [-> | Hi].
    + inversion Hnd1; subst nd1. simpl in Hpar. inversion Hpar; subst p.
      destruct (decide (n = this)); [contradiction|].
      assert (pn1 = nn) as -> by congruence. assumption.
    + destruct (decide (p = this)) as [-> | Hp].
      * inversion Hpn1; subst pn1. simpl.
        apply (Hlinks i nd1 this thisn); assumption.
      * apply (Hlinks i nd1 p pn1); assumption.
  - eapply children_ok_refines; [|exact Hchildren].
    apply heap_refines_relax; eassumption.
Qed.

(** The loop over the children, given what holds of one call. *)
Section ChildrenLoop.
Variable rec : ptr → Store → outcome (Store * bool).
Variable x : option (ptr * ptr).
Variable this : ptr.
Variable c1 : Z.
Variable thisr : PSNode.

Hypothesis rec_refines :
  ∀ z st r, rec z st = Done r → Forall2 (node_refines c1) st.1 r.1.1.
Hypothesis rec_settles :
  ∀ z st r, rec z st = Done r →
    graph_ok x st.1 → frozen x c1 st.1 → offer_ok x z c1 this st.1 →
    graph_ok x r.1.1 ∧ (∃ zn, r.1.1 !! z = Some zn ∧ cost2reach zn ≤ c1) ∧
    settled st.1 r.1.1.
Hypothesis thisr_cost : cost2reach thisr + 1 = c1.

Lemma offer_to_children_spec :
  ∀ cs st st', offer_to_children rec cs st = Done st' →
    graph_ok x st.1 → frozen x c1 st.1 → st.1 !! this = Some thisr →
    (∀ z, z ∈ cs → z ∈ children thisr) →
    graph_ok x st'.1 ∧ settled st.1 st'.1 ∧ Forall2 (node_refines c1) st.1 st'.1 ∧
    ∀ z, z ∈ cs → ∃ zn, st'.1 !! z = Some zn ∧ cost2reach zn ≤ c1.
Proof.
  intros cs. induction cs as [|z cs IH]; intros st st' H Hg Hfr Hthis Hcs; simpl in H.
  - inversion H; subst. split; [assumption|]. split; [apply settled_refl|].
    split; [apply heap_refines_refl|]. intros z Hz. inversion Hz.
  - destruct (rec z st) as [[st1 b]| |] eqn:E; simpl in H; try discriminate.
    pose proof (rec_refines _ _ _ E) as Href1. simpl in Href1.
    assert (Hoffer : offer_ok x z c1 this st.1).
    { destruct (g_children _ _ Hg this thisr z Hthis (Hcs z ltac:(left)))
        as (zn & Hzn & Hstep).
      exists thisr, zn. repeat split; try assumption. left. apply Hcs. left. }
    destruct (rec_settles _ _ _ E Hg Hfr Hoffer) as (Hg1 & (zn1 & Hzn1 & Hzc1) & Hset1).
    simpl in Hg1, Hzn1, Hset1.
    assert (Hfr1 : frozen x c1 st1.1)
      by (eapply frozen_refines; [| | exact Href1 | exact Hfr]; lia).
    assert (Hthis1 : st1.1 !! this = Some thisr)
      by (eapply heap_refines_frame; [exact Href1 | exact Hthis | lia]).
    destruct (IH st1 st' H Hg1 Hfr1 Hthis1) as (Hg' & Hset' & Href' & Hcs').
    { intros z' Hz'. apply Hcs. right. assumption. }
    split; [assumption|]. split; [eapply settled_trans; eassumption|].
    split; [eapply heap_refines_trans; [reflexivity | eassumption | eassumption]|].
    intros z' Hz'. apply elem_of_cons in Hz'. destruct Hz' as [-> | Hz']; [|auto].
    destruct (heap_refines_cost _ _ _ _ _ Href' Hzn1) as (zn' & Hzn' & Hle).
    exists zn'. split; [assumption | lia].
Qed.
End ChildrenLoop.

(** What a cost revision achieves: the graph stays in order, the node
    costs no more than the offer, and no node is left loose that was not
    loose and out of the way before. *)
Lemma updateCostCond_settles (fuel : nat) :
  ∀ this c n st r x,
    updateCostCond fuel this c (Some n) st = Done r →
    graph_ok x st.1 → frozen x c st.1 → offer_ok x this c n st.1 →
    graph_ok x r.1.1 ∧
    (∃ thisn', r.1.1 !! this = Some thisn' ∧ cost2reach thisn' ≤ c) ∧
    settled st.1 r.1.1.
Proof.
  induction fuel as [|fuel IH]; intros this c n [hp fr] r x H Hg Hfr Hoffer; simpl in H;
    [discriminate|].
  simpl in Hg, Hfr, Hoffer |- *.
  destruct (deref hp this) as [thisn| |] eqn:Hthis; simpl in H; try discriminate.
  apply deref_Done in Hthis.
  destruct (c <? cost2reach thisn) eqn:Hlt.
  2:{ inversion H; subst; simpl. apply Z.ltb_ge in Hlt.
      split; [assumption|]. split; [eauto | apply settled_refl]. }
  apply Z.ltb_lt in Hlt.
  fold (relaxed thisn c (Some n)) in H. fold (rekeyed thisn this c fr) in H.
  set (rn := relaxed thisn c (Some n)) in *.
  set (hp1 := <[this := rn]> hp) in *.
  match type of H with
  | context [offer_to_children ?f ?cs ?s] =>
      destruct (offer_to_children f cs s) as [[hp' fr']| |] eqn:E
  end; simpl in H; try discriminate.
  inversion H; subst r; simpl. clear H.
  destruct (graph_ok_relax x hp this thisn c n Hg Hthis Hlt Hoffer) as (Hg1 & Hne & Hc1).
  fold rn in Hg1. fold hp1 in Hg1.
  pose proof (heap_refines_relax hp this thisn c (Some n) Hthis Hlt) as Href1.
  fold rn in Href1. fold hp1 in Href1.
  assert (Hlk : ∀ i, hp1 !! i = if decide (i = this) then Some rn else hp !! i)
    by (intros i; eapply lookup_relaxed; eassumption).
  assert (Hthis1 : hp1 !! this = Some rn)
    by (rewrite Hlk; destruct (decide (this = this)); congruence).
  assert (Hfr1 : frozen x (c + 1) hp1)
    by (eapply frozen_refines; [| | exact Href1 | exact Hfr]; lia).
  destruct (offer_to_children_spec _ x this (c + 1) rn
              (fun z st r Hr => updateCostCond_refines _ _ _ _ _ _ Hr)
              (fun z st r Hr => IH z (c + 1) this st r x Hr)
              eq_refl _ _ _ E Hg1 Hfr1 Hthis1 (fun z Hz => Hz))
    as (Hg' & Hset' & Href' & Hcs').
  simpl in Hg', Hset', Href', Hcs'.
  assert (Hthis' : hp' !! this = Some rn)
    by (eapply heap_refines_frame; [exact Href' | exact Hthis1 | simpl; lia]).
  split; [assumption|]. split; [exists rn; split; [assumption | simpl; lia]|].
  intros i. destruct (Hset' i) as [Ht | [Hu Hloose]]; [left; assumption|].
  destruct (decide (i = this)) as [-> | Hi].
  { exfalso. apply Hloose. unfold tight. rewrite Hthis1. simpl.
    destruct Hoffer as (nn & _ & Hn & Hcn & _).
    rewrite Hlk. destruct (decide (n = this)); [contradiction|].
    rewrite Hn. lia. }
  pose proof (Hlk i) as Hi1. destruct (decide (i = this)); [contradiction|].
  destruct (hp !! i) as [nd|] eqn:Hnd.
  2:{ exfalso. apply Hloose. unfold tight. rewrite Hi1. exact I. }
  destruct (parent nd) as [p|] eqn:Hpar.
  2:{ exfalso. apply Hloose. unfold tight. rewrite Hi1, Hpar. exact I. }
  destruct Hu as [Hui Hup]. specialize (Hup nd p Hi1 Hpar).
  destruct (decide (p = this)) as [-> | Hp].
  - left.
    destruct (g_links _ _ Hg i nd this thisn Hnd Hpar Hthis) as [Hmem | Hx].
    + destruct (Hcs' i Hmem) as (zn & Hzn & Hzc).
      assert (zn = nd) as -> by congruence.
      destruct (g_edges _ _ Hg' i nd Hzn) as [_ He]. rewrite Hpar in He.
      destruct He as (pn & Hpn & _ & Hpc).
      assert (pn = rn) as -> by congruence. simpl in Hpc.
      unfold tight. rewrite Hzn, Hpar, Hthis'. simpl. lia.
    + destruct (Hfr i this Hx) as (xpn & Hxp & Hxc).
      assert (xpn = thisn) as -> by congruence. lia.
  - right.
    assert (Hp1 : hp1 !! p = hp !! p)
      by (rewrite Hlk; destruct (decide (p = this)); [contradiction | reflexivity]).
    assert (Hu1 : untouched hp hp1 i).
    { split; [congruence|]. intros nd0 p0 Hnd0 Hpar0.
      assert (nd0 = nd) as -> by congruence. assert (p0 = p) as -> by congruence.
      assumption. }
    split.
    + split; [congruence|]. intros nd0 p0 Hnd0 Hpar0.
      assert (nd0 = nd) as -> by congruence. assert (p0 = p) as -> by congruence.
      congruence.
    + intros Ht. apply Hloose. apply (untouched_tight hp hp1 i Hu1). assumption.
Qed.

Lemma graph_ok_weaken (x : option (ptr * ptr)) (hp : Heap) : graph_ok None hp → graph_ok x hp.
Proof.
  intros [Hroot Hedges Hlinks Hchildren]. split; try assumption.
  intros i nd p pn Hnd Hpar Hpn.
  destruct (Hlinks i nd p pn Hnd Hpar Hpn) as [? | ?]; [left; assumption | discriminate].
Qed.

Lemma tight_push (hp : Heap) (t q : ptr) (tn : PSNode) (i : ptr) :
  hp !! t = Some tn → tight (<[t := push_child tn q]> hp) i ↔ tight hp i.
Proof.
  intros Ht. unfold tight.
  rewrite !(lookup_relaxed hp t tn (push_child tn q) _ Ht).
  destruct (decide (i = t)) as [-> | Hi].
  - rewrite Ht. simpl. destruct (parent tn) as [p|]; [|reflexivity].
    rewrite (lookup_relaxed hp t tn (push_child tn q) _ Ht).
    destruct (decide (p = t)) as [-> | Hp]; [rewrite Ht|]; reflexivity.
  - destruct (hp !! i) as [nd|]; [|reflexivity].
    destruct (parent nd) as [p|]; [|reflexivity].
    rewrite (lookup_relaxed hp t tn (push_child tn q) _ Ht).
    destruct (decide (p = t)) as [-> | Hp]; [rewrite Ht|]; reflexivity.
Qed.

(** Recording the pending link in the [children] list closes it. *)
Lemma graph_ok_push (x : option (ptr * ptr)) (hp : Heap) (t q : ptr) (tn qn : PSNode) :
  graph_ok x hp → hp !! t = Some tn → hp !! q = Some qn →
  state qn ∈ nextStates (state tn) → (x = None ∨ x = Some (q, t)) →
  graph_ok None (<[t := push_child tn q]> hp).
Proof.
  intros [Hroot Hedges Hlinks Hchildren] Ht Hq Hstep Hx.
  set (pn' := push_child tn q).
  assert (Hlk : ∀ i, <[t := pn']> hp !! i = if decide (i = t) then Some pn' else hp !! i)
    by (intros i; eapply lookup_relaxed; eassumption).
  assert (Hsame : ∀ i nd2, <[t := pn']> hp !! i = Some nd2 →
            ∃ nd, hp !! i = Some nd ∧ state nd2 = state nd ∧ parent nd2 = parent nd ∧
                  cost2reach nd2 = cost2reach nd ∧
                  (i = t ∧ children nd2 = children nd ++ [q] ∨
                   i ≠ t ∧ children nd2 = children nd)).
  { intros i nd2 H. rewrite Hlk in H. destruct (decide (i = t)) as [-> | Hi].
    - inversion H; subst. exists tn. simpl. auto 10.
    - exists nd2. auto 10. }
  assert (Hback : ∀ i nd, hp !! i = Some nd →
            ∃ nd2, <[t := pn']> hp !! i = Some nd2 ∧ state nd2 = state nd ∧
                   cost2reach nd2 = cost2reach nd).
  { intros i nd H. rewrite Hlk. destruct (decide (i = t)) as [-> | Hi].
    - assert (nd = tn) as -> by congruence. exists pn'. auto.
    - exists nd. auto. }
  split.
  - destruct Hroot as (n0 & H0 & Hs0 & Hp0).
    rewrite Hlk. destruct (decide (0%nat = t)) as [<- | _]; [|eauto].
    assert (tn = n0) as -> by congruence. exists pn'. auto.
  - intros i nd2 Hnd2. destruct (Hsame i nd2 Hnd2) as (nd & Hnd & Hst & Hpar & Hcost & _).
    destruct (Hedges i nd Hnd) as [Hpos He]. unfold edge_ok. rewrite Hpar, Hcost, Hst.
    split; [assumption|]. destruct (parent nd) as [p|]; [|assumption].
    destruct He as (pn & Hpn & Hs & Hc).
    destruct (Hback p pn Hpn) as (pn2 & Hpn2 & Hst2 & Hcost2).
    exists pn2. rewrite Hst2, Hcost2. auto.
  - intros i nd2 p pn2 Hnd2 Hpar2 Hpn2. left.
    destruct (Hsame i nd2 Hnd2) as (nd & Hnd & _ & Hpar & _).
    destruct (Hsame p pn2 Hpn2) as (pn & Hpn & _ & _ & _ & Hch).
    rewrite Hpar in Hpar2.
    destruct (Hlinks i nd p pn Hnd Hpar2 Hpn) as [Hmem | Hpend].
    + destruct Hch as [[_ ->] | [_ ->]]; [apply elem_of_app; left|]; assumption.
    + destruct Hx as [-> | ->]; [discriminate|]. inversion Hpend; subst.
      destruct Hch as [[_ ->] | [Hne _]]; [|contradiction].
      apply elem_of_app. right. left.
  - intros i nd2 z Hnd2 Hz.
    destruct (Hsame i nd2 Hnd2) as (nd & Hnd & Hst & _ & _ & Hch). rewrite Hst.
    assert (Hz' : z ∈ children nd ∨ (i = t ∧ z = q)).
    { destruct Hch as [[-> Hch] | [_ Hch]]; rewrite Hch in Hz; [|auto].
      apply elem_of_app in Hz. destruct Hz as [? | Hz]; [auto|].
      apply list_elem_of_singleton in Hz. auto. }
    destruct Hz' as [Hz' | [-> ->]].
    + destruct (Hchildren i nd z Hnd Hz') as (zn & Hzn & Hs).
      destruct (Hback z zn Hzn) as (zn2 & Hzn2 & Hst2 & _).
      exists zn2. rewrite Hst2. auto.
    + assert (nd = tn) as -> by congruence.
      destruct (Hback q qn Hq) as (qn2 & Hqn2 & Hst2 & _).
      exists qn2. rewrite Hst2. auto.
Qed.

(** A freshly allocated node, before it is recorded as a child. *)
Lemma heap_inv_alloc (hp : Heap) (t : ptr) (tn : PSNode) (s : FWDCstate) :
  heap_inv hp → hp !! t = Some tn → s ∈ nextStates (state tn) →
  let nd := mkNode s (Some t) (cost2reach tn + 1) (h s) [] in
  graph_ok (Some (length hp, t)) (hp ++ [nd]) ∧ ∀ i, tight (hp ++ [nd]) i.
Proof.
  intros [[Hroot Hedges Hlinks Hchildren] Htight] Ht Hstep nd.
  assert (Hold : ∀ i x, hp !! i = Some x → (hp ++ [nd]) !! i = Some x)
    by (intros; apply lookup_app_l_Some; assumption).
  assert (Hcases : ∀ i x, (hp ++ [nd]) !! i = Some x →
            hp !! i = Some x ∨ (i = length hp ∧ x = nd)).
  { intros i x H. apply lookup_app_Some in H. destruct H as [H | [Hlen H]]; [auto|].
    right. destruct (i - length hp)%nat as [|k] eqn:Hk; simpl in H; [|discriminate].
    split; [lia | congruence]. }
  split; [split|].
  - destruct Hroot as (n0 & H0 & ?). exists n0. auto.
  - intros i x Hx. destruct (Hcases i x Hx) as [Hi | [-> ->]].
    + destruct (Hedges i x Hi) as [Hpos He]. split; [assumption|].
      destruct (parent x) as [p|]; [|assumption].
      destruct He as (pn & Hpn & ?). exists pn. auto.
    + destruct (Hedges t tn Ht) as [Hpos _]. split; [simpl; lia|]. simpl.
      exists tn. split; [auto|]. split; [assumption | lia].
  - intros i x p pn Hx Hpar Hpn. destruct (Hcases i x Hx) as [Hi | [-> ->]].
    + left. destruct (Hedges i x Hi) as [_ He]. rewrite Hpar in He.
      destruct He as (pn0 & Hpn0 & _).
      assert (pn = pn0) as -> by (apply Hold in Hpn0; congruence).
      destruct (Hlinks i x p pn0 Hi Hpar Hpn0) as [? | ?]; [assumption | discriminate].
    + right. simpl in Hpar. congruence.
  - intros i x z Hx Hz. destruct (Hcases i x Hx) as [Hi | [-> ->]].
    + destruct (Hchildren i x z Hi Hz) as (zn & Hzn & ?). exists zn. auto.
    + simpl in Hz. inversion Hz.
  - intros i. unfold tight. destruct ((hp ++ [nd]) !! i) as [x|] eqn:Hx; [|exact I].
    destruct (Hcases i x Hx) as [Hi | [-> ->]].
    + specialize (Htight i). unfold tight in Htight. rewrite Hi in Htight.
      destruct (parent x) as [p|] eqn:Hpar; [|exact I].
      destruct (Hedges i x Hi) as [_ He]. rewrite Hpar in He.
      destruct He as (pn & Hpn & _). rewrite (Hold p pn Hpn).
      rewrite Hpn in Htight. assumption.
    + simpl. rewrite (Hold t tn Ht). reflexivity.
Qed.

Lemma process_successor_heap_inv (fuel : nat) (t : ptr) (s : FWDCstate) (w w' : World)
    (tn : PSNode) :
  process_successor fuel t s w = Done w' →
  heap w !! t = Some tn → s ∈ nextStates (state tn) →
  table_ok (generated w) (state <$> heap w) →
  heap_inv (heap w) → heap_inv (heap w').
Proof.
  intros Hstep Ht Hs Hok Hinv.
  apply process_successor_cases in Hstep.
  destruct Hstep as (tn0 & Ht0 & Hcases). assert (tn0 = tn) as -> by congruence.
  destruct Hcases as [[_ ->] | [(_ & q & hp1 & fr1 & b & tn1 & Hq & Hupd & Ht1 & -> & _)
                                | (_ & Hnone & -> & _)]]; [assumption| |].
  - destruct Hinv as [Hg Htight].
    apply Hok in Hq. rewrite list_lookup_fmap, fmap_Some in Hq.
    destruct Hq as (qn & Hqn & Hqs).
    set (x := Some (q, t)).
    assert (Hfr : frozen x (cost2reach tn + 1) (heap w)).
    { intros xc xp [= <- <-]. exists tn. split; [assumption | lia]. }
    assert (Hoffer : offer_ok x q (cost2reach tn + 1) t (heap w)).
    { exists tn, qn. repeat split; try assumption; [congruence | right; reflexivity]. }
    destruct (updateCostCond_settles _ _ _ _ _ _ x Hupd
                (graph_ok_weaken x _ Hg) Hfr Hoffer)
      as (Hg1 & (qn1 & Hqn1 & _) & Hset). simpl in Hg1, Hqn1, Hset.
    pose proof (updateCostCond_refines _ _ _ _ _ _ Hupd) as Href. simpl in Href.
    destruct (Forall2_lookup_l _ _ _ _ _ Href Ht) as (tn1' & Ht1' & Hst1 & _).
    assert (tn1' = tn1) as -> by congruence.
    destruct (Forall2_lookup_l _ _ _ _ _ Href Hqn) as (qn1' & Hqn1' & Hsq1 & _).
    assert (qn1' = qn1) as -> by congruence.
    split.
    + apply (graph_ok_push x hp1 t q tn1 qn1 Hg1 Ht1 Hqn1); [|right; reflexivity].
      rewrite Hsq1, Hst1, <- Hqs. assumption.
    + intros i. apply (tight_push hp1 t q tn1 i Ht1).
      destruct (Hset i) as [? | [_ Hloose]]; [assumption|].
      exfalso. apply Hloose, Htight.
  - destruct (heap_inv_alloc (heap w) t tn s Hinv Ht Hs) as [Hg1 Htight1].
    set (nd := mkNode s (Some t) (cost2reach tn + 1) (h s) []) in *.
    assert (Ht1 : (heap w ++ [nd]) !! t = Some tn) by (apply lookup_app_l_Some; assumption).
    assert (Hq1 : (heap w ++ [nd]) !! length (heap w) = Some nd)
      by (apply list_lookup_middle; reflexivity).
    split.
    + apply (graph_ok_push (Some (length (heap w), t)) _ t (length (heap w)) tn nd
               Hg1 Ht1 Hq1); [exact Hs | right; reflexivity].
    + intros i. apply (tight_push _ t (length (heap w)) tn i Ht1). apply Htight1.
Qed.

Lemma search_point_heap_inv (fuel k : nat) (w : World) :
  search_point fuel k w → heap_inv (heap w).
Proof.
  induction 1 as [w H | k w t cs w' _ IH _ Hpop | k w t tn s w' Hsp IH Ht Hs _ Hstep].
  - unfold initial_world in H. simpl in H. inversion H; subst; simpl.
    split; [split|].
    + eexists. split; [reflexivity|]. split; reflexivity.
    + intros [|i] nd Hnd; [|discriminate]. inversion Hnd; subst.
      split; simpl; [lia | auto].
    + intros [|i] nd p pn Hnd Hpar; [|discriminate]. inversion Hnd; subst. discriminate.
    + intros [|i] nd z Hnd Hz; [|discriminate]. inversion Hnd; subst. inversion Hz.
    + intros [|i]; exact I.
  - apply pop_front_frame in Hpop. destruct Hpop as (-> & _). exact IH.
  - eapply process_successor_heap_inv; try eassumption.
    apply (search_point_table fuel k w Hsp).
Qed.

(** The winning node, once set, wraps a winning state. *)
Lemma search_point_winning (fuel k : nat) (w : World) (g : ptr) :
  search_point fuel k w → winningNode w = Some g →
  ∃ gn, heap w !! g = Some gn ∧ isWinning (state gn) = true.
Proof.
  induction 1 as [w H | k w t cs w' _ IH Hs Hpop | k w t tn s w' _ IH Ht _ Hnone Hstep];
    intros Hwin.
  - unfold initial_world in H. simpl in H. inversion H; subst. discriminate.
  - apply pop_front_frame in Hpop. destruct Hpop as (_ & _ & Hw & _).
    unfold searching in Hs. rewrite Hw in Hwin. rewrite Hwin in Hs. discriminate.
  - apply process_successor_cases in Hstep.
    destruct Hstep as (tn0 & Ht0 & Hcases). assert (tn0 = tn) as -> by congruence.
    destruct Hcases as [[_ ->] | [(_ & q & hp1 & fr1 & b & tn1 & _ & _ & _ & _ & _ & _ & Hw)
                                  | (_ & _ & Hh & _ & _ & Hw)]]; [auto | congruence |].
    rewrite Hw in Hwin. destruct (isWinning s) eqn:Hs; [|congruence].
    inversion Hwin; subst g. rewrite Hh.
    exists (mkNode s (Some t) (cost2reach tn + 1) (h s) []).
    split; [|assumption].
    rewrite list_lookup_insert_ne by (apply lookup_lt_Some in Ht; lia).
    apply list_lookup_middle. reflexivity.
Qed.

Lemma parent_chain_step (fuel : nat) (hp : Heap) (p : ptr) (nd : PSNode) :
  hp !! p = Some nd →
  parent_chain (S fuel) hp (Some p)
  = rest ← parent_chain fuel hp (parent nd); Done (p :: rest).
Proof. intros H. simpl. unfold deref. rewrite H. reflexivity. Qed.

(** In a heap in order, the parent links of a node of cost [k] lead to
    the first node in [k] steps, each one a legal move taken back. *)
Lemma heap_inv_chain (hp : Heap) :
  heap_inv hp →
  ∀ k i nd, hp !! i = Some nd → cost2reach nd = Z.of_nat k →
    ∃ chain,
      parent_chain (S k) hp (Some i) = Done chain ∧
      length chain = S k ∧ head chain = Some i ∧ last chain = Some 0%nat ∧
      chain_legal hp chain.
Proof.
  intros [Hg Htight]. induction k as [|k IH]; intros i nd Hnd Hcost.
  - destruct (g_edges _ _ Hg i nd Hnd) as [_ He].
    destruct (parent nd) as [p|] eqn:Hpar.
    + destruct He as (pn & Hpn & _ & Hc).
      destruct (g_edges _ _ Hg p pn Hpn) as [Hpos _]. lia.
    + destruct He as [-> _]. exists [0%nat]. simpl. unfold deref. rewrite Hnd. simpl.
      rewrite Hpar. simpl. repeat split; reflexivity.
  - destruct (g_edges _ _ Hg i nd Hnd) as [_ He].
    destruct (parent nd) as [p|] eqn:Hpar; [|lia].
    destruct He as (pn & Hpn & Hstep & _).
    specialize (Htight i). unfold tight in Htight. rewrite Hnd, Hpar, Hpn in Htight.
    destruct (IH p pn Hpn ltac:(lia)) as (chain & Hchain & Hlen & Hhead & Hlast & Hlegal).
    exists (i :: chain).
    split.
    { rewrite (parent_chain_step _ _ _ _ Hnd), Hpar, Hchain. reflexivity. }
    split; [simpl; lia|]. split; [reflexivity|].
    destruct chain as [|p0 rest]; [discriminate|].
    simpl in Hhead. inversion Hhead; subst p0.
    split; [exact Hlast|].
    split; [|exact Hlegal]. exists nd, pn. auto.
Qed.

Lemma main_search_point (fuel : nat) (w : World) :
  main fuel = Done w →
  ∃ k w1, search_point fuel k w1 ∧ heap w = heap w1 ∧ winningNode w = winningNode w1.
Proof.
  unfold main. intros H.
  destruct initial_world as [w0| |] eqn:E0; simpl in H; try discriminate.
  destruct (search_loop fuel fuel w0) as [w1| |] eqn:E1; simpl in H; try discriminate.
  assert (Hsp : ∃ k, search_point fuel k w1).
  { unfold search_loop in E1.
    destruct (run_iters fuel fuel w0) as [w2| |] eqn:E2; simpl in E1; try discriminate.
    destruct (searching w2); [discriminate|]. inversion E1; subst.
    destruct (run_iters_search_point fuel fuel 0 w0 w1 (sp_init fuel w0 E0) E2)
      as (k & _ & Hsp).
    eauto. }
  destruct Hsp as [k Hsp]. exists k, w1. split; [assumption|].
  destruct (winningNode w1) as [g|] eqn:Hg.
  - match type of H with
    | context [build_outpath ?a ?b ?c ?d] => destruct (build_outpath a b c d)
    end; simpl in H; try discriminate.
    inversion H; subst; simpl. auto.
  - inversion H; subst; simpl. auto.
Qed.

(** C4: when [main] ends with a winning node, that node wraps a winning
    state, and the parent links from it lead, in exactly [cost2reach]
    steps, to the first node allocated, which has no parent and wraps the
    start state; each node on the way wraps a successor of the state of
    the next. *)
Theorem winning_path_is_legal (fuel : nat) (w : World) (g : ptr) :
  main fuel = Done w → winningNode w = Some g →
  ∃ gn n0 chain,
    heap w !! g = Some gn ∧ isWinning (state gn) = true ∧
    0 ≤ cost2reach gn ∧
    parent_chain (length chain) (heap w) (Some g) = Done chain ∧
    length chain = S (Z.to_nat (cost2reach gn)) ∧
    last chain = Some 0%nat ∧
    heap w !! 0%nat = Some n0 ∧ parent n0 = None ∧ state n0 = start_state ∧
    chain_legal (heap w) chain.
Proof.
  intros Hmain Hwin.
  destruct (main_search_point fuel w Hmain) as (k & w1 & Hsp & Hh & Hw).
  rewrite Hh. rewrite Hw in Hwin.
  destruct (search_point_winning fuel k w1 g Hsp Hwin) as (gn & Hgn & Hgw).
  pose proof (search_point_heap_inv fuel k w1 Hsp) as Hinv.
  destruct (g_edges _ _ (proj1 Hinv) g gn Hgn) as [Hpos _].
  destruct (g_root _ _ (proj1 Hinv)) as (n0 & Hn0 & Hs0 & Hp0).
  destruct (heap_inv_chain _ Hinv (Z.to_nat (cost2reach gn)) g gn Hgn ltac:(lia))
    as (chain & Hchain & Hlen & _ & Hlast & Hlegal).
  exists gn, n0, chain. rewrite Hlen. auto 12.
Qed.

Lemma winning_path_is_legal_witness :
  ∃ w, main 9 = Done w ∧ winningNode w = Some 9%nat ∧
    ∃ gn n0 chain,
      heap w !! 9%nat = Some gn ∧ isWinning (state gn) = true ∧
      0 ≤ cost2reach gn ∧
      parent_chain (length chain) (heap w) (Some 9%nat) = Done chain ∧
      length chain = S (Z.to_nat (cost2reach gn)) ∧
      last chain = Some 0%nat ∧
      heap w !! 0%nat = Some n0 ∧ parent n0 = None ∧ state n0 = start_state ∧
      chain_legal (heap w) chain.
Proof.
  eexists. split; [vm_compute; reflexivity|]. split; [reflexivity|].
  apply (winning_path_is_legal 9); [vm_compute; reflexivity | reflexivity].
Defined.

(** ** The frontier stays sorted *)

Lemma frontier_insert_Forall (P : Z * ptr → Prop) (k : Z) (p : ptr) (fr : Frontier) :
  P (k, p) → Forall P fr → Forall P (frontier_insert k p fr).
Proof.
  intros Hkp. induction 1 as [|[k' q] fr Hx Hall IH]; simpl.
  - constructor; [assumption | constructor].
  - destruct (k <? k'); repeat (constructor; try assumption).
Qed.

Lemma frontier_insert_sorted (k : Z) (p : ptr) (fr : Frontier) :
  frontier_sorted fr → frontier_sorted (frontier_insert k p fr).
Proof.
  induction fr as [|[k' q] fr IH]; simpl; [auto|]. intros [Hall Hs].
  destruct (k <? k') eqn:Hlt; simpl.
  - apply Z.ltb_lt in Hlt. split; [|auto]. constructor; [simpl; lia|].
    eapply Forall_impl; [exact Hall|]. simpl. intros; lia.
  - apply Z.ltb_ge in Hlt. split; [|auto].
    apply frontier_insert_Forall; [simpl; lia | assumption].
Qed.

Lemma frontier_erase_Forall (P : Z * ptr → Prop) (key : Z) (p : ptr) (fr : Frontier) :
  ∀ fr', frontier_erase_in_range key p fr = Some fr' → Forall P fr → Forall P fr'.
Proof.
  induction fr as [|[k' q] fr IH]; intros fr' H Hall; simpl in H; [discriminate|].
  inversion Hall; subst.
  destruct (k' <? key).
  - destruct (frontier_erase_in_range key p fr) as [fr0|]; simpl in H; [|discriminate].
    inversion H; subst. constructor; auto.
  - destruct (k' =? key); [|discriminate].
    destruct (Nat.eqb q p); [inversion H; subst; assumption|].
    destruct (frontier_erase_in_range key p fr) as [fr0|]; simpl in H; [|discriminate].
    inversion H; subst. constructor; auto.
Qed.

Lemma frontier_erase_sorted (key : Z) (p : ptr) (fr : Frontier) :
  ∀ fr', frontier_erase_in_range key p fr = Some fr' →
    frontier_sorted fr → frontier_sorted fr'.
Proof.
  induction fr as [|[k' q] fr IH]; intros fr' H Hsorted; simpl in H; [discriminate|].
  destruct Hsorted as [Hall Hs].
  destruct (k' <? key).
  - destruct (frontier_erase_in_range key p fr) as [fr0|] eqn:E; simpl in H; [|discriminate].
    inversion H; subst. split; [|auto]. eapply frontier_erase_Forall; eassumption.
  - destruct (k' =? key); [|discriminate].
    destruct (Nat.eqb q p); [inversion H; subst; assumption|].
    destruct (frontier_erase_in_range key p fr) as [fr0|] eqn:E; simpl in H; [|discriminate].
    inversion H; subst. split; [|auto]. eapply frontier_erase_Forall; eassumption.
Qed.

(** In a sorted frontier the scan of the range of [key] finds the first
    entry [(key, p)] of the whole list, if there is one. *)
Lemma frontier_erase_in_range_None (key : Z) (p : ptr) (fr : Frontier) :
  frontier_sorted fr →
  frontier_erase_in_range key p fr = None ↔ (key, p) ∉ fr.
Proof.
  induction fr as [|[k' q] fr IH]; simpl.
  - intros _. split; [intros _; apply not_elem_of_nil | reflexivity].
  - intros [Hall Hs]. rewrite not_elem_of_cons. specialize (IH Hs).
    destruct (k' <? key) eqn:Hlt.
    + apply Z.ltb_lt in Hlt.
      destruct (frontier_erase_in_range key p fr); simpl.
      * split; [discriminate|]. intros [_ Hn]. apply IH in Hn. discriminate.
      * split; [|reflexivity]. intros _. split; [intros [=]; lia | apply IH; reflexivity].
    + apply Z.ltb_ge in Hlt. destruct (k' =? key) eqn:Heq.
      * apply Z.eqb_eq in Heq. subst k'.
        destruct (Nat.eqb q p) eqn:Hq.
        -- apply Nat.eqb_eq in Hq. subst q. split; [discriminate|]. intros [Hn _]. congruence.
        -- apply Nat.eqb_neq in Hq.
           destruct (frontier_erase_in_range key p fr); simpl.
           ++ split; [discriminate|]. intros [_ Hn]. apply IH in Hn. discriminate.
           ++ split; [|reflexivity]. intros _. split; [congruence | apply IH; reflexivity].
      * apply Z.eqb_neq in Heq. split; [|reflexivity]. intros _.
        split; [intros [=]; lia|].
        intros Hin. rewrite Forall_forall in Hall. specialize (Hall _ Hin). simpl in Hall. lia.
Qed.

Lemma rekeyed_sorted (nd : PSNode) (this : ptr) (c : Z) (fr : Frontier) :
  frontier_sorted fr → frontier_sorted (rekeyed nd this c fr).
Proof.
  intros Hs. unfold rekeyed.
  destruct (frontier_erase_in_range (cost2reach nd) this fr) as [fr'|] eqn:E; [|assumption].
  apply frontier_insert_sorted. eapply frontier_erase_sorted; eassumption.
Qed.

Lemma updateCostCond_sorted (fuel : nat) :
  ∀ this c np st r, updateCostCond fuel this c np st = Done r →
    frontier_sorted st.2 → frontier_sorted r.1.2.
Proof.
  induction fuel as [|fuel IH]; intros this c np [hp fr] r H Hs; simpl in H; [discriminate|].
  destruct (deref hp this) as [nd| |]; simpl in H; try discriminate.
  destruct (c <? cost2reach nd); [|inversion H; subst; assumption].
  fold (rekeyed nd this c fr) in H.
  match type of H with
  | context [offer_to_children ?f ?cs ?s] =>
      destruct (offer_to_children f cs s) as [st'| |] eqn:E
  end; simpl in H; try discriminate.
  inversion H; subst; simpl. clear H.
  pose proof (rekeyed_sorted nd this c fr Hs) as Hs1. simpl in Hs.
  revert E Hs1. generalize (rekeyed nd this c fr).
  generalize (<[this := mkNode (state nd) np c (projectedCost nd) (children nd)]> hp).
  induction (children nd) as [|x cs IHcs]; intros hp0 fr0 E Hs0; simpl in E.
  - inversion E; subst; assumption.
  - match type of E with
    | context [updateCostCond fuel ?a ?b ?d ?e] =>
        destruct (updateCostCond fuel a b d e) as [[[hp1 fr1] b1]| |] eqn:E1
    end; simpl in E; try discriminate.
    apply IH in E1; [|assumption]. simpl in E1. apply (IHcs hp1 fr1 E E1).
Qed.

(** The frontier of the model is sorted at every point of a search: its
    first entry has the least key, and the ranges that [updateCostCond]
    scans are the ranges of the multimap. *)
Lemma search_point_sorted (fuel k : nat) (w : World) :
  search_point fuel k w → frontier_sorted (frontier w).
Proof.
  induction 1 as [w H | k w t cs w' _ IH _ Hpop | k w t tn s w' _ IH _ _ _ Hstep].
  - unfold initial_world in H. simpl in H. inversion H; subst; simpl. auto.
  - apply pop_front_frame in Hpop. destruct Hpop as (_ & _ & _ & [f Hf] & _).
    rewrite Hf in IH. apply IH.
  - apply process_successor_cases in Hstep. destruct Hstep as (tn0 & _ & Hcases).
    destruct Hcases as [[_ ->] | [(_ & q & hp1 & fr1 & b & tn1 & _ & Hupd & _ & _ & _ & -> & _)
                                   | (_ & _ & _ & _ & -> & _)]]; [assumption| |].
    + apply (updateCostCond_sorted _ _ _ _ _ _ Hupd IH).
    + apply frontier_insert_sorted, IH.
Qed.

(** ** Termination *)

Lemma all_states_complete (s : FWDCstate) : s ∈ all_states.
Proof. each_state s; vm_compute; apply list_elem_of_In; simpl; tauto. Qed.

Lemma at_most_sixteen_states (sts : list FWDCstate) : NoDup sts → (length sts ≤ 16)%nat.
Proof.
  intros Hnd. change 16%nat with (length all_states).
  apply submseteq_length, NoDup_submseteq; [assumption|].
  intros s _. apply all_states_complete.
Qed.

Lemma frontier_insert_length (k : Z) (p : ptr) (fr : Frontier) :
  length (frontier_insert k p fr) = S (length fr).
Proof.
  induction fr as [|[k' q] fr IH]; simpl; [reflexivity|].
  destruct (k <? k'); simpl; [reflexivity | rewrite IH; reflexivity].
Qed.

Lemma frontier_erase_length (key : Z) (p : ptr) (fr : Frontier) :
  ∀ fr', frontier_erase_in_range key p fr = Some fr' → length fr = S (length fr').
Proof.
  induction fr as [|[k' q] fr IH]; intros fr' H; simpl in H; [discriminate|].
  destruct (k' <? key).
  - destruct (frontier_erase_in_range key p fr) as [fr0|]; simpl in H; [|discriminate].
    inversion H; subst. simpl. rewrite (IH fr0 eq_refl). reflexivity.
  - destruct (k' =? key); [|discriminate].
    destruct (Nat.eqb q p); [inversion H; subst; reflexivity|].
    destruct (frontier_erase_in_range key p fr) as [fr0|]; simpl in H; [|discriminate].
    inversion H; subst. simpl. rewrite (IH fr0 eq_refl). reflexivity.
Qed.

(** Re-keying takes one entry out and puts one in. *)
Lemma rekeyed_length (nd : PSNode) (this : ptr) (c : Z) (fr : Frontier) :
  length (rekeyed nd this c fr) = length fr.
Proof.
  unfold rekeyed.
  destruct (frontier_erase_in_range (cost2reach nd) this fr) as [fr'|] eqn:E; [|reflexivity].
  rewrite frontier_insert_length. symmetry. apply frontier_erase_length in E. exact E.
Qed.

Lemma updateCostCond_frontier_length (fuel : nat) :
  ∀ this c np st r, updateCostCond fuel this c np st = Done r →
    length r.1.2 = length st.2.
Proof.
  induction fuel as [|fuel IH]; intros this c np [hp fr] r H; simpl in H; [discriminate|].
  destruct (deref hp this) as [nd| |]; simpl in H; try discriminate.
  destruct (c <? cost2reach nd); [|inversion H; subst; reflexivity].
  fold (rekeyed nd this c fr) in H.
  match type of H with
  | context [offer_to_children ?f ?cs ?s] =>
      destruct (offer_to_children f cs s) as [st'| |] eqn:E
  end; simpl in H; try discriminate.
  inversion H; subst; simpl. rewrite <- (rekeyed_length nd this c fr).
  clear H. revert E. generalize (rekeyed nd this c fr).
  generalize (<[this := mkNode (state nd) np c (projectedCost nd) (children nd)]> hp).
  induction (children nd) as [|x cs IHcs]; intros hp0 fr0 E; simpl in E.
  - inversion E; subst; reflexivity.
  - match type of E with
    | context [updateCostCond fuel ?a ?b ?d ?e] =>
        destruct (updateCostCond fuel a b d e) as [[[hp1 fr1] b1]| |] eqn:E1
    end; simpl in E; try discriminate.
    apply IH in E1. simpl in E1. rewrite <- E1. apply (IHcs hp1 fr1 E).
Qed.

(** The frontier grows only when the heap does. *)
Lemma process_successor_sizes (fuel : nat) (t : ptr) (s : FWDCstate) (w w' : World) :
  process_successor fuel t s w = Done w' →
  (length (frontier w') + length (heap w) = length (frontier w) + length (heap w'))%nat.
Proof.
  intros H. apply process_successor_cases in H. destruct H as (tn & Htn & Hcases).
  destruct Hcases as [[_ ->] | [(_ & q & hp1 & fr1 & b & tn1 & _ & Hupd & _ & -> & _ & -> & _)
                                 | (_ & _ & -> & _ & -> & _)]]; [reflexivity| |].
  - pose proof (updateCostCond_frontier_length _ _ _ _ _ _ Hupd) as Hfr.
    apply updateCostCond_refines, Forall2_length in Hupd. simpl in Hfr, Hupd.
    rewrite length_insert. lia.
  - rewrite frontier_insert_length, length_insert, length_app. simpl. lia.
Qed.

(** Entries in the frontier and passes begun add up to the nodes
    allocated. *)
Lemma search_point_sizes (fuel k : nat) (w : World) :
  search_point fuel k w → (length (frontier w) + k = length (heap w))%nat.
Proof.
  induction 1 as [w H | k w t cs w' _ IH _ Hpop | k w t tn s w' _ IH _ _ _ Hstep].
  - unfold initial_world in H. simpl in H. inversion H; subst; reflexivity.
  - apply pop_front_frame in Hpop. destruct Hpop as (Hh & _ & _ & [f Hf] & _).
    rewrite Hh. rewrite Hf in IH. simpl in IH. lia.
  - apply process_successor_sizes in Hstep. lia.
Qed.

(** C9: the run of [main] ends, after nine passes of its loop; in any
    search, the entries in the frontier and the passes begun add up to
    the nodes allocated, of which there are never more than sixteen, so
    no search begins more than sixteen passes; and every call of
    [updateCostCond] on an allocated node of a well-formed heap returns,
    having only lowered costs, none below its offer. *)
Theorem program_terminates :
  (∀ fuel, (9 ≤ fuel)%nat → ∃ w, main fuel = Done w) ∧
  (∃ w, world_after 9 1 = Done w ∧ searching w = false) ∧
  (∀ fuel k w, search_point fuel k w →
     (length (frontier w) + k = length (heap w) ∧ length (heap w) ≤ 16)%nat) ∧
  (∀ hp fr this c np,
     heap_wf hp → (this < length hp)%nat →
     ∃ fuel0 r, ∀ fuel, (fuel0 ≤ fuel)%nat →
       updateCostCond fuel this c np (hp, fr) = Done r ∧
       Forall2 (node_refines c) hp r.1.1).
Proof.
  split; [|split; [|split]].
  - intros fuel Hfuel.
    destruct (main_solves_in_seven_run) as (w & Hw & _).
    exists w. eapply main_fuel_mono; eassumption.
  - destruct nine_passes as (w & Hw & Hs & _). eauto.
  - intros fuel k w Hsp. split; [apply (search_point_sizes fuel k w Hsp)|].
    destruct (search_point_table fuel k w Hsp) as [Hok _].
    rewrite <- (length_fmap state). eapply at_most_sixteen_states, table_ok_NoDup, Hok.
  - intros hp fr this c np Hwf Hthis.
    destruct (updateCostCond_terminates (S (cost_slack c hp)) this c np hp fr Hwf Hthis)
      as [r Hr]; [lia|].
    exists (S (cost_slack c hp)), r. intros fuel Hfuel. split.
    + eapply updateCostCond_fuel_mono; eassumption.
    + apply (updateCostCond_refines _ _ _ _ _ _ Hr).
Qed.

Lemma program_terminates_witness :
  (∃ w, main 9 = Done w) ∧
  (∃ w, initial_world = Done w ∧
        (length (frontier w) + 0 = length (heap w) ∧ length (heap w) ≤ 16)%nat) ∧
  heap_wf mutual_pair ∧
  ∃ fuel0 r, ∀ fuel, (fuel0 ≤ fuel)%nat →
    updateCostCond fuel 1 3 (Some 0%nat) (mutual_pair, []) = Done r ∧
    Forall2 (node_refines 3) mutual_pair r.1.1.
Proof.
  split; [apply (proj1 program_terminates 9%nat); lia|].
  split.
  { eexists. split; [reflexivity|].
    apply (proj1 (proj2 (proj2 program_terminates)) 1%nat 0%nat).
    apply sp_init. reflexivity. }
  split; [exact (heap_wf_check mutual_pair eq_refl)|].
  apply (proj2 (proj2 (proj2 program_terminates)) mutual_pair [] 1%nat 3 (Some 0%nat)).
  - exact (heap_wf_check mutual_pair eq_refl).
  - simpl. lia.
Defined.

(** ** Cost revision: what the children hold afterwards *)

Lemma node_lowered_refl (c : Z) (np : option ptr) (nd : PSNode) : node_lowered c np nd nd.
Proof. unfold node_lowered; auto. Qed.

Lemma node_lowered_trans (c : Z) (np : option ptr) (a b d : PSNode) :
  node_lowered c np a b → node_lowered c np b d → node_lowered c np a d.
Proof.
  intros (Hs1 & Hp1 & Hc1 & H1) (Hs2 & Hp2 & Hc2 & H2).
  repeat split; try congruence.
  destruct H1 as [-> | [H1 Hn1]], H2 as [-> | [H2 Hn2]]; auto.
  right. split; [lia | assumption].
Qed.

(** What a deeper call does is allowed to the call above it. *)
Lemma node_lowered_deeper (c : Z) (np np' : option ptr) (a b : PSNode) :
  node_lowered (c + 1) np' a b → node_lowered c np a b.
Proof.
  intros (Hs & Hp & Hc & H). repeat split; try assumption.
  destruct H as [-> | [H _]]; auto. right. split; lia.
Qed.

Lemma node_lowered_refines (c : Z) (np : option ptr) (a b : PSNode) :
  node_lowered c np a b → node_refines c a b.
Proof.
  intros (Hs & Hp & Hc & H). repeat split; try assumption.
  destruct H as [-> | [H _]]; auto.
Qed.

Lemma heap_lowered_refl (c : Z) (np : option ptr) (hp : Heap) :
  Forall2 (node_lowered c np) hp hp.
Proof. apply Forall_Forall2_diag, Forall_forall. intros; apply node_lowered_refl. Qed.

Lemma heap_lowered_trans (c : Z) (np : option ptr) (hp1 hp2 hp3 : Heap) :
  Forall2 (node_lowered c np) hp1 hp2 → Forall2 (node_lowered c np) hp2 hp3 →
  Forall2 (node_lowered c np) hp1 hp3.
Proof.
  intros H12. revert hp3. induction H12; inversion 1; subst; constructor; eauto.
  eapply node_lowered_trans; eauto.
Qed.

Lemma heap_lowered_relax (hp : Heap) (this : ptr) (nd : PSNode) (c : Z) (np : option ptr) :
  hp !! this = Some nd → c < cost2reach nd →
  Forall2 (node_lowered c np) hp (<[this := relaxed nd c np]> hp).
Proof.
  intros Hnd Hlt. rewrite <- (list_insert_id hp this nd Hnd) at 1.
  apply Forall2_insert; [apply heap_lowered_refl|].
  unfold node_lowered, relaxed; simpl. repeat split; auto. right. split; [lia | auto].
Qed.

Lemma offer_to_children_lowers (rec : ptr → Store → outcome (Store * bool)) (c : Z)
    (np : option ptr) :
  (∀ x st r, rec x st = Done r → Forall2 (node_lowered c np) st.1 r.1.1) →
  ∀ cs st st', offer_to_children rec cs st = Done st' →
    Forall2 (node_lowered c np) st.1 st'.1.
Proof.
  intros Hrec cs; induction cs as [|x cs IH]; intros st st' H; simpl in H.
  - inversion H; subst. apply heap_lowered_refl.
  - destruct (rec x st) as [[st1 b]| |] eqn:E; simpl in H; try discriminate.
    apply Hrec in E; simpl in E. apply IH in H.
    eapply heap_lowered_trans; [apply E | apply H].
Qed.

(** A node that a call leaves at the cost of the offer has the parent
    that came with the offer. *)
Lemma updateCostCond_lowers (fuel : nat) :
  ∀ this c np st r, updateCostCond fuel this c np st = Done r →
    Forall2 (node_lowered c np) st.1 r.1.1.
Proof.
  induction fuel as [|fuel IH]; intros this c np [hp fr] r H; simpl in H; [discriminate|].
  unfold deref in H. destruct (hp !! this) as [nd|] eqn:Hnd; simpl in H; [|discriminate].
  destruct (c <? cost2reach nd) eqn:Hlt.
  - apply Z.ltb_lt in Hlt.
    match type of H with
    | context [offer_to_children ?f ?cs ?s] =>
        destruct (offer_to_children f cs s) as [st'| |] eqn:E
    end; simpl in H; try discriminate.
    inversion H; subst; simpl.
    apply offer_to_children_lowers with (c := c + 1) (np := Some this) in E;
      [|intros; eapply IH; eassumption].
    simpl in E.
    eapply heap_lowered_trans; [apply (heap_lowered_relax hp this nd c np Hnd Hlt)|].
    eapply Forall2_impl; [exact E|]. intros a b. apply node_lowered_deeper.
  - inversion H; subst; simpl. apply heap_lowered_refl.
Qed.

(** What a call leaves at the address it was made on. *)
Lemma updateCostCond_node_after (fuel : nat) (this : ptr) (c : Z) (np : option ptr)
    (hp : Heap) (fr : Frontier) (nd : PSNode) (r : Store * bool) :
  hp !! this = Some nd → updateCostCond fuel this c np (hp, fr) = Done r →
  r.1.1 !! this = Some (if decide (c < cost2reach nd) then relaxed nd c np else nd) ∧
  r.2 = bool_decide (c < cost2reach nd).
Proof.
  intros Hnd H. destruct fuel as [|fuel]; [discriminate|]. simpl in H.
  unfold deref in H. rewrite Hnd in H. simpl in H.
  destruct (decide (c < cost2reach nd)) as [Hlt | Hge].
  - rewrite (proj2 (Z.ltb_lt _ _) Hlt) in H.
    match type of H with
    | context [offer_to_children ?f ?cs ?s] =>
        destruct (offer_to_children f cs s) as [st'| |] eqn:E
    end; simpl in H; try discriminate.
    inversion H; subst; simpl. split; [|symmetry; apply bool_decide_eq_true; assumption].
    apply offer_to_children_refines with (c := c + 1) in E;
      [|intros; eapply updateCostCond_refines; eassumption].
    simpl in E.
    assert (Hthis : <[this := relaxed nd c np]> hp !! this = Some (relaxed nd c np))
      by (apply list_lookup_insert_eq; eapply lookup_lt_Some; eassumption).
    destruct (Forall2_lookup_l _ _ _ _ _ E Hthis) as (nd' & Hnd' & _ & _ & _ & [-> | Hc]);
      [assumption | unfold relaxed in Hc; simpl in Hc; lia].
  - rewrite (proj2 (Z.ltb_ge c (cost2reach nd)) ltac:(lia)) in H.
    inversion H; subst; simpl. split; [assumption|].
    symmetry; apply bool_decide_eq_false; assumption.
Qed.

(** A node lowered by offers of [c] that costs [c] at most in the end is
    the node the offer leaves. *)
Lemma node_lowered_settled (c : Z) (np : option ptr) (a b : PSNode) :
  node_lowered c np a b → cost2reach b ≤ c →
  b = if decide (c < cost2reach a) then relaxed a c np else a.
Proof.
  intros (Hs & Hp & Hc & H) Hle.
  destruct (decide (c < cost2reach a)) as [Hlt | Hge].
  - destruct H as [-> | [H Hn]]; [lia|].
    assert (cost2reach b = c) as Hb by lia. specialize (Hn Hb).
    destruct b; unfold relaxed; simpl in *; congruence.
  - destruct H as [-> | [H _]]; [reflexivity | lia].
Qed.

(** After the loop, every child costs the offer at most. *)
Lemma offer_to_children_cost_after (fuel : nat) (this : ptr) (c : Z) :
  ∀ cs st st',
    offer_to_children (fun x s => updateCostCond fuel x c (Some this) s) cs st = Done st' →
    ∀ x, x ∈ cs → ∃ b, st'.1 !! x = Some b ∧ cost2reach b ≤ c.
Proof.
  induction cs as [|y cs IH]; intros st st' H x Hx; simpl in H; [inversion Hx|].
  destruct (updateCostCond fuel y c (Some this) st) as [[st1 b1]| |] eqn:E; simpl in H;
    try discriminate.
  apply elem_of_cons in Hx. destruct Hx as [-> | Hx]; [|apply (IH st1 st' H x Hx)].
  destruct st as [hp fr].
  assert (∃ yn, hp !! y = Some yn) as [yn Hyn].
  { destruct fuel; [discriminate|]. simpl in E. unfold deref in E.
    destruct (hp !! y); [eauto | discriminate]. }
  destruct (updateCostCond_node_after _ _ _ _ _ _ _ _ Hyn E) as [Hafter _]. simpl in Hafter.
  apply offer_to_children_refines with (c := c) in H;
    [|intros; eapply updateCostCond_refines; eassumption].
  destruct (heap_refines_cost _ _ _ _ _ H Hafter) as (b & Hb & Hle).
  exists b. split; [assumption|].
  destruct (decide (c < cost2reach yn)); simpl in Hle; lia.
Qed.

(** What the loop over the children leaves at each child. *)
Lemma offer_to_children_child_after (fuel : nat) (this : ptr) (c : Z) (cs : list ptr)
    (st st' : Store) (x : ptr) (a : PSNode) :
  offer_to_children (fun x s => updateCostCond fuel x c (Some this) s) cs st = Done st' →
  x ∈ cs → st.1 !! x = Some a →
  st'.1 !! x = Some (if decide (c < cost2reach a) then relaxed a c (Some this) else a).
Proof.
  intros H Hx Ha.
  destruct (offer_to_children_cost_after fuel this c cs st st' H x Hx) as (b & Hb & Hle).
  apply offer_to_children_lowers with (c := c) (np := Some this) in H;
    [|intros; eapply updateCostCond_lowers; eassumption].
  destruct (Forall2_lookup_l _ _ _ _ _ H Ha) as (b' & Hb' & Hlow).
  assert (b' = b) as -> by congruence.
  rewrite Hb. f_equal. apply (node_lowered_settled c (Some this) a b Hlow Hle).
Qed.

(** ** Cost revision: no sum overflows *)

Lemma wrap_int_fits (z : Z) : is_int z → wrap_int z = z.
Proof.
  unfold is_int, int_min, int_max, wrap_int. intros H.
  rewrite Z.mod_small; lia.
Qed.

Lemma node_fits_refines (c : Z) (a b : PSNode) :
  is_int c → node_refines c a b → node_fits a → node_fits b.
Proof.
  unfold is_int, node_fits. intros Hc (Hs & Hp & Hch & H) (Hi & Hh & Hf).
  destruct H as [-> | H]; [auto|]. rewrite Hp. repeat split; lia.
Qed.

Lemma heap_fits_refines (c : Z) (hp hp' : Heap) :
  is_int c → Forall2 (node_refines c) hp hp' → Forall node_fits hp → Forall node_fits hp'.
Proof.
  intros Hc H. induction H as [|a b hp hp' Hab _ IH]; intros Hall; [constructor|].
  inversion Hall; subst. constructor; [eapply node_fits_refines; eassumption | auto].
Qed.

Lemma offer_to_children_agree (rec1 rec2 : ptr → Store → outcome (Store * bool))
    (I : Store → Prop) :
  (∀ x st, I st → rec1 x st = rec2 x st) →
  (∀ x st r, I st → rec2 x st = Done r → I r.1) →
  ∀ cs st, I st → offer_to_children rec1 cs st = offer_to_children rec2 cs st.
Proof.
  intros Heq Hinv cs; induction cs as [|x cs IH]; intros st Hst; simpl; [reflexivity|].
  rewrite (Heq x st Hst).
  destruct (rec2 x st) as [[st1 b]| |] eqn:E; simpl; try reflexivity.
  apply IH. apply (Hinv x st (st1, b) Hst E).
Qed.

(** Where every node fits, no sum of a call leaves the range of [int]:
    the run that wraps its sums is the run that does not. *)
Lemma updateCostCond_int_agrees (fuel : nat) :
  ∀ this c np hp fr, is_int c → Forall node_fits hp →
    updateCostCond_int fuel this c np (hp, fr) = updateCostCond fuel this c np (hp, fr).
Proof.
  induction fuel as [|fuel IH]; intros this c np hp fr Hc Hfit; simpl; [reflexivity|].
  unfold deref. destruct (hp !! this) as [nd|] eqn:Hnd; simpl; [|reflexivity].
  destruct (c <? cost2reach nd) eqn:Hlt; [|reflexivity].
  apply Z.ltb_lt in Hlt.
  pose proof (proj1 (Forall_lookup _ _) Hfit this nd Hnd) as (Hi & Hh & Hf).
  assert (Hc1 : is_int (c + 1)) by (unfold is_int in *; lia).
  assert (Hck : is_int (c + projectedCost nd)) by (unfold is_int in *; lia).
  rewrite (wrap_int_fits _ Hc1), (wrap_int_fits _ Hck).
  rewrite (offer_to_children_agree
             (fun x s => updateCostCond_int fuel x (c + 1) (Some this) s)
             (fun x s => updateCostCond fuel x (c + 1) (Some this) s)
             (fun s => Forall node_fits s.1)); [reflexivity| | |].
  - intros x [hp0 fr0] H0. apply IH; assumption.
  - intros x st r H0 Hr. apply updateCostCond_refines in Hr.
    apply (heap_fits_refines (c + 1) st.1); assumption.
  - simpl. apply (heap_fits_refines c hp); [assumption | | assumption].
    apply (heap_refines_relax hp this nd c np Hnd Hlt).
Qed.

(** C3: a call on an allocated node of a well-formed heap returns.  It
    accepts exactly when [newcost] is below the node's cost.  An accepted
    call records [newcost] and [newparent], offers [newcost + 1] with the
    node itself as parent to each child in turn and returns true; when it
    returns, the node still holds [newcost] and [newparent]; every child
    that cost more than [newcost + 1] costs [newcost + 1] and has the
    node as parent, every other child is as it was; and no other node
    has changed but for a cost lowered to [newcost + 1] at least.  A
    refused call returns false and changes nothing at all.  The fields of
    the nodes and [newcost] are taken to be [int]s, with heuristics that
    are not negative and cost plus heuristic an [int]: then no sum of
    the call overflows, and the run with sums wrapped to 32 bits is the
    run stated here. *)
Theorem updateCostCond_contract (hp : Heap) (fr : Frontier) (this : ptr) (nd : PSNode)
    (newcost : Z) (newparent : option ptr) :
  heap_wf hp → Forall node_fits hp → is_int newcost → hp !! this = Some nd →
  ∃ fuel0, ∀ fuel, (fuel0 ≤ fuel)%nat →
    updateCostCond_int fuel this newcost newparent (hp, fr)
    = updateCostCond fuel this newcost newparent (hp, fr) ∧
    if decide (newcost < cost2reach nd) then
      ∃ hp' fr',
        updateCostCond fuel this newcost newparent (hp, fr) = Done (hp', fr', true) ∧
        offer_to_children
          (fun child st => updateCostCond fuel child (newcost + 1) (Some this) st)
          (children nd)
          (<[this := relaxed nd newcost newparent]> hp, rekeyed nd this newcost fr)
        = Done (hp', fr') ∧
        hp' !! this = Some (relaxed nd newcost newparent) ∧
        (∀ c cn, c ∈ children nd → c ≠ this → hp !! c = Some cn →
           hp' !! c = Some (if decide (newcost + 1 < cost2reach cn)
                            then relaxed cn (newcost + 1) (Some this) else cn)) ∧
        (∀ i x, i ≠ this → hp !! i = Some x →
           ∃ x', hp' !! i = Some x' ∧ node_lowered (newcost + 1) (Some this) x x')
    else
      updateCostCond fuel this newcost newparent (hp, fr) = Done (hp, fr, false).
Proof.
  intros Hwf Hfit Hint Hnd. exists (S (cost_slack newcost hp)). intros fuel Hfuel.
  split; [apply updateCostCond_int_agrees; assumption|].
  destruct (updateCostCond_terminates fuel this newcost newparent hp fr Hwf) as [r Hr];
    [eapply lookup_lt_Some; eassumption | lia |].
  destruct fuel as [|f]; [lia|].
  pose proof Hr as Hr'. simpl in Hr'. unfold deref in Hr'. rewrite Hnd in Hr'; simpl in Hr'.
  fold (relaxed nd newcost newparent) in Hr'. fold (rekeyed nd this newcost fr) in Hr'.
  destruct (decide (newcost < cost2reach nd)) as [Hlt | Hge].
  - rewrite (proj2 (Z.ltb_lt _ _) Hlt) in Hr'.
    match type of Hr' with
    | context [offer_to_children ?g ?cs ?s] =>
        destruct (offer_to_children g cs s) as [[hp' fr']| |] eqn:E
    end; simpl in Hr'; try discriminate.
    exists hp', fr'. split; [rewrite Hr; congruence|]. split.
    { eapply offer_to_children_mono; [|exact E].
      intros x st r0. apply updateCostCond_fuel_mono. lia. }
    split.
    { destruct (updateCostCond_node_after _ _ _ _ _ _ _ _ Hnd Hr) as [Hafter _].
      rewrite decide_True in Hafter by assumption.
      inversion Hr'; subst r. exact Hafter. }
    split.
    + intros c cn Hc Hne Hcn.
      apply (offer_to_children_child_after f this (newcost + 1) (children nd) _ _ c cn E Hc).
      simpl. rewrite list_lookup_insert_ne by congruence. assumption.
    + intros i x Hne Hx.
      apply offer_to_children_lowers with (c := newcost + 1) (np := Some this) in E;
        [|intros; eapply updateCostCond_lowers; eassumption].
      simpl in E.
      apply (Forall2_lookup_l _ _ _ i x E).
      rewrite list_lookup_insert_ne by congruence. assumption.
  - rewrite (proj2 (Z.ltb_ge newcost (cost2reach nd)) ltac:(lia)) in Hr'.
    rewrite Hr. congruence.
Qed.

Lemma mutual_pair_fits : Forall node_fits mutual_pair ∧ is_int 2.
Proof.
  split; [|unfold is_int, int_min, int_max; lia].
  repeat constructor; unfold is_int, int_min, int_max; simpl; lia.
Qed.

Lemma updateCostCond_contract_witness :
  heap_wf mutual_pair ∧ Forall node_fits mutual_pair ∧ is_int 2 ∧
  ∃ fuel0, ∀ fuel, (fuel0 ≤ fuel)%nat →
    updateCostCond_int fuel 0 2 None (mutual_pair, [(8, 0%nat); (11, 1%nat)])
    = updateCostCond fuel 0 2 None (mutual_pair, [(8, 0%nat); (11, 1%nat)]) ∧
    ∃ hp' fr',
      updateCostCond fuel 0 2 None (mutual_pair, [(8, 0%nat); (11, 1%nat)])
      = Done (hp', fr', true) ∧
      offer_to_children
        (fun child st => updateCostCond fuel child (2 + 1) (Some 0%nat) st) [1%nat]
        (<[0%nat := mkNode start_state None 2 3 [1%nat]]> mutual_pair,
         [(8, 0%nat); (11, 1%nat)])
      = Done (hp', fr') ∧
      hp' !! 0%nat = Some (mkNode start_state None 2 3 [1%nat]) ∧
      (∀ c cn, c ∈ [1%nat] → c ≠ 0%nat → mutual_pair !! c = Some cn →
         hp' !! c = Some (if decide (2 + 1 < cost2reach cn)
                          then relaxed cn (2 + 1) (Some 0%nat) else cn)) ∧
      (∀ i x, i ≠ 0%nat → mutual_pair !! i = Some x →
         ∃ x', hp' !! i = Some x' ∧ node_lowered (2 + 1) (Some 0%nat) x x').
Proof.
  split; [exact (heap_wf_check mutual_pair eq_refl)|].
  split; [exact (proj1 mutual_pair_fits)|]. split; [exact (proj2 mutual_pair_fits)|].
  exact (updateCostCond_contract mutual_pair [(8, 0%nat); (11, 1%nat)] 0
           (mkNode start_state None 5 3 [1%nat]) 2 None
           (heap_wf_check mutual_pair eq_refl) (proj1 mutual_pair_fits)
           (proj2 mutual_pair_fits) eq_refl).
Defined.

(** ** The parent's state among the successors *)

(** C7, as stated, fails: the second pass of the run expands the node of
    [FD||WC], whose parent is the start node.  The start state is the
    first of its successors, and it is not excluded: the pass reports it
    as generated, offers the start node a relaxation (which it refuses),
    and appends the start node to the children of the expanded node. *)
Lemma second_pass_processes_parent :
  ∃ w w' tn pn tn',
    world_after 1 1 = Done w ∧ frontier w = [(3, 1%nat)] ∧
    heap w !! 1%nat = Some tn ∧ state tn = mkState true false true false ∧
    parent tn = Some 0%nat ∧ heap w !! 0%nat = Some pn ∧ state pn = start_state ∧
    expand_front 1 w = Done w' ∧ heap w' !! 1%nat = Some tn' ∧
    OutGenerated (state pn) ∈ drop (length (output w)) (output w') ∧
    reports_regenerated (state pn) (drop (length (output w)) (output w')) = true ∧
    0%nat ∈ drop (length (children tn)) (children tn').
Proof.
  eexists _, _, _, _, _.
  split; [vm_compute; reflexivity|].
  do 6 (split; [reflexivity|]).
  split; [vm_compute; reflexivity|].
  split; [reflexivity|].
  split; [|split; [vm_compute; reflexivity|]].
  - apply (bool_decide_unpack _). vm_compute. exact I.
  - apply (bool_decide_unpack _). vm_compute. exact I.
Qed.

(** C7, amended: the state of the parent of a node is not excluded.  At
    every point of the search and for every node with a parent, the
    parent's state is among the successors of the node's state and
    passes the test of line 230, which compares with the node's own
    state; [generated] binds it to the parent; and the body of the inner
    loop, run for it, reports it as generated and regenerated, offers
    the parent the cost of the node plus one, which the parent refuses
    (no update), and appends the parent to the children of the node. *)
Theorem parent_state_is_processed (fuel fuel' k : nat) (w : World) (t p : ptr)
    (tn pn : PSNode) :
  search_point fuel k w → (1 ≤ fuel')%nat →
  heap w !! t = Some tn → parent tn = Some p → heap w !! p = Some pn →
  state pn ∈ nextStates (state tn) ∧
  state_neq (state pn) (state tn) = true ∧
  generated w !! state pn = Some p ∧
  updateCostCond fuel' p (cost2reach tn + 1) (Some t) (heap w, frontier w)
  = Done (heap w, frontier w, false) ∧
  process_successor fuel' t (state pn) w
  = Done (mkWorld (<[t := push_child tn p]> (heap w)) (generated w) (frontier w)
            (winningNode w)
            (output w ++ [OutGenerated (state pn); OutRegenerated; OutNoUpdate;
                          OutCosts (cost2reach pn) (projectedCost pn)
                            (cost2reach pn + projectedCost pn)])).
Proof.
  intros Hsp Hfuel Ht Hpar Hp.
  pose proof (search_point_heap_inv fuel k w Hsp) as [Hg Htight].
  destruct (search_point_table fuel k w Hsp) as [Hok _].
  destruct (g_edges _ _ Hg t tn Ht) as [_ He]. rewrite Hpar in He.
  destruct He as (pn' & Hpn' & Hstep & _).
  assert (pn' = pn) as -> by congruence.
  specialize (Htight t). unfold tight in Htight. rewrite Ht, Hpar, Hp in Htight.
  assert (Hback : state pn ∈ nextStates (state tn)) by (apply nextStates_reversible, Hstep).
  assert (Hneq : state_neq (state pn) (state tn) = true).
  { apply state_neq_spec. intros Heq. rewrite Heq in Hback.
    apply nextStates_flips_farmer in Hback. destruct (FL (state tn)); discriminate. }
  assert (Hgen : generated w !! state pn = Some p).
  { apply Hok. rewrite list_lookup_fmap, Hp. reflexivity. }
  assert (Hupd : updateCostCond fuel' p (cost2reach tn + 1) (Some t) (heap w, frontier w)
                 = Done (heap w, frontier w, false)).
  { destruct fuel' as [|f]; [lia|]. simpl. unfold deref. rewrite Hp. simpl.
    rewrite (proj2 (Z.ltb_ge (cost2reach tn + 1) (cost2reach pn)) ltac:(lia)). reflexivity. }
  assert (Hne : t ≠ p).
  { intros ->. assert (tn = pn) as -> by congruence.
    apply state_neq_spec in Hneq. congruence. }
  do 4 (split; [assumption|]).
  assert (Hdt : deref (heap w) t = Done tn) by (apply deref_Done; assumption).
  assert (Hdp : deref (<[t := push_child tn p]> (heap w)) p = Done pn).
  { apply deref_Done. rewrite list_lookup_insert_ne by assumption. assumption. }
  unfold process_successor. rewrite Hdt. simpl. rewrite Hneq.
  simpl. rewrite Hgen. simpl. rewrite Hupd. simpl.
  unfold map_at. simpl. rewrite Hgen. simpl. rewrite Hdt. simpl. rewrite Hdp. simpl.
  unfold emit. simpl. rewrite <- !app_assoc. reflexivity.
Qed.

Lemma parent_state_is_processed_witness :
  ∃ w0 w tn pn,
    initial_world = Done w0 ∧ expand_front 1 w0 = Done w ∧
    heap w !! 1%nat = Some tn ∧ parent tn = Some 0%nat ∧ heap w !! 0%nat = Some pn ∧
    state pn ∈ nextStates (state tn) ∧
    state_neq (state pn) (state tn) = true ∧
    generated w !! state pn = Some 0%nat ∧
    updateCostCond 1 0 (cost2reach tn + 1) (Some 1%nat) (heap w, frontier w)
    = Done (heap w, frontier w, false) ∧
    process_successor 1 1 (state pn) w
    = Done (mkWorld (<[1%nat := push_child tn 0]> (heap w)) (generated w) (frontier w)
              (winningNode w)
              (output w ++ [OutGenerated (state pn); OutRegenerated; OutNoUpdate;
                            OutCosts (cost2reach pn) (projectedCost pn)
                              (cost2reach pn + projectedCost pn)])).
Proof.
  eexists _, _, _, _.
  split; [reflexivity|]. split; [vm_compute; reflexivity|].
  split; [reflexivity|]. split; [reflexivity|]. split; [reflexivity|].
  apply (parent_state_is_processed 1 1 1 _ 1%nat 0%nat);
    [ | lia | reflexivity | reflexivity | reflexivity].
  apply (expand_front_search_point 1 0 _ _ (sp_init 1 _ eq_refl) eq_refl).
  vm_compute; reflexivity.
Defined.

(** ** Further properties of the puzzle state *)

(** X1.  [operator<] orders the states as the four-bit numbers FWDC with
    the farmer as the high bit: [a < b] holds exactly when the number of
    [a] is below that of [b], two states have the same number only when
    they are equal, and every number is below 16.  So [operator<] is the
    strict total order that a [std::map] key needs. *)
Theorem state_lt_is_rank_order (a b : FWDCstate) :
  (state_lt a b = true ↔ (state_rank a < state_rank b)%nat) ∧
  (state_rank a = state_rank b ↔ a = b) ∧
  (state_rank a < 16)%nat.
Proof.
  each_pair a b; vm_compute; repeat split; intros; try lia; try congruence.
Qed.

(** X2.  [operator==] is the negation of [operator!=], and the two decide
    whether all four flags agree. *)
Theorem state_eq_neq_decide (a b : FWDCstate) :
  state_eq a b = negb (state_neq a b) ∧
  (state_eq a b = true ↔ a = b) ∧
  (state_neq a b = true ↔ a ≠ b).
Proof.
  split; [each_pair a b; reflexivity|].
  split; [apply state_eq_spec | apply state_neq_spec].
Qed.

(** X3.  [toString] writes eight characters for every state, and two
    states print the same only when they are the same state. *)
Theorem toString_injective (a b : FWDCstate) :
  String.length (toString a) = 8%nat ∧ (toString a = toString b ↔ a = b).
Proof.
  split; [each_state a; reflexivity|].
  each_pair a b; vm_compute; split; intros H; first [reflexivity | discriminate H].
Qed.

Lemma nextStates_supervised (s t : FWDCstate) : t ∈ nextStates s → supervised t.
Proof. intros H. each_state s; each_successor H; split; simpl; congruence. Qed.

Lemma single_crossing_items (s t : FWDCstate) :
  single_crossing s t →
  FL t = negb (FL s) ∧
  (WL t ≠ WL s → WL s = FL s) ∧ (DL t ≠ DL s → DL s = FL s) ∧
  (CL t ≠ CL s → CL s = FL s) ∧ (items_moved s t ≤ 1)%nat.
Proof.
  intros (Hf & Hitems & Hcount). split; [assumption|].
  repeat split; try assumption; intros Hne.
  - apply (Hitems WL); [repeat constructor | assumption].
  - apply (Hitems DL); [repeat constructor | assumption].
  - apply (Hitems CL); [repeat constructor | assumption].
Qed.

(** X4.  [nextStates] leaves no legal move out: from a state in which the
    duck is supervised, every state that one crossing of the farmer with
    at most one item from his bank leads to, and in which the duck is
    still supervised, is in the vector returned. *)
Theorem nextStates_complete (s t : FWDCstate) :
  supervised s → single_crossing s t → supervised t → t ∈ nextStates s.
Proof.
  intros Hs Hx Ht. apply single_crossing_items in Hx.
  destruct Hx as (Hf & Hw & Hd & Hc & Hcount).
  destruct Hs as [Hs1 Hs2], Ht as [Ht1 Ht2].
  each_pair s t; cbn in *;
    first [ discriminate Hf
          | exfalso; lia
          | exfalso; (discriminate (Hw ltac:(discriminate)) ||
                      discriminate (Hd ltac:(discriminate)) ||
                      discriminate (Hc ltac:(discriminate)) ||
                      discriminate (Hs1 eq_refl) || discriminate (Hs2 eq_refl) ||
                      discriminate (Ht1 eq_refl) || discriminate (Ht2 eq_refl))
          | apply list_elem_of_In; simpl; tauto ].
Qed.

Lemma nextStates_complete_witness :
  supervised start_state ∧
  single_crossing start_state (mkState true false true false) ∧
  supervised (mkState true false true false) ∧
  mkState true false true false ∈ nextStates start_state.
Proof.
  assert (Hs : supervised start_state) by (split; reflexivity).
  assert (Ht : supervised (mkState true false true false)) by (split; simpl; congruence).
  assert (Hx : single_crossing start_state (mkState true false true false)).
  { split; [reflexivity|]. split; [|vm_compute; lia].
    intros item Hi Hne. apply list_elem_of_In in Hi. simpl in Hi.
    destruct Hi as [<- | [<- | [<- | []]]]; simpl in *; auto; congruence. }
  split; [exact Hs|]. split; [exact Hx|]. split; [exact Ht|].
  exact (nextStates_complete _ _ Hs Hx Ht).
Defined.

(** X5.  The vector that [nextStates] returns holds no state twice and at
    most three states; from a state in which the duck is supervised it is
    not empty. *)
Theorem nextStates_shape (s : FWDCstate) :
  NoDup (nextStates s) ∧ (length (nextStates s) ≤ 3)%nat ∧
  (supervised s → nextStates s ≠ []).
Proof.
  split; [|split].
  - each_state s; vm_compute; repeat constructor;
      rewrite ?not_elem_of_cons; repeat split; try discriminate; apply not_elem_of_nil.
  - each_state s; vm_compute; lia.
  - intros [H1 H2]. each_state s; simpl in *; vm_compute; try discriminate;
      first [discriminate (H1 eq_refl) | discriminate (H2 eq_refl)].
Qed.

Lemma nextStates_shape_witness :
  supervised goal_state ∧ nextStates goal_state ≠ [].
Proof.
  assert (Hs : supervised goal_state) by (split; reflexivity).
  split; [exact Hs|]. exact (proj2 (proj2 (nextStates_shape goal_state)) Hs).
Defined.

(** X6.  On the states in which the duck is supervised, [h] lies between
    0 and 3 and is 0 exactly on the winning state. *)
Theorem h_zero_at_goal_only (s : FWDCstate) :
  supervised s → 0 ≤ h s ≤ 3 ∧ (h s = 0 ↔ isWinning s = true).
Proof.
  intros [H1 H2]. each_state s; simpl in *; vm_compute;
    first [ discriminate (H1 eq_refl) | discriminate (H2 eq_refl)
          | split; [split; discriminate | split; intros H; first [reflexivity | discriminate H]] ].
Qed.

Lemma h_zero_at_goal_only_witness :
  supervised goal_state ∧ 0 ≤ h goal_state ≤ 3 ∧ (h goal_state = 0 ↔ isWinning goal_state = true).
Proof.
  assert (Hs : supervised goal_state) by (split; reflexivity).
  split; [exact Hs|]. exact (h_zero_at_goal_only goal_state Hs).
Defined.

(** X7.  One move changes [h] by at most one, up or down. *)
Theorem h_changes_by_one (s t : FWDCstate) :
  t ∈ nextStates s → h t - 1 ≤ h s ≤ h t + 1.
Proof. intros H. each_state s; each_successor H; vm_compute; split; discriminate. Qed.

Lemma h_changes_by_one_witness :
  mkState true false true false ∈ nextStates start_state ∧
  h (mkState true false true false) - 1 ≤ h start_state ≤ h (mkState true false true false) + 1.
Proof.
  assert (H : mkState true false true false ∈ nextStates start_state)
    by (vm_compute; apply list_elem_of_here).
  split; [exact H | exact (h_changes_by_one _ _ H)].
Defined.

(** ** Further properties of cost revision *)

(** After a call, the node costs no more than the offer. *)
Lemma updateCostCond_cost_after (fuel : nat) (this : ptr) (c : Z) (np : option ptr)
    (st : Store) (r : Store * bool) :
  updateCostCond fuel this c np st = Done r →
  ∃ nd', r.1.1 !! this = Some nd' ∧ cost2reach nd' ≤ c.
Proof.
  destruct fuel as [|fuel]; [discriminate|]. destruct st as [hp fr]. simpl.
  destruct (deref hp this) as [nd| |] eqn:Hnd; simpl; try discriminate.
  apply deref_Done in Hnd.
  destruct (c <? cost2reach nd) eqn:Hlt.
  - apply Z.ltb_lt in Hlt.
    match goal with
    | |- context [offer_to_children ?f ?cs ?s] =>
        destruct (offer_to_children f cs s) as [st'| |] eqn:E
    end; simpl; try discriminate.
    intros [= <-]. simpl.
    apply offer_to_children_refines with (c := c + 1) in E;
      [|intros; eapply updateCostCond_refines; eassumption].
    simpl in E. exists (relaxed nd c np). split; [|simpl; lia].
    eapply heap_refines_frame; [exact E | | simpl; lia].
    apply list_lookup_insert_eq. eapply lookup_lt_Some; eassumption.
  - apply Z.ltb_ge in Hlt. intros [= <-]. simpl. eauto.
Qed.

(** X8.  Once a call of [updateCostCond] with the offer [c] has returned,
    a further offer [c' >= c] to the same node, whatever parent comes
    with it, is refused and leaves heap and frontier as they are. *)
Theorem updateCostCond_repeat_refused (fuel fuel' : nat) (this : ptr) (c c' : Z)
    (np np' : option ptr) (st st' : Store) (b : bool) :
  updateCostCond fuel this c np st = Done (st', b) → c ≤ c' →
  updateCostCond (S fuel') this c' np' st' = Done (st', false).
Proof.
  intros H Hc. apply updateCostCond_cost_after in H. simpl in H.
  destruct H as (nd' & Hnd' & Hle). destruct st' as [hp' fr']. simpl in *.
  unfold deref. rewrite Hnd'. simpl.
  rewrite (proj2 (Z.ltb_ge c' (cost2reach nd')) ltac:(lia)). reflexivity.
Qed.

Lemma updateCostCond_repeat_refused_witness :
  updateCostCond 3 0 2 None (mutual_pair, [(8, 0%nat); (11, 1%nat)])
  = Done ([mkNode start_state None 2 3 [1%nat];
           mkNode (mkState true false true false) (Some 0%nat) 3 2 [0%nat]],
          [(8, 0%nat); (11, 1%nat)], true) ∧
  updateCostCond 1 0 2 (Some 1%nat)
    ([mkNode start_state None 2 3 [1%nat];
      mkNode (mkState true false true false) (Some 0%nat) 3 2 [0%nat]],
     [(8, 0%nat); (11, 1%nat)])
  = Done ([mkNode start_state None 2 3 [1%nat];
           mkNode (mkState true false true false) (Some 0%nat) 3 2 [0%nat]],
          [(8, 0%nat); (11, 1%nat)], false).
Proof.
  assert (H : updateCostCond 3 0 2 None (mutual_pair, [(8, 0%nat); (11, 1%nat)])
              = Done ([mkNode start_state None 2 3 [1%nat];
                       mkNode (mkState true false true false) (Some 0%nat) 3 2 [0%nat]],
                      [(8, 0%nat); (11, 1%nat)], true)) by reflexivity.
  split; [exact H|].
  exact (updateCostCond_repeat_refused 3 0 0 2 2 None (Some 1%nat) _ _ true H ltac:(lia)).
Defined.

Lemma frontier_insert_perm (k : Z) (p : ptr) (fr : Frontier) :
  frontier_insert k p fr ≡ₚ (k, p) :: fr.
Proof.
  induction fr as [|[k' q] fr IH]; simpl; [reflexivity|].
  destruct (k <? k'); [reflexivity|]. rewrite IH. apply Permutation_swap.
Qed.

Lemma frontier_erase_perm (key : Z) (p : ptr) (fr : Frontier) :
  ∀ fr', frontier_erase_in_range key p fr = Some fr' → fr ≡ₚ (key, p) :: fr'.
Proof.
  induction fr as [|[k' q] fr IH]; intros fr' H; simpl in H; [discriminate|].
  destruct (k' <? key).
  - destruct (frontier_erase_in_range key p fr) as [fr0|]; simpl in H; [|discriminate].
    inversion H; subst. rewrite (IH fr0 eq_refl). apply Permutation_swap.
  - destruct (k' =? key) eqn:Hk; [|discriminate]. apply Z.eqb_eq in Hk. subst k'.
    destruct (Nat.eqb q p) eqn:Hq.
    + apply Nat.eqb_eq in Hq. subst q. inversion H; subst. reflexivity.
    + destruct (frontier_erase_in_range key p fr) as [fr0|]; simpl in H; [|discriminate].
      inversion H; subst. rewrite (IH fr0 eq_refl). apply Permutation_swap.
Qed.

Lemma rekeyed_nodes (nd : PSNode) (this : ptr) (c : Z) (fr : Frontier) :
  (rekeyed nd this c fr).*2 ≡ₚ fr.*2.
Proof.
  unfold rekeyed.
  destruct (frontier_erase_in_range (cost2reach nd) this fr) as [fr'|] eqn:E; [|reflexivity].
  rewrite frontier_insert_perm. apply frontier_erase_perm in E. rewrite E. reflexivity.
Qed.

Lemma updateCostCond_frontier_nodes (fuel : nat) :
  ∀ this c np st r, updateCostCond fuel this c np st = Done r → r.1.2.*2 ≡ₚ st.2.*2.
Proof.
  induction fuel as [|fuel IH]; intros this c np [hp fr] r H; simpl in H; [discriminate|].
  destruct (deref hp this) as [nd| |]; simpl in H; try discriminate.
  destruct (c <? cost2reach nd); [|inversion H; subst; reflexivity].
  fold (rekeyed nd this c fr) in H.
  match type of H with
  | context [offer_to_children ?f ?cs ?s] =>
      destruct (offer_to_children f cs s) as [st'| |] eqn:E
  end; simpl in H; try discriminate.
  inversion H; subst; simpl. rewrite <- (rekeyed_nodes nd this c fr).
  clear H. revert E. generalize (rekeyed nd this c fr).
  generalize (<[this := mkNode (state nd) np c (projectedCost nd) (children nd)]> hp).
  induction (children nd) as [|x cs IHcs]; intros hp0 fr0 E; simpl in E.
  - inversion E; subst; reflexivity.
  - match type of E with
    | context [updateCostCond fuel ?a ?b ?d ?e] =>
        destruct (updateCostCond fuel a b d e) as [[[hp1 fr1] b1]| |] eqn:E1
    end; simpl in E; try discriminate.
    apply IH in E1. simpl in E1. rewrite <- E1. apply (IHcs hp1 fr1 E).
Qed.

(** X9.  [updateCostCond] neither adds a node to the frontier nor drops
    one, and allocates nothing: the frontier holds the same nodes after
    the call as before, whatever their keys, and the heap has the same
    size.  A call that returns [false] has changed nothing at all. *)
Theorem updateCostCond_keeps_frontier_nodes (fuel : nat) (this : ptr) (c : Z)
    (np : option ptr) (hp hp' : Heap) (fr fr' : Frontier) (b : bool) :
  updateCostCond fuel this c np (hp, fr) = Done (hp', fr', b) →
  fr'.*2 ≡ₚ fr.*2 ∧ length hp' = length hp ∧
  (b = false → hp' = hp ∧ fr' = fr).
Proof.
  intros H. split; [apply (updateCostCond_frontier_nodes _ _ _ _ _ _ H)|].
  split; [symmetry; apply (Forall2_length _ _ _ (updateCostCond_refines _ _ _ _ _ _ H))|].
  intros ->. destruct fuel as [|fuel]; [discriminate|]. simpl in H.
  destruct (deref hp this) as [nd| |]; simpl in H; try discriminate.
  destruct (c <? cost2reach nd); [|inversion H; auto].
  match type of H with
  | context [offer_to_children ?f ?cs ?s] => destruct (offer_to_children f cs s)
  end; simpl in H; discriminate.
Qed.

Lemma updateCostCond_keeps_frontier_nodes_witness :
  updateCostCond 3 0 2 None (mutual_pair, [(5, 0%nat); (9, 1%nat)])
  = Done ([mkNode start_state None 2 3 [1%nat];
           mkNode (mkState true false true false) (Some 0%nat) 3 2 [0%nat]],
          [(5, 0%nat); (5, 1%nat)], true) ∧
  [(5, 0%nat); (5, 1%nat)].*2 ≡ₚ [(5, 0%nat); (9, 1%nat)].*2.
Proof.
  assert (H : updateCostCond 3 0 2 None (mutual_pair, [(5, 0%nat); (9, 1%nat)])
              = Done ([mkNode start_state None 2 3 [1%nat];
                       mkNode (mkState true false true false) (Some 0%nat) 3 2 [0%nat]],
                      [(5, 0%nat); (5, 1%nat)], true)) by reflexivity.
  split; [exact H|].
  exact (proj1 (updateCostCond_keeps_frontier_nodes _ _ _ _ _ _ _ _ _ H)).
Defined.

(** ** Further properties of the search *)

Lemma reach_snoc (n : nat) (s t u : FWDCstate) :
  reach n s t → u ∈ nextStates t → reach (S n) s u.
Proof.
  induction 1 as [s | n s t0 t Hstep _ IH]; intros Hu.
  - econstructor; [exact Hu | constructor].
  - econstructor; [exact Hstep | apply IH, Hu].
Qed.

Lemma reach_supervised (n : nat) (s t : FWDCstate) :
  reach n s t → supervised s → supervised t.
Proof.
  induction 1 as [s | n s t0 t Hstep _ IH]; intros Hs; [assumption|].
  apply IH. eapply nextStates_supervised; eassumption.
Qed.

(** In a heap in order, a node wraps a state that its cost many moves
    reach from the start. *)
Lemma heap_inv_reach (hp : Heap) :
  heap_inv hp →
  ∀ k i nd, hp !! i = Some nd → cost2reach nd = Z.of_nat k → reach k start_state (state nd).
Proof.
  intros [Hg Htight]. induction k as [|k IH]; intros i nd Hnd Hcost.
  - destruct (g_edges _ _ Hg i nd Hnd) as [_ He].
    destruct (parent nd) as [p|] eqn:Hpar.
    + destruct He as (pn & Hpn & _ & Hc).
      destruct (g_edges _ _ Hg p pn Hpn) as [Hpos _]. lia.
    + destruct He as [-> _]. destruct (g_root _ _ Hg) as (n0 & Hn0 & Hs0 & _).
      assert (n0 = nd) as -> by congruence. rewrite Hs0. constructor.
  - destruct (g_edges _ _ Hg i nd Hnd) as [_ He].
    destruct (parent nd) as [p|] eqn:Hpar; [|lia].
    destruct He as (pn & Hpn & Hstep & _).
    specialize (Htight i). unfold tight in Htight. rewrite Hnd, Hpar, Hpn in Htight.
    eapply reach_snoc; [|exact Hstep]. apply (IH p pn Hpn). lia.
Qed.

(** A property of single nodes that cost revision and [push_back] keep
    holds of every node of a search once it holds of new nodes. *)
Lemma search_point_Forall (P : PSNode → Prop) (fuel k : nat) (w : World) :
  P (mkNode start_state None 0 (h start_state) []) →
  (∀ s t c, P (mkNode s (Some t) c (h s) [])) →
  (∀ nd c np, P nd → P (relaxed nd c np)) →
  (∀ nd q, P nd → P (push_child nd q)) →
  search_point fuel k w → Forall P (heap w).
Proof.
  intros Hstart Hnew Hrelax Hpush.
  assert (Href : ∀ c hp hp', Forall2 (node_refines c) hp hp' → Forall P hp → Forall P hp').
  { intros c hp hp' H. induction H as [|x y hp hp' Hxy _ IH]; intros Hall; [constructor|].
    inversion Hall; subst. constructor; [|auto].
    destruct Hxy as (Hs & Hp & Hc & [-> | Hlt]); [assumption|].
    replace y with (relaxed x (cost2reach y) (parent y)); [auto|].
    destruct x, y; unfold relaxed; simpl in *; congruence. }
  induction 1 as [w H | k w t cs w' _ IH _ Hpop | k w t tn s w' _ IH Ht _ _ Hstep].
  - unfold initial_world in H. simpl in H. inversion H; subst; simpl. auto.
  - apply pop_front_frame in Hpop. destruct Hpop as (-> & _). exact IH.
  - apply process_successor_cases in Hstep. destruct Hstep as (tn0 & Ht0 & Hcases).
    assert (tn0 = tn) as -> by congruence.
    destruct Hcases as [[_ ->] | [(_ & q & hp1 & fr1 & b & tn1 & _ & Hupd & Ht1 & -> & _)
                                   | (_ & _ & -> & _)]]; [assumption| |].
    + apply updateCostCond_refines in Hupd. simpl in Hupd.
      pose proof (Href _ _ _ Hupd IH) as H1.
      apply Forall_insert; [assumption|]. apply Hpush.
      rewrite Forall_lookup in H1. eauto.
    + apply Forall_insert; [apply Forall_app; split; [assumption | repeat constructor; auto]|].
      apply Hpush. rewrite Forall_lookup in IH. eauto.
Qed.

(** No node costs as much as there are nodes. *)
Lemma search_point_cost_bound (fuel k : nat) (w : World) :
  search_point fuel k w →
  ∀ i nd, heap w !! i = Some nd → cost2reach nd < Z.of_nat (length (heap w)).
Proof.
  induction 1 as [w H | k w t cs w' _ IH _ Hpop | k w t tn s w' _ IH Ht _ _ Hstep];
    intros i nd Hnd.
  - unfold initial_world in H. simpl in H. inversion H; subst; simpl in *.
    destruct i; [inversion Hnd; subst; simpl; lia | discriminate].
  - apply pop_front_frame in Hpop. destruct Hpop as (Hh & _). rewrite Hh in *. eauto.
  - apply process_successor_cases in Hstep. destruct Hstep as (tn0 & Ht0 & Hcases).
    assert (tn0 = tn) as -> by congruence.
    destruct Hcases as [[_ ->] | [(_ & q & hp1 & fr1 & b & tn1 & _ & Hupd & Ht1 & Hh & _)
                                   | (_ & _ & Hh & _)]]; [eauto| |]; rewrite Hh in *.
    + apply updateCostCond_refines in Hupd. simpl in Hupd.
      rewrite length_insert, <- (Forall2_length _ _ _ Hupd).
      assert (∃ nd1, hp1 !! i = Some nd1 ∧ cost2reach nd1 = cost2reach nd)
        as (nd1 & Hnd1 & <-).
      { rewrite (lookup_relaxed hp1 t tn1 _ _ Ht1) in Hnd.
        destruct (decide (i = t)) as [-> | _]; [|eauto].
        inversion Hnd; subst. eauto. }
      destruct (Forall2_lookup_r _ _ _ _ _ Hupd Hnd1) as (nd0 & Hnd0 & _ & _ & _ & Hor).
      specialize (IH i nd0 Hnd0). destruct Hor as [-> | ?]; lia.
    + rewrite length_insert, length_app. simpl.
      assert (Ht' : (heap w ++ [mkNode s (Some t) (cost2reach tn + 1) (h s) []]) !! t
                    = Some tn) by (apply lookup_app_l_Some; assumption).
      assert (∃ nd1, (heap w ++ [mkNode s (Some t) (cost2reach tn + 1) (h s) []]) !! i
                     = Some nd1 ∧ cost2reach nd1 = cost2reach nd) as (nd1 & Hnd1 & <-).
      { rewrite (lookup_relaxed _ t tn _ _ Ht') in Hnd.
        destruct (decide (i = t)) as [-> | _]; [|eauto].
        inversion Hnd; subst. eauto. }
      apply lookup_app_Some in Hnd1. destruct Hnd1 as [Hnd1 | [Hlen Hnd1]].
      * specialize (IH i nd1 Hnd1). lia.
      * destruct (i - length (heap w))%nat; simpl in Hnd1; [|discriminate].
        inversion Hnd1; subst. simpl. specialize (IH t tn Ht). lia.
Qed.

Lemma search_point_heuristic (fuel k : nat) (w : World) :
  search_point fuel k w →
  ∀ i nd, heap w !! i = Some nd → projectedCost nd = h (state nd).
Proof.
  intros Hsp. apply Forall_lookup.
  apply (search_point_Forall (fun nd => projectedCost nd = h (state nd)) fuel k w); auto.
Qed.

Lemma search_point_reach (fuel k : nat) (w : World) :
  search_point fuel k w →
  ∀ i nd, heap w !! i = Some nd →
    0 ≤ cost2reach nd ∧ reach (Z.to_nat (cost2reach nd)) start_state (state nd) ∧
    supervised (state nd).
Proof.
  intros Hsp i nd Hnd.
  pose proof (search_point_heap_inv fuel k w Hsp) as Hinv.
  destruct (g_edges _ _ (proj1 Hinv) i nd Hnd) as [Hpos _].
  assert (Hr : reach (Z.to_nat (cost2reach nd)) start_state (state nd))
    by (apply (heap_inv_reach _ Hinv _ i nd Hnd); lia).
  split; [assumption|]. split; [assumption|].
  eapply reach_supervised; [exact Hr | split; reflexivity].
Qed.

(** X10.  At every point of the search, a node costs less than there are
    nodes, its cost many moves lead from the start state to the state it
    wraps, the duck is supervised in that state, and [projectedCost] is
    [h] of that state. *)
Theorem nodes_wrap_reached_states (fuel k : nat) (w : World) (i : ptr) (nd : PSNode) :
  search_point fuel k w → heap w !! i = Some nd →
  0 ≤ cost2reach nd < Z.of_nat (length (heap w)) ∧
  reach (Z.to_nat (cost2reach nd)) start_state (state nd) ∧
  supervised (state nd) ∧
  projectedCost nd = h (state nd).
Proof.
  intros Hsp Hnd.
  destruct (search_point_reach fuel k w Hsp i nd Hnd) as (Hpos & Hr & Hs).
  pose proof (search_point_cost_bound fuel k w Hsp i nd Hnd).
  pose proof (search_point_heuristic fuel k w Hsp i nd Hnd).
  auto.
Qed.

Lemma nodes_wrap_reached_states_witness :
  ∃ w nd, initial_world = Done w ∧ heap w !! 0%nat = Some nd ∧
    0 ≤ cost2reach nd < Z.of_nat (length (heap w)) ∧
    reach (Z.to_nat (cost2reach nd)) start_state (state nd) ∧
    supervised (state nd) ∧
    projectedCost nd = h (state nd).
Proof.
  eexists _, _. split; [reflexivity|]. split; [reflexivity|].
  apply (nodes_wrap_reached_states 1 0 _ 0%nat); [apply sp_init|]; reflexivity.
Defined.

Lemma frontier_erase_elem (key : Z) (p : ptr) (fr fr' : Frontier) :
  frontier_erase_in_range key p fr = Some fr' → (key, p) ∈ fr.
Proof.
  intros H. apply frontier_erase_perm in H. rewrite H. left.
Qed.

Lemma search_point_frontier_ok (fuel k : nat) (w : World) :
  search_point fuel k w → frontier_ok (heap w) (frontier w).
Proof.
  induction 1 as [w H | k w t cs w' _ IH _ Hpop | k w t tn s w' _ IH Ht _ _ Hstep].
  - unfold initial_world in H. simpl in H. inversion H; subst; simpl.
    split; [repeat constructor; apply not_elem_of_nil|].
    intros p Hp. apply list_elem_of_singleton in Hp. subst. simpl. lia.
  - apply pop_front_frame in Hpop. destruct Hpop as (Hh & _ & _ & [f Hf] & _).
    rewrite Hh. destruct IH as [Hnd Hval]. rewrite Hf in Hnd, Hval. simpl in *.
    apply NoDup_cons in Hnd. destruct Hnd as [_ Hnd]. split; [assumption|].
    intros p Hp. apply Hval. right. assumption.
  - destruct IH as [Hnd Hval].
    apply process_successor_cases in Hstep. destruct Hstep as (tn0 & Ht0 & Hcases).
    destruct Hcases as [[_ ->] | [(_ & q & hp1 & fr1 & b & tn1 & _ & Hupd & _ & -> & _ & -> & _)
                                   | (_ & _ & -> & _ & -> & _)]]; [split; assumption| |].
    + pose proof (updateCostCond_frontier_nodes _ _ _ _ _ _ Hupd) as Hperm.
      apply updateCostCond_refines, Forall2_length in Hupd. simpl in Hperm, Hupd.
      unfold frontier_ok. rewrite length_insert, <- Hupd. split.
      * rewrite Hperm. assumption.
      * intros p Hp. rewrite Hperm in Hp. auto.
    + unfold frontier_ok. rewrite length_insert, length_app. simpl.
      pose proof (frontier_insert_perm (cost2reach tn0 + 1 + h s) (length (heap w)) (frontier w))
        as Hperm.
      apply (fmap_Permutation snd) in Hperm. simpl in Hperm. split.
      * rewrite Hperm. apply NoDup_cons. split; [|assumption].
        intros Hin. apply Hval in Hin. lia.
      * intros p Hp. rewrite Hperm in Hp. apply elem_of_cons in Hp.
        destruct Hp as [-> | Hp]; [lia|]. apply Hval in Hp. lia.
Qed.

(** X11.  At every point of the search, the frontier holds no node twice,
    every entry points to an allocated node, and the entries together
    with the passes begun count the nodes allocated. *)
Theorem frontier_holds_each_node_once (fuel k : nat) (w : World) :
  search_point fuel k w →
  NoDup (frontier w).*2 ∧
  (∀ f p, (f, p) ∈ frontier w → is_Some (heap w !! p)) ∧
  (length (frontier w) + k = length (heap w))%nat.
Proof.
  intros Hsp. destruct (search_point_frontier_ok fuel k w Hsp) as [Hnd Hval].
  split; [assumption|]. split; [|apply (search_point_sizes fuel k w Hsp)].
  intros f p Hin. apply lookup_lt_is_Some_2, Hval.
  apply list_elem_of_fmap. exists (f, p). auto.
Qed.

Lemma frontier_holds_each_node_once_witness :
  ∃ w, initial_world = Done w ∧
    NoDup (frontier w).*2 ∧
    (∀ f p, (f, p) ∈ frontier w → is_Some (heap w !! p)) ∧
    (length (frontier w) + 0 = length (heap w))%nat.
Proof.
  eexists. split; [reflexivity|].
  apply (frontier_holds_each_node_once 1 0). apply sp_init. reflexivity.
Defined.

(** X12.  The head of a pass takes the first entry off the frontier; no
    entry of the frontier has a smaller key, the node taken is allocated,
    its successors are the ones the pass runs through, and the node is
    not left in the frontier. *)
Theorem pass_expands_least_key (fuel k : nat) (w w' : World) (t : ptr)
    (cs : list FWDCstate) :
  search_point fuel k w → pop_front w = Done (t, cs, w') →
  ∃ f tn, frontier w = (f, t) :: frontier w' ∧
          (∀ f' p, (f', p) ∈ frontier w → f ≤ f') ∧
          heap w !! t = Some tn ∧ cs = nextStates (state tn) ∧
          t ∉ (frontier w').*2.
Proof.
  intros Hsp Hpop.
  pose proof (search_point_sorted fuel k w Hsp) as Hsorted.
  destruct (search_point_frontier_ok fuel k w Hsp) as [Hnd _].
  apply pop_front_frame in Hpop. destruct Hpop as (_ & _ & _ & [f Hf] & tn & Htn & Hcs).
  exists f, tn. rewrite Hf in Hsorted, Hnd |- *. simpl in Hsorted, Hnd.
  destruct Hsorted as [Hall _]. apply NoDup_cons in Hnd. destruct Hnd as [Hnotin _].
  split; [reflexivity|]. split; [|auto].
  intros f' p Hin. apply elem_of_cons in Hin. destruct Hin as [[= -> ->] | Hin]; [lia|].
  rewrite Forall_forall in Hall. apply (Hall (f', p) Hin).
Qed.

Lemma pass_expands_least_key_witness :
  ∃ w w' t cs, initial_world = Done w ∧ pop_front w = Done (t, cs, w') ∧
    ∃ f tn, frontier w = (f, t) :: frontier w' ∧
            (∀ f' p, (f', p) ∈ frontier w → f ≤ f') ∧
            heap w !! t = Some tn ∧ cs = nextStates (state tn) ∧
            t ∉ (frontier w').*2.
Proof.
  eexists _, _, _, _. split; [reflexivity|]. split; [reflexivity|].
  apply (pass_expands_least_key 1 0); [apply sp_init|]; reflexivity.
Defined.

Lemma h_pos_unless_goal (s : FWDCstate) :
  supervised s → isWinning s = false → 1 ≤ h s.
Proof.
  intros [H1 H2]. each_state s; simpl in *; vm_compute; intros Hw;
    first [ discriminate Hw | discriminate (H1 eq_refl) | discriminate (H2 eq_refl)
          | discriminate ].
Qed.

Lemma keys_above_refines (c : Z) (hp hp' : Heap) (fr : Frontier) :
  Forall2 (node_refines c) hp hp' → keys_above hp fr → keys_above hp' fr.
Proof.
  intros Href Hk k p Hin. destruct (Hk k p Hin) as (nd & Hnd & Hlt).
  destruct (heap_refines_cost _ _ _ _ _ Href Hnd) as (nd' & Hnd' & Hle).
  exists nd'. split; [assumption | lia].
Qed.

(** Where every key is above the cost of its node, the scan of
    [updateCostCond] finds no entry to re-key. *)
Lemma updateCostCond_keys_frozen (fuel : nat) :
  ∀ this c np hp fr r,
    keys_above hp fr → updateCostCond fuel this c np (hp, fr) = Done r → r.1.2 = fr.
Proof.
  induction fuel as [|fuel IH]; intros this c np hp fr r Hk H; simpl in H; [discriminate|].
  destruct (deref hp this) as [nd| |] eqn:Hnd; simpl in H; try discriminate.
  apply deref_Done in Hnd.
  destruct (c <? cost2reach nd) eqn:Hlt; [|inversion H; subst; reflexivity].
  apply Z.ltb_lt in Hlt.
  destruct (frontier_erase_in_range (cost2reach nd) this fr) as [fr0|] eqn:E.
  { apply frontier_erase_elem in E. destruct (Hk _ _ E) as (nd0 & Hnd0 & Hlt0).
    assert (nd0 = nd) as -> by congruence. lia. }
  pose proof (keys_above_refines _ _ _ fr (heap_refines_relax hp this nd c np Hnd Hlt) Hk)
    as Hk1.
  unfold relaxed in Hk1.
  match type of H with
  | context [offer_to_children ?f ?cs ?s] =>
      destruct (offer_to_children f cs s) as [st'| |] eqn:E'
  end; simpl in H; try discriminate.
  inversion H; subst; simpl. clear H.
  revert E' Hk1.
  generalize (<[this := mkNode (state nd) np c (projectedCost nd) (children nd)]> hp).
  induction (children nd) as [|x cs IHcs]; intros hp0 E' Hk0; simpl in E'.
  - inversion E'; subst; reflexivity.
  - match type of E' with
    | context [updateCostCond fuel ?a ?b ?d ?e] =>
        destruct (updateCostCond fuel a b d e) as [[[hp1 fr1] b1]| |] eqn:E1
    end; simpl in E'; try discriminate.
    pose proof (IH _ _ _ _ _ _ Hk0 E1) as Hfr. simpl in Hfr. subst fr1.
    apply updateCostCond_refines in E1. simpl in E1.
    apply (IHcs hp1 E'). eapply keys_above_refines; eassumption.
Qed.

Lemma search_point_keys_above (fuel k : nat) (w : World) :
  search_point fuel k w → winningNode w = None → keys_above (heap w) (frontier w).
Proof.
  induction 1 as [w H | k w t cs w' _ IH _ Hpop | k w t tn s w' Hsp IH Ht Hs Hnone Hstep];
    intros Hwin.
  - unfold initial_world in H. simpl in H. inversion H; subst; simpl.
    intros k p Hin. apply list_elem_of_singleton in Hin. inversion Hin; subst.
    eexists. split; [reflexivity|]. simpl. lia.
  - apply pop_front_frame in Hpop. destruct Hpop as (Hh & _ & Hw & [f Hf] & _).
    rewrite Hh. rewrite Hw in Hwin. specialize (IH Hwin). rewrite Hf in IH.
    intros k0 p Hin. apply IH. right. assumption.
  - specialize (IH Hnone).
    pose proof (search_point_reach fuel k w Hsp t tn Ht) as (_ & _ & Hsup).
    apply process_successor_cases in Hstep. destruct Hstep as (tn0 & Ht0 & Hcases).
    assert (tn0 = tn) as -> by congruence.
    destruct Hcases as [[_ ->] | [(_ & q & hp1 & fr1 & b & tn1 & _ & Hupd & Ht1 & Hh & _ & Hf & _)
                                   | (_ & _ & Hh & _ & Hf & Hw)]]; [assumption| |].
    + pose proof (updateCostCond_keys_frozen _ _ _ _ _ _ _ IH Hupd) as Hfr. simpl in Hfr.
      apply updateCostCond_refines in Hupd. simpl in Hupd.
      pose proof (keys_above_refines _ _ _ _ Hupd IH) as Hk1.
      rewrite Hh, Hf, Hfr. intros k0 p Hin. destruct (Hk1 k0 p Hin) as (nd & Hnd & Hlt).
      rewrite (lookup_relaxed hp1 t tn1 _ _ Ht1).
      destruct (decide (p = t)) as [-> | _]; [|eauto].
      assert (nd = tn1) as -> by congruence. eexists. split; [reflexivity|]. assumption.
    + rewrite Hw in Hwin. destruct (isWinning s) eqn:Hws; [discriminate|].
      pose proof (h_pos_unless_goal s (nextStates_supervised _ _ Hs) Hws) as Hpos.
      rewrite Hh, Hf. intros k0 p Hin.
      assert (Ht' : (heap w ++ [mkNode s (Some t) (cost2reach tn + 1) (h s) []]) !! t
                    = Some tn) by (apply lookup_app_l_Some; assumption).
      rewrite (lookup_relaxed _ t tn _ _ Ht').
      rewrite frontier_insert_perm in Hin. apply elem_of_cons in Hin.
      destruct Hin as [[= -> ->] | Hin].
      * destruct (decide (length (heap w) = t)) as [<- | _].
        { apply lookup_lt_Some in Ht. lia. }
        rewrite list_lookup_middle by reflexivity.
        eexists. split; [reflexivity|]. simpl. lia.
      * destruct (IH k0 p Hin) as (nd & Hnd & Hlt).
        destruct (decide (p = t)) as [-> | _].
        -- assert (nd = tn) as -> by congruence. eexists. split; [reflexivity|]. assumption.
        -- exists nd. split; [apply lookup_app_l_Some; assumption | assumption].
Qed.

(** X13.  While no winning node is set, every frontier key is above the
    cost of its node, so the scan of [updateCostCond] over the keys equal
    to the cost finds nothing: no call, with any arguments, changes the
    frontier, and the body of the inner loop leaves the frontier as it is
    or inserts the entry of the node it has just allocated. *)
Theorem search_never_rekeys (fuel k : nat) (w : World) :
  search_point fuel k w → winningNode w = None →
  (∀ f p, (f, p) ∈ frontier w → ∃ nd, heap w !! p = Some nd ∧ cost2reach nd < f) ∧
  (∀ fuel' this c np r,
     updateCostCond fuel' this c np (heap w, frontier w) = Done r → r.1.2 = frontier w) ∧
  (∀ t s w', process_successor fuel t s w = Done w' →
     frontier w' = frontier w ∨
     generated w !! s = None ∧
     ∃ tn, heap w !! t = Some tn ∧
           frontier w' = frontier_insert (cost2reach tn + 1 + h s) (length (heap w))
                           (frontier w)).
Proof.
  intros Hsp Hwin. pose proof (search_point_keys_above fuel k w Hsp Hwin) as Hk.
  split; [exact Hk|]. split.
  - intros fuel' this c np r H. apply (updateCostCond_keys_frozen _ _ _ _ _ _ _ Hk H).
  - intros t s w' Hstep.
    apply process_successor_cases in Hstep. destruct Hstep as (tn & Ht & Hcases).
    destruct Hcases as [[_ ->] | [(_ & q & hp1 & fr1 & b & tn1 & _ & Hupd & _ & _ & _ & Hf & _)
                                   | (_ & Hnone & _ & _ & Hf & _)]]; [left; reflexivity| |].
    + left. rewrite Hf. apply (updateCostCond_keys_frozen _ _ _ _ _ _ _ Hk Hupd).
    + right. eauto.
Qed.

Lemma search_never_rekeys_witness :
  ∃ w, initial_world = Done w ∧ winningNode w = None ∧
    (∀ f p, (f, p) ∈ frontier w → ∃ nd, heap w !! p = Some nd ∧ cost2reach nd < f) ∧
    (∀ fuel' this c np r,
       updateCostCond fuel' this c np (heap w, frontier w) = Done r → r.1.2 = frontier w) ∧
    (∀ t s w', process_successor 1 t s w = Done w' →
       frontier w' = frontier w ∨
       generated w !! s = None ∧
       ∃ tn, heap w !! t = Some tn ∧
             frontier w' = frontier_insert (cost2reach tn + 1 + h s) (length (heap w))
                             (frontier w)).
Proof.
  eexists. split; [reflexivity|]. split; [reflexivity|].
  apply (search_never_rekeys 1 0); [apply sp_init|]; reflexivity.
Defined.

Lemma cost_slack_bound (c : Z) (b : nat) (hp : Heap) :
  0 ≤ c → Forall (fun nd => cost2reach nd ≤ Z.of_nat b) hp →
  (cost_slack c hp ≤ length hp * b)%nat.
Proof.
  intros Hc. induction 1 as [|x hp Hx _ IH]; [reflexivity|].
  rewrite cost_slack_cons. simpl length.
  assert (Z.to_nat (cost2reach x - c) ≤ b)%nat by lia.
  replace (S (length hp) * b)%nat with (b + length hp * b)%nat by reflexivity.
  apply Nat.add_le_mono; assumption.
Qed.

Lemma heap_inv_wf (hp : Heap) : heap_inv hp → heap_wf hp.
Proof.
  intros [Hg _] i nd c Hnd Hc.
  destruct (g_children _ _ Hg i nd c Hnd Hc) as (cn & Hcn & _).
  eapply lookup_lt_Some; eassumption.
Qed.

(** Fuel that covers every cost revision of every search. *)
Lemma search_point_slack (fuel k : nat) (w : World) (c : Z) :
  search_point fuel k w → 0 ≤ c → (cost_slack c (heap w) < 256)%nat.
Proof.
  intros Hsp Hc.
  assert (Hlen : (length (heap w) ≤ 16)%nat).
  { destruct (search_point_table fuel k w Hsp) as [Hok _].
    rewrite <- (length_fmap state). eapply at_most_sixteen_states, table_ok_NoDup, Hok. }
  assert (Hall : Forall (fun nd => cost2reach nd ≤ Z.of_nat 15) (heap w)).
  { apply Forall_lookup. intros i nd Hnd.
    pose proof (search_point_cost_bound fuel k w Hsp i nd Hnd). lia. }
  pose proof (cost_slack_bound c 15 (heap w) Hc Hall) as Hb.
  assert (length (heap w) * 15 ≤ 16 * 15)%nat by (apply Nat.mul_le_mono_r; assumption).
  simpl in *. lia.
Qed.

Lemma process_successor_progress (fuel k : nat) (w : World) (t : ptr) (tn : PSNode)
    (s : FWDCstate) :
  search_point fuel k w → (256 ≤ fuel)%nat → heap w !! t = Some tn →
  ∃ w', process_successor fuel t s w = Done w'.
Proof.
  intros Hsp Hfuel Ht.
  pose proof (search_point_heap_inv fuel k w Hsp) as Hinv.
  destruct (search_point_table fuel k w Hsp) as [Hok _].
  destruct (g_edges _ _ (proj1 Hinv) t tn Ht) as [Hpos _].
  assert (Hd : deref (heap w) t = Done tn) by (apply deref_Done; assumption).
  unfold process_successor. rewrite Hd. simpl.
  destruct (state_neq s (state tn)); [|eauto].
  destruct (generated w !! s) as [q|] eqn:Hq; simpl.
  - pose proof Hq as Hq'. apply Hok in Hq'. apply lookup_lt_Some in Hq'.
    rewrite length_fmap in Hq'.
    destruct (updateCostCond_terminates fuel q (cost2reach tn + 1) (Some t) (heap w)
                (frontier w) (heap_inv_wf _ Hinv) Hq') as [[[hp1 fr1] b] Hr].
    { pose proof (search_point_slack fuel k w (cost2reach tn + 1) Hsp ltac:(lia)). lia. }
    rewrite Hr. simpl.
    apply updateCostCond_refines, Forall2_length in Hr. simpl in Hr.
    unfold map_at. simpl. rewrite Hq. simpl.
    destruct (lookup_lt_is_Some_2 hp1 t) as [tn1 Ht1];
      [rewrite <- Hr; eapply lookup_lt_Some; eassumption|].
    rewrite (proj2 (deref_Done hp1 t tn1) Ht1). simpl.
    match goal with
    | |- context [deref ?l q] =>
        destruct (lookup_lt_is_Some_2 l q) as [qn Hqn];
          [rewrite length_insert, <- Hr; assumption|];
        rewrite (proj2 (deref_Done l q qn) Hqn)
    end.
    simpl. eauto.
  - unfold new_PSNode. rewrite Hd. simpl.
    unfold map_insert, map_at. simpl. rewrite Hq.
    set (nd := mkNode s (Some t) (cost2reach tn + 1) (h s) []).
    assert (Hd' : deref (heap w ++ [nd]) t = Done tn)
      by (apply deref_Done, lookup_app_l_Some; assumption).
    destruct (isWinning s); simpl; rewrite lookup_insert_eq; simpl; rewrite Hd'; simpl.
    + match goal with
      | |- context [deref ?l (length (heap w))] =>
          destruct (lookup_lt_is_Some_2 l (length (heap w))) as [qn Hqn];
            [rewrite length_insert, length_app; simpl; lia|];
          rewrite (proj2 (deref_Done l _ qn) Hqn)
      end.
      simpl. eauto.
    + match goal with
      | |- context [deref ?l (length (heap w))] =>
          destruct (lookup_lt_is_Some_2 l (length (heap w))) as [qn Hqn];
            [rewrite length_insert, length_app; simpl; lia|];
          rewrite (proj2 (deref_Done l _ qn) Hqn)
      end.
      simpl. eauto.
Qed.

Lemma expand_loop_progress (fuel k : nat) (t : ptr) (cs : list FWDCstate) :
  (256 ≤ fuel)%nat →
  ∀ w tn, search_point fuel k w → heap w !! t = Some tn →
    (∀ s, s ∈ cs → s ∈ nextStates (state tn)) →
    ∃ w', expand_loop fuel t cs w = Done w'.
Proof.
  intros Hfuel. induction cs as [|s cs IH]; intros w tn Hsp Ht Hcs; simpl; [eauto|].
  destruct (winningNode w) eqn:Hwin; [eauto|].
  destruct (process_successor_progress fuel k w t tn s Hsp Hfuel Ht) as [w1 E].
  rewrite E. simpl.
  destruct (process_successor_keeps_state _ _ _ _ _ _ _ E Ht) as (tn1 & Ht1 & Hst1).
  apply (IH w1 tn1); [|assumption|].
  - eapply sp_successor; try eassumption. apply Hcs. left.
  - intros s' Hs'. rewrite Hst1. apply Hcs. right. assumption.
Qed.

Lemma dump_frontier_progress (hp : Heap) (fr : Frontier) :
  (∀ p, p ∈ fr.*2 → (p < length hp)%nat) → ∀ w, ∃ w', dump_frontier hp fr w = Done w'.
Proof.
  induction fr as [|[f p] fr IH]; intros Hval w; simpl; [eauto|].
  destruct (lookup_lt_is_Some_2 hp p) as [nd Hnd]; [apply Hval; left|].
  rewrite (proj2 (deref_Done hp p nd) Hnd). simpl.
  apply IH. intros p' Hp'. apply Hval. right. assumption.
Qed.

Lemma expand_front_progress (fuel k : nat) (w : World) :
  search_point fuel k w → (256 ≤ fuel)%nat → searching w = true →
  ∃ w', expand_front fuel w = Done w'.
Proof.
  intros Hsp Hfuel Hs.
  destruct (search_point_frontier_ok fuel k w Hsp) as [_ Hval].
  assert (Hpop : ∃ t cs w1, pop_front w = Done (t, cs, w1)).
  { unfold pop_front.
    destruct (dump_frontier_progress (heap w) (frontier w) Hval (emit OutFrontierHeader w))
      as [w1 E].
    rewrite E. simpl. apply dump_frontier_frame in E. simpl in E.
    destruct E as (Hh & _ & Hf & _). rewrite Hf, Hh.
    unfold searching in Hs. destruct (winningNode w); [discriminate|].
    destruct (frontier w) as [|[f t] fr'] eqn:Hfr; [discriminate|].
    destruct (lookup_lt_is_Some_2 (heap w) t) as [tn Htn]; [apply Hval; left|].
    rewrite (proj2 (deref_Done _ t tn) Htn). simpl. eauto. }
  destruct Hpop as (t & cs & w1 & Hpop). unfold expand_front. rewrite Hpop. simpl.
  pose proof (pop_front_frame _ _ _ _ Hpop) as (Hh & _ & _ & _ & tn & Ht & ->).
  apply (expand_loop_progress fuel (S k) t _ Hfuel w1 tn).
  - eapply sp_pop; eassumption.
  - rewrite Hh. assumption.
  - auto.
Qed.

(** X14.  A pass of the [while] loop never dereferences a null or
    unallocated pointer and never looks up a state that [generated] does
    not bind: from every point of the search at which the loop goes on,
    the pass returns, with 256 levels for the recursion of
    [updateCostCond], at a point of the search again. *)
Theorem pass_never_faults (fuel k : nat) (w : World) :
  search_point fuel k w → (256 ≤ fuel)%nat → searching w = true →
  ∃ w', expand_front fuel w = Done w' ∧ search_point fuel (S k) w'.
Proof.
  intros Hsp Hfuel Hs. destruct (expand_front_progress fuel k w Hsp Hfuel Hs) as [w' E].
  exists w'. split; [assumption|]. eapply expand_front_search_point; eassumption.
Qed.

Lemma pass_never_faults_witness :
  ∃ w, initial_world = Done w ∧ searching w = true ∧
    ∃ w', expand_front 256 w = Done w' ∧ search_point 256 1 w'.
Proof.
  eexists. split; [reflexivity|]. split; [reflexivity|].
  apply (pass_never_faults 256 0); [apply sp_init; reflexivity | lia | reflexivity].
Defined.

Lemma run_iters_ends (fuel : nat) :
  (256 ≤ fuel)%nat →
  ∀ n k w, search_point fuel k w → (16 ≤ k + n)%nat →
    ∃ w', run_iters n fuel w = Done w' ∧ searching w' = false.
Proof.
  intros Hfuel. induction n as [|n IH]; intros k w Hsp Hk; simpl.
  - exists w. split; [reflexivity|].
    pose proof (search_point_sizes fuel k w Hsp) as Hsz.
    assert (Hlen : (length (heap w) ≤ 16)%nat).
    { destruct (search_point_table fuel k w Hsp) as [Hok _].
      rewrite <- (length_fmap state). eapply at_most_sixteen_states, table_ok_NoDup, Hok. }
    unfold searching. destruct (winningNode w); [reflexivity|].
    destruct (frontier w); [reflexivity | simpl in Hsz; lia].
  - destruct (searching w) eqn:Hs; [|eauto].
    destruct (expand_front_progress fuel k w Hsp Hfuel Hs) as [w1 E]. rewrite E. simpl.
    apply (IH (S k) w1); [|lia]. eapply expand_front_search_point; eassumption.
Qed.

(** X15.  From every point of the search the [while] loop ends: at most
    16 passes have begun, and the passes still missing to 16 are enough
    for the loop to return with its condition false. *)
Theorem search_ends_within_sixteen_passes (fuel k : nat) (w : World) :
  search_point fuel k w → (256 ≤ fuel)%nat →
  (k ≤ 16)%nat ∧
  ∃ w' k', search_loop (16 - k) fuel w = Done w' ∧ searching w' = false ∧
           search_point fuel k' w' ∧ (k' ≤ 16)%nat.
Proof.
  intros Hsp Hfuel.
  assert (Hbound : ∀ k0 w0, search_point fuel k0 w0 → (k0 ≤ 16)%nat).
  { intros k0 w0 Hsp0. pose proof (search_point_sizes fuel k0 w0 Hsp0) as Hsz.
    destruct (search_point_table fuel k0 w0 Hsp0) as [Hok _].
    assert (length (heap w0) ≤ 16)%nat
      by (rewrite <- (length_fmap state); eapply at_most_sixteen_states, table_ok_NoDup, Hok).
    lia. }
  split; [apply (Hbound k w Hsp)|].
  destruct (run_iters_ends fuel Hfuel (16 - k) k w Hsp ltac:(lia)) as (w' & Hrun & Hend).
  destruct (run_iters_search_point fuel (16 - k) k w w' Hsp Hrun) as (k' & _ & Hsp').
  exists w', k'. unfold search_loop. rewrite Hrun. simpl. rewrite Hend.
  repeat split; try assumption; try reflexivity. apply (Hbound k' w' Hsp').
Qed.

Lemma search_ends_within_sixteen_passes_witness :
  ∃ w, initial_world = Done w ∧
    (0 ≤ 16)%nat ∧
    ∃ w' k', search_loop (16 - 0) 256 w = Done w' ∧ searching w' = false ∧
             search_point 256 k' w' ∧ (k' ≤ 16)%nat.
Proof.
  eexists. split; [reflexivity|].
  apply (search_ends_within_sixteen_passes 256 0); [apply sp_init; reflexivity | lia].
Defined.

Lemma node_grows_refl (nd : PSNode) : node_grows nd nd.
Proof. repeat split; reflexivity. Qed.

Lemma node_grows_trans (a b c : PSNode) : node_grows a b → node_grows b c → node_grows a c.
Proof.
  intros (Hs1 & Hp1 & Hc1 & Hch1) (Hs2 & Hp2 & Hc2 & Hch2).
  repeat split; [congruence | congruence | lia | etrans; eassumption].
Qed.

Lemma world_grows_refl (w : World) : world_grows w w.
Proof. split; [intros i nd H; exists nd; split; [assumption | apply node_grows_refl] | reflexivity]. Qed.

Lemma world_grows_trans (a b c : World) : world_grows a b → world_grows b c → world_grows a c.
Proof.
  intros [H1 G1] [H2 G2]. split; [|etrans; eassumption].
  intros i nd Hnd. destruct (H1 i nd Hnd) as (nd1 & Hnd1 & Hg1).
  destruct (H2 i nd1 Hnd1) as (nd2 & Hnd2 & Hg2).
  exists nd2. split; [assumption | eapply node_grows_trans; eassumption].
Qed.

Lemma node_grows_push (nd : PSNode) (q : ptr) : node_grows nd (push_child nd q).
Proof. repeat split; simpl; try reflexivity. apply prefix_app_r. reflexivity. Qed.

Lemma process_successor_grows (fuel : nat) (t : ptr) (s : FWDCstate) (w w' : World) :
  process_successor fuel t s w = Done w' → world_grows w w'.
Proof.
  intros H. apply process_successor_cases in H. destruct H as (tn & Ht & Hcases).
  destruct Hcases as [[_ ->] | [(_ & q & hp1 & fr1 & b & tn1 & _ & Hupd & Ht1 & Hh & Hg & _)
                                 | (_ & Hnone & Hh & Hg & _)]]; [apply world_grows_refl| |].
  - split; [|rewrite Hg; reflexivity].
    apply updateCostCond_refines in Hupd. simpl in Hupd.
    intros i nd Hnd.
    destruct (Forall2_lookup_l _ _ _ _ _ Hupd Hnd) as (nd1 & Hnd1 & Hs & Hp & Hc & Hor).
    assert (Hg1 : node_grows nd nd1).
    { repeat split; try assumption; [destruct Hor as [-> | ?]; lia | rewrite Hc; reflexivity]. }
    rewrite Hh, (lookup_relaxed hp1 t tn1 _ _ Ht1).
    destruct (decide (i = t)) as [-> | _]; [|eauto].
    assert (nd1 = tn1) as -> by congruence. eexists. split; [reflexivity|].
    eapply node_grows_trans; [exact Hg1 | apply node_grows_push].
  - split; [|rewrite Hg; apply insert_subseteq; assumption].
    intros i nd Hnd. rewrite Hh.
    assert (Ht' : (heap w ++ [mkNode s (Some t) (cost2reach tn + 1) (h s) []]) !! t
                  = Some tn) by (apply lookup_app_l_Some; assumption).
    rewrite (lookup_relaxed _ t tn _ _ Ht').
    destruct (decide (i = t)) as [-> | _].
    + assert (nd = tn) as -> by congruence. eexists. split; [reflexivity|].
      apply node_grows_push.
    + exists nd. split; [apply lookup_app_l_Some; assumption | apply node_grows_refl].
Qed.

Lemma expand_loop_grows (fuel : nat) (t : ptr) (cs : list FWDCstate) :
  ∀ w w', expand_loop fuel t cs w = Done w' → world_grows w w'.
Proof.
  induction cs as [|s cs IH]; intros w w' H; simpl in H.
  - inversion H; subst. apply world_grows_refl.
  - destruct (winningNode w); [inversion H; subst; apply world_grows_refl|].
    destruct (process_successor fuel t s w) as [w1| |] eqn:E; simpl in H; try discriminate.
    eapply world_grows_trans; [eapply process_successor_grows; eassumption | apply IH, H].
Qed.

Lemma expand_front_grows (fuel : nat) (w w' : World) :
  expand_front fuel w = Done w' → world_grows w w'.
Proof.
  unfold expand_front. intros H.
  destruct (pop_front w) as [[[t cs] w1]| |] eqn:Hpop; simpl in H; try discriminate.
  apply pop_front_frame in Hpop. destruct Hpop as (Hh & Hg & _).
  apply expand_loop_grows in H. destruct H as [H1 H2].
  split; [rewrite <- Hh; assumption | rewrite <- Hg; assumption].
Qed.

(** X16.  The search never takes anything back: over any number of
    passes every node keeps its place, its state and its
    [projectedCost], its cost does not rise, its list of children is
    only extended at the end, and [generated] keeps every binding. *)
Theorem search_only_grows (iters fuel : nat) (w w' : World) :
  run_iters iters fuel w = Done w' → world_grows w w'.
Proof.
  revert w. induction iters as [|n IH]; intros w H; simpl in H.
  - inversion H; subst. apply world_grows_refl.
  - destruct (searching w); [|inversion H; subst; apply world_grows_refl].
    destruct (expand_front fuel w) as [w1| |] eqn:E; simpl in H; try discriminate.
    eapply world_grows_trans; [eapply expand_front_grows; eassumption | apply IH, H].
Qed.

Lemma search_only_grows_witness :
  ∃ w w', initial_world = Done w ∧ run_iters 3 1 w = Done w' ∧ world_grows w w'.
Proof.
  eexists _, _. split; [reflexivity|]. split; [vm_compute; reflexivity|].
  apply (search_only_grows 3 1). vm_compute; reflexivity.
Defined.

(** ** The path printed *)

Lemma string_app_assoc (a b c : string) : (a +:+ b) +:+ c = a +:+ (b +:+ c).
Proof.
  induction a as [|x a IH]; [reflexivity|].
  change (String x ((a +:+ b) +:+ c) = String x (a +:+ (b +:+ c))). rewrite IH. reflexivity.
Qed.

Lemma path_string_snoc (sts : list FWDCstate) (s0 s : FWDCstate) :
  path_string (s0 :: (sts ++ [s])%list) = path_string (s0 :: sts) +:+ " -> " +:+ toString s.
Proof.
  revert s0. induction sts as [|s1 sts IH]; intros s0; [reflexivity|].
  change (path_string (s0 :: ((s1 :: sts) ++ [s])%list))
    with (toString s0 +:+ " -> " +:+ path_string (s1 :: (sts ++ [s])%list)).
  rewrite IH.
  change (path_string (s0 :: s1 :: sts))
    with (toString s0 +:+ " -> " +:+ path_string (s1 :: sts)).
  rewrite !string_app_assoc. reflexivity.
Qed.

Lemma build_outpath_chain (fuel : nat) (hp : Heap) :
  ∀ p chain acc, parent_chain fuel hp (Some p) = Done chain →
    ∃ s0 sts, reverse (chain_states hp chain) = s0 :: sts ∧
      build_outpath fuel hp (Some p) acc = Done (path_string (s0 :: sts) +:+ acc).
Proof.
  induction fuel as [|fuel IH]; intros p chain acc H; simpl in H; [discriminate|].
  destruct (deref hp p) as [nd| |] eqn:Hnd; simpl in H; try discriminate.
  pose proof Hnd as Hnd'. apply deref_Done in Hnd'.
  destruct (parent_chain fuel hp (parent nd)) as [rest| |] eqn:E; simpl in H;
    try discriminate.
  inversion H; subst chain. clear H.
  simpl build_outpath. rewrite Hnd. simpl.
  unfold chain_states. simpl. rewrite Hnd'. simpl. fold (chain_states hp rest).
  rewrite reverse_cons.
  destruct (parent nd) as [p'|] eqn:Hpar.
  - destruct (IH p' rest (" -> " +:+ (toString (state nd) +:+ acc)) E)
      as (s0 & sts & Hrev & Hbuild).
    rewrite Hrev. exists s0, (sts ++ [state nd])%list. split; [reflexivity|].
    rewrite Hbuild. f_equal.
    transitivity (path_string (s0 :: (sts ++ [state nd])%list) +:+ acc); [|reflexivity].
    rewrite (path_string_snoc sts s0 (state nd)). rewrite !string_app_assoc. reflexivity.
  - destruct fuel; simpl in E; inversion E; subst rest; simpl;
      exists (state nd), []; split; reflexivity.
Qed.

Lemma string_app_empty (a : string) : a +:+ EmptyString = a.
Proof.
  induction a as [|x a IH]; [reflexivity|].
  change (String x (a +:+ EmptyString) = String x a). rewrite IH. reflexivity.
Qed.

(** X17.  The loop that builds [outpath] returns wherever the walk along
    the parent links does, and the string is then the states of the
    chain, from the node without parent to the node the walk began at,
    joined by [ -> ]; every node of the chain contributes one state. *)
Theorem printed_path_runs_from_start (fuel : nat) (hp : Heap) (g : ptr) (chain : list ptr) :
  parent_chain fuel hp (Some g) = Done chain →
  build_outpath fuel hp (Some g) EmptyString = Done (path_string (reverse (chain_states hp chain))) ∧
  length (chain_states hp chain) = length chain.
Proof.
  intros H. split.
  - destruct (build_outpath_chain fuel hp g chain EmptyString H) as (s0 & sts & Hrev & Hbuild).
    rewrite Hrev, Hbuild, string_app_empty. reflexivity.
  - clear -H. revert g chain H.
    induction fuel as [|fuel IH]; intros p chain H; simpl in H; [discriminate|].
    destruct (deref hp p) as [nd| |] eqn:Hnd; simpl in H; try discriminate.
    apply deref_Done in Hnd.
    destruct (parent_chain fuel hp (parent nd)) as [rest| |] eqn:E; simpl in H;
      try discriminate.
    inversion H; subst chain. unfold chain_states. simpl. rewrite Hnd. simpl. f_equal.
    destruct (parent nd) as [p'|]; [apply (IH p' rest E)|].
    destruct fuel; simpl in E; inversion E; reflexivity.
Qed.

Lemma printed_path_runs_from_start_witness :
  parent_chain 2 mutual_pair (Some 1%nat) = Done [1; 0]%nat ∧
  build_outpath 2 mutual_pair (Some 1%nat) EmptyString = Done "[||FWDC] -> [FD||WC]".
Proof.
  assert (H : parent_chain 2 mutual_pair (Some 1%nat) = Done [1; 0]%nat) by reflexivity.
  split; [exact H|].
  exact (proj1 (printed_path_runs_from_start 2 mutual_pair 1 [1; 0]%nat H)).
Defined.

(** ** The release of the nodes *)

Lemma all_states_ranked : state_rank <$> all_states = seq 0 16.
Proof. reflexivity. Qed.

Lemma all_states_NoDup : NoDup all_states.
Proof.
  apply (NoDup_fmap_1 state_rank). rewrite all_states_ranked. apply NoDup_seq.
Qed.

Lemma NoDup_omap_inj {A B : Type} (f : A → option B) (l : list A) :
  (∀ x y z, f x = Some z → f y = Some z → x = y) → NoDup l → NoDup (omap f l).
Proof.
  intros Hinj. induction 1 as [|x l Hx _ IH]; simpl; [constructor|].
  destruct (f x) as [z|] eqn:E; [|assumption].
  constructor; [|assumption].
  intros Hin. apply list_elem_of_omap in Hin. destruct Hin as (y & Hy & Hfy).
  rewrite (Hinj x y z E Hfy) in Hx. contradiction.
Qed.

Lemma release_order_table (g : gmap FWDCstate ptr) (sts : list FWDCstate) :
  table_ok g sts → release_order g ≡ₚ seq 0 (length sts).
Proof.
  intros Hok. apply NoDup_Permutation.
  - apply NoDup_omap_inj; [|apply all_states_NoDup].
    intros x y z Hx Hy. apply Hok in Hx, Hy. congruence.
  - apply NoDup_seq.
  - intros p. unfold release_order. rewrite list_elem_of_omap, elem_of_seq. split.
    + intros (s & _ & Hs). apply Hok, lookup_lt_Some in Hs. lia.
    + intros [_ Hp]. destruct (lookup_lt_is_Some_2 sts p) as [s Hs]; [lia|].
      exists s. split; [apply all_states_complete | apply Hok, Hs].
Qed.

(** X18.  The last loop of [main] deletes every allocated node exactly
    once: at every point of the search, the pointers met by iterating
    over [generated] are the allocated nodes, each once. *)
Theorem release_frees_each_node_once (fuel k : nat) (w : World) :
  search_point fuel k w →
  release_order (generated w) ≡ₚ seq 0 (length (heap w)).
Proof.
  intros Hsp. destruct (search_point_table fuel k w Hsp) as [Hok _].
  rewrite <- (length_fmap state). apply release_order_table, Hok.
Qed.

Lemma release_frees_each_node_once_witness :
  ∃ w, initial_world = Done w ∧ release_order (generated w) ≡ₚ seq 0 (length (heap w)).
Proof.
  eexists. split; [reflexivity|].
  apply (release_frees_each_node_once 1 0). apply sp_init. reflexivity.
Defined.
